(** * A shallow embedding of the peer-to-peer file-transfer application

    The development follows the two programs of the repository:

    - the client class [WebRTCManager] (socket connection, room create/join,
      the relay [signal] handler with its pending-candidate queue, the
      offline token codec [compressSDP]/[decompressSDP], and the chunked
      file transfer [sendFile]/[handleDataMessage]);
    - the signalling server (the room table and its [join-room] handler).

    Conventions.  Every method of the class is a function from the manager
    record (the object's fields) and the pieces of the environment the method
    observes, to the new manager and the list of effects it performed, in
    program order.  Synchronous handlers are transitions of the event loop.
    The [async] listeners of the relay mode are followed from one [await] to
    the next: the event loop runs other tasks while a call is suspended.
    Informational [console.log] calls are left out; [console.error] calls
    are kept as [ConsoleError] effects. *)

From Stdlib Require Import ZArith QArith Qminmax Qround Qabs List Lia Lqa.
From Stdlib Require Import Strings.Byte.
From stdpp Require Import gmap strings list.

Local Open Scope Z_scope.

(** ** JavaScript values used by the code *)

Module Js.

(** A JavaScript number as the progress computations produce it.  Finite
    values are kept as exact rationals (the rounding of doubles is monotone
    and exact on the values 0, 1 and 100 the claims speak of); division by
    zero yields the IEEE specials, which [Math.min] treats as below. *)
Inductive jsnum : Type :=
  | Num (q : Q)
  | PosInf
  | NegInf
  | NaN.

(** [a / b] on integral operands. *)
Definition div (a b : Z) : jsnum :=
  if b =? 0 then
    if a =? 0 then NaN else if 0 <? a then PosInf else NegInf
  else Num (inject_Z a / inject_Z b).

(** [x * 100]. *)
Definition times100 (x : jsnum) : jsnum :=
  match x with
  | Num q => Num (q * 100)
  | other => other
  end.

(** [Math.min(100, x)]. *)
Definition min100 (x : jsnum) : jsnum :=
  match x with
  | Num q => Num (Qmin 100 q)
  | PosInf => Num 100
  | NegInf => NegInf
  | NaN => NaN
  end.

(** [x <= y] as JavaScript compares numbers: false as soon as a NaN is
    involved. *)
Definition le (x y : jsnum) : Prop :=
  match x, y with
  | NaN, _ | _, NaN => False
  | NegInf, _ => True
  | _, PosInf => True
  | Num p, Num q => (p <= q)%Q
  | _, _ => False
  end.

(** [x === 100]. *)
Definition is100 (x : jsnum) : Prop :=
  match x with
  | Num q => (q == 100)%Q
  | _ => False
  end.

(** Truthiness of a string: only the empty string is falsy. *)
Definition truthy (s : string) : bool :=
  match s with
  | EmptyString => false
  | String _ _ => true
  end.

(** Truthiness of an optional string property ([undefined] is falsy). *)
Definition truthy_opt (o : option string) : bool :=
  match o with
  | Some s => truthy s
  | None => false
  end.

Lemma truthy_true (s : string) : truthy s = true <-> s <> EmptyString.
Proof. destruct s; simpl; split; congruence. Qed.

(** *** Arithmetic on Numbers

    A finite Number is a rational with a 53-bit significand, a multiple of
    [1 / least].  The sum and the product of two Numbers are the exact
    results rounded to the nearest Number, to the one with the even
    significand when the result lies half way (IEEE 754 binary64,
    roundTiesToEven).  Results of magnitude [2 ^ 1024] and above, which
    round to an infinity, are outside what is modelled here. *)

(** The least positive Number is [1 / least]. *)
Definition least : Z := 2 ^ 1074.

(** The integer nearest to a rational, the even one of the two when it lies
    half way. *)
Definition nearest_even (q : Q) : Z :=
  let f := Qfloor q in
  match (q - inject_Z f ?= 1 # 2)%Q with
  | Lt => f
  | Eq => if Z.even f then f else f + 1
  | Gt => f + 1
  end.

(** The exponent of the spacing of the Numbers around [y / least]: 53 bits
    are kept. *)
Definition spacing (y : Q) : Z := Z.max 0 (Z.log2 (Qfloor (Qabs y)) - 52).

(** The multiple of [2 ^ spacing y] nearest to [y]. *)
Definition round_scaled (y : Q) : Z :=
  nearest_even (y / inject_Z (2 ^ spacing y)) * 2 ^ spacing y.

Definition round (x : Q) : Q :=
  (inject_Z (round_scaled (x * inject_Z least)) / inject_Z least)%Q.

Definition sum (a b : Q) : Q := round (a + b).
Definition product (a b : Q) : Q := round (a * b).
Definition is_number (x : Q) : Prop := (round x == x)%Q.


Section Rounding.

Local Open Scope Q_scope.

Lemma nearest_even_comp (a b : Q) : a == b -> nearest_even a = nearest_even b.
Proof.
  intros E. unfold nearest_even. rewrite (Qfloor_comp a b E).
  assert (H : a - inject_Z (Qfloor b) == b - inject_Z (Qfloor b))
    by now rewrite E.
  now rewrite (Qcompare_comp _ _ H (1 # 2) (1 # 2) (Qeq_refl _)).
Qed.

Lemma nearest_even_bounds (q : Q) :
  q - (1 # 2) <= inject_Z (nearest_even q) <= q + (1 # 2).
Proof.
  unfold nearest_even.
  pose proof (Qfloor_le q) as Hl. pose proof (Qlt_floor q) as Hu.
  rewrite inject_Z_plus in Hu. change (inject_Z 1) with 1 in Hu.
  destruct (q - inject_Z (Qfloor q) ?= 1 # 2) eqn:E.
  - apply Qeq_alt in E.
    destruct (Z.even (Qfloor q)); rewrite ?inject_Z_plus;
      change (inject_Z 1) with 1; lra.
  - apply Qlt_alt in E. lra.
  - apply Qgt_alt in E. rewrite inject_Z_plus.
    change (inject_Z 1) with 1. lra.
Qed.

Lemma nearest_even_Z (z : Z) : nearest_even (inject_Z z) = z.
Proof.
  unfold nearest_even. rewrite Qfloor_Z.
  assert (E : (inject_Z z - inject_Z z ?= 1 # 2) = Lt)
    by (apply (proj1 (Qlt_alt _ _)); ring_simplify (inject_Z z - inject_Z z); reflexivity).
  now rewrite E.
Qed.

Lemma nearest_even_mono (a b : Q) :
  a <= b -> (nearest_even a <= nearest_even b)%Z.
Proof.
  intros Hab.
  destruct (Z.le_gt_cases (nearest_even a) (nearest_even b)) as [|Hgt];
    [assumption|].
  pose proof (nearest_even_bounds a) as Ha.
  pose proof (nearest_even_bounds b) as Hb.
  assert (H1 : inject_Z (nearest_even b) + 1 <= inject_Z (nearest_even a)).
  { change 1 with (inject_Z 1). rewrite <- inject_Z_plus, <- Zle_Qle. lia. }
  assert (E : a == b) by lra.
  rewrite (nearest_even_comp a b E) in Hgt. lia.
Qed.

Lemma spacing_nonneg (y : Q) : (0 <= spacing y)%Z.
Proof. unfold spacing. lia. Qed.

Lemma pow2_pos (s : Z) : (0 <= s)%Z -> 0 < inject_Z (2 ^ s).
Proof.
  intros Hs. change 0 with (inject_Z 0). rewrite <- Zlt_Qlt.
  apply Z.pow_pos_nonneg; lia.
Qed.

Lemma spacing_mono (u v : Q) :
  0 <= u -> u <= v -> (spacing u <= spacing v)%Z.
Proof.
  intros Hu Huv. unfold spacing.
  rewrite (Qfloor_comp _ _ (Qabs_pos u Hu)).
  rewrite (Qfloor_comp _ _ (Qabs_pos v ltac:(lra))).
  pose proof (Z.log2_le_mono _ _ (Qfloor_resp_le u v Huv)). lia.
Qed.

Lemma below_next_binade (u : Q) :
  0 <= u -> u < inject_Z (2 ^ (53 + spacing u)).
Proof.
  intros Hu. pose proof (spacing_nonneg u) as Hs.
  assert (Hf : (Qfloor u + 1 <= 2 ^ (53 + spacing u))%Z).
  { unfold spacing in *. rewrite (Qfloor_comp _ _ (Qabs_pos u Hu)) in *.
    destruct (Z.le_gt_cases (Qfloor u) 0) as [H0|Hpos].
    - assert (1 <= 2 ^ (53 + Z.max 0 (Z.log2 (Qfloor u) - 52)))%Z; [|lia].
      apply (Z.pow_le_mono_r 2 0); lia.
    - pose proof (Z.log2_spec _ Hpos) as [_ Hlt].
      assert (2 ^ Z.succ (Z.log2 (Qfloor u))
              <= 2 ^ (53 + Z.max 0 (Z.log2 (Qfloor u) - 52)))%Z; [|lia].
      apply Z.pow_le_mono_r; lia. }
  apply Qlt_le_trans with (inject_Z (Qfloor u + 1)); [apply Qlt_floor|].
  now rewrite <- Zle_Qle.
Qed.

Lemma round_scaled_upper (u : Q) :
  0 <= u -> (round_scaled u <= 2 ^ (53 + spacing u))%Z.
Proof.
  intros Hu. pose proof (spacing_nonneg u) as Hs.
  pose proof (pow2_pos _ Hs) as Hc.
  unfold round_scaled. rewrite Z.pow_add_r by lia.
  apply Z.mul_le_mono_nonneg_r; [apply Z.pow_nonneg; lia|].
  rewrite <- (nearest_even_Z (2 ^ 53)). apply nearest_even_mono.
  apply Qle_shift_div_r; [exact Hc|].
  rewrite <- inject_Z_mult, <- Z.pow_add_r by lia.
  apply Qlt_le_weak, (below_next_binade u Hu).
Qed.

Lemma round_scaled_lower (v : Q) :
  0 <= v -> (0 < spacing v)%Z -> (2 ^ (52 + spacing v) <= round_scaled v)%Z.
Proof.
  intros Hv Hs. pose proof (pow2_pos (spacing v) ltac:(lia)) as Hc.
  assert (Hf : (2 ^ (52 + spacing v) <= Qfloor v)%Z).
  { unfold spacing in *. rewrite (Qfloor_comp _ _ (Qabs_pos v Hv)) in *.
    assert (Hpos : (0 < Qfloor v)%Z).
    { destruct (Z.le_gt_cases (Qfloor v) 0) as [H0|]; [|lia].
      rewrite (Z.log2_nonpos _ H0) in Hs. lia. }
    pose proof (Z.log2_spec _ Hpos) as [Hle _].
    replace (52 + Z.max 0 (Z.log2 (Qfloor v) - 52))%Z
      with (Z.log2 (Qfloor v)) by lia.
    exact Hle. }
  unfold round_scaled. rewrite Z.pow_add_r by lia.
  apply Z.mul_le_mono_nonneg_r; [apply Z.pow_nonneg; lia|].
  rewrite <- (nearest_even_Z (2 ^ 52)). apply nearest_even_mono.
  apply Qle_shift_div_l; [exact Hc|].
  rewrite <- inject_Z_mult, <- Z.pow_add_r by lia.
  apply Qle_trans with (inject_Z (Qfloor v)); [|apply Qfloor_le].
  now rewrite <- Zle_Qle.
Qed.

Lemma round_scaled_mono (u v : Q) :
  0 <= u -> u <= v -> (round_scaled u <= round_scaled v)%Z.
Proof.
  intros Hu Huv. pose proof (spacing_mono u v Hu Huv) as Hs.
  pose proof (spacing_nonneg u) as Hsu.
  destruct (Z.eq_dec (spacing u) (spacing v)) as [E|NE].
  - unfold round_scaled. rewrite E.
    apply Z.mul_le_mono_nonneg_r; [apply Z.pow_nonneg; lia|].
    apply nearest_even_mono.
    pose proof (pow2_pos (spacing v) ltac:(lia)) as Hc.
    unfold Qdiv. apply Qmult_le_compat_r; [exact Huv|].
    apply Qinv_le_0_compat. lra.
  - apply Z.le_trans with (2 ^ (53 + spacing u))%Z;
      [now apply round_scaled_upper|].
    apply Z.le_trans with (2 ^ (52 + spacing v))%Z;
      [apply Z.pow_le_mono_r; lia|].
    apply round_scaled_lower; [lra | lia].
Qed.

Lemma least_pos : 0 < inject_Z least.
Proof. apply pow2_pos. lia. Qed.

(** Rounding keeps the order of non-negative values. *)
Lemma round_mono (x y : Q) : 0 <= x -> x <= y -> round x <= round y.
Proof.
  intros Hx Hxy. pose proof least_pos as HK. unfold round, Qdiv.
  apply Qmult_le_compat_r; [|apply Qinv_le_0_compat; lra].
  rewrite <- Zle_Qle. apply round_scaled_mono.
  - apply Qmult_le_0_compat; lra.
  - apply Qmult_le_compat_r; lra.
Qed.

(** The greatest Number below 1 is [1 - 2 ^ -53]. *)
Lemma number_below_one (r : Q) :
  is_number r -> 0 <= r -> r < 1 -> r <= 1 - (1 # 2 ^ 53).
Proof.
  intros Hn H0 H1. destruct (Qlt_le_dec (1 - (1 # 2 ^ 53)) r) as [Hgt|];
    [exfalso | assumption].
  pose proof least_pos as HK.
  set (y := r * inject_Z least) in *.
  assert (Hlo : inject_Z (2 ^ 1074 - 2 ^ 1021) < y).
  { apply Qle_lt_trans with ((1 - (1 # 2 ^ 53)) * inject_Z least).
    - vm_compute. discriminate.
    - apply Qmult_lt_compat_r; assumption. }
  assert (Hhi : y < inject_Z (2 ^ 1074)).
  { apply Qlt_le_trans with (1 * inject_Z least).
    - apply Qmult_lt_compat_r; assumption.
    - vm_compute. discriminate. }
  assert (Hy : 0 <= y) by (apply Qmult_le_0_compat; lra).
  assert (Hs : spacing y = 1021%Z).
  { unfold spacing. rewrite (Qfloor_comp _ _ (Qabs_pos y Hy)).
    assert (Hf1 : (2 ^ 1074 - 2 ^ 1021 <= Qfloor y)%Z).
    { rewrite <- (Qfloor_Z (2 ^ 1074 - 2 ^ 1021)).
      apply Qfloor_resp_le. lra. }
    assert (Hf2 : (Qfloor y < 2 ^ 1074)%Z).
    { rewrite Zlt_Qlt. apply Qle_lt_trans with y; [apply Qfloor_le | lra]. }
    rewrite (Z.log2_unique (Qfloor y) 1073); [reflexivity | lia |].
    change (Z.succ 1073) with 1074%Z. split; [|exact Hf2].
    apply Z.le_trans with (2 ^ 1074 - 2 ^ 1021)%Z; [|exact Hf1].
    vm_compute. discriminate. }
  assert (Hr : inject_Z (round_scaled y) == y).
  { unfold is_number, round in Hn. fold y in Hn.
    rewrite <- (Qmult_div_r (inject_Z (round_scaled y)) (inject_Z least))
      by lra.
    rewrite Hn. unfold y. ring. }
  unfold round_scaled in Hr. rewrite Hs in Hr.
  set (m := nearest_even (y / inject_Z (2 ^ 1021))) in Hr.
  rewrite <- Hr in Hlo, Hhi. rewrite <- Zlt_Qlt in Hlo, Hhi.
  assert (E1 : (2 ^ 1074 - 2 ^ 1021 = (2 ^ 53 - 1) * 2 ^ 1021)%Z)
    by (vm_compute; reflexivity).
  assert (E2 : (2 ^ 1074 = 2 ^ 53 * 2 ^ 1021)%Z) by (vm_compute; reflexivity).
  rewrite E1 in Hlo. rewrite E2 in Hhi.
  apply Z.mul_lt_mono_pos_r in Hlo; [|apply Z.pow_pos_nonneg; lia].
  apply Z.mul_lt_mono_pos_r in Hhi; [|apply Z.pow_pos_nonneg; lia].
  lia.
Qed.

Lemma round_zero : round 0 == 0.
Proof. vm_compute. reflexivity. Qed.

End Rounding.

End Js.

(** ** The client: class [WebRTCManager] *)

Module WebRTC.

Import Js.

Definition bytes : Type := list byte.

(** *** Objects of the browser the class drives *)

Inductive RTCSdpType : Type := offer | answer.

Record RTCSessionDescription : Type := {
  sd_type : RTCSdpType;
  sd_sdp : option string
}.

Record RTCIceCandidateInit : Type := {
  candidate : string;
  sdpMid : option string;
  sdpMLineIndex : option nat
}.

(** The peer connection, as far as the class reads and drives it: the two
    descriptions and the candidates handed to [addIceCandidate], in call
    order. *)
Record RTCPeerConnection : Type := {
  remoteDescription : option RTCSessionDescription;
  localDescription : option RTCSessionDescription;
  remoteCandidates : list RTCIceCandidateInit
}.

Inductive RTCDataChannelState : Type := connecting | open | closing | closed.

Record RTCDataChannel : Type := {
  readyState : RTCDataChannelState;
  bufferedAmount : Z
}.

Record Socket : Type := { connected : bool }.

Record Blob : Type := {
  blob_data : bytes;
  blob_type : string
}.

(** A [File]: its [size] is the length of its content. *)
Record File : Type := {
  file_name : string;
  file_type : string;
  file_content : bytes
}.

Definition byteLength (b : bytes) : Z := Z.of_nat (length b).

Definition file_size (f : File) : Z := byteLength (file_content f).

(** [blob.slice(start, end)] with the clamping of the File API. *)
Definition slice (b : bytes) (start stop : Z) : bytes :=
  let size := byteLength b in
  let rel (x : Z) := if x <? 0 then Z.max (size + x) 0 else Z.min x size in
  let s := rel start in
  let span := Z.max (rel stop - s) 0 in
  firstn (Z.to_nat span) (skipn (Z.to_nat s) b).

(** *** Frames of the data channel *)

(** A string frame, by what [JSON.parse] and the test on [meta.type] make of
    it: a metadata object as [sendFile] writes it; a value other than [null]
    whose [type] is not ['metadata'] (reading [type] off a number, a string,
    a boolean, an array or an object does not throw); [null], on which
    reading [meta.type] throws a [TypeError] inside the [try]; and a string
    [JSON.parse] refuses. *)
Inductive control : Type :=
  | Metadata (name : string) (size : Z) (mime : string)
  | JsonOther
  | JsonNull
  | JsonInvalid.

(** What [onmessage] hands to [handleDataMessage]. *)
Inductive message : Type :=
  | Text (c : control)
  | Binary (data : bytes)
  | OtherData.

(** *** Signalling envelopes *)

Inductive SignalType : Type := sig_offer | sig_answer | sig_ice_candidate.

Record SignalData : Type := {
  sig_type : SignalType;
  sig_sdp : option string;
  sig_candidate : option RTCIceCandidateInit
}.

(** What the client emits on its socket. *)
Inductive client_emit : Type :=
  | EmitCreateRoom
  | EmitJoinRoom (code : string)
  | EmitSignal (roomCode : string) (data : SignalData).

(** *** Effects *)

Inductive event : Type :=
  | StatusChange (status : string)
  | Progress (progress : jsnum) (status : string)
  | FileReceived (file : Blob) (name : string)
  | RoomCreated (code : string)
  | SocketConnect
  | SocketEmit (e : client_emit)
  | ChannelSend (buffered : Z) (m : message)
  | SetTimeout (ms : Z)
  | ConsoleError (tag : string).

(** [ChannelSend buffered m] records a call [dataChannel.send(m)] together
    with the channel's [bufferedAmount] at the moment of the call. *)

(** *** The fields of the class *)

Record WebRTCManager : Type := {
  peerConnection : RTCPeerConnection;
  dataChannel : option RTCDataChannel;
  socket : option Socket;
  roomCode : string;
  isHost : bool;
  pendingCandidates : list RTCIceCandidateInit;
  receiveBuffer : list bytes;
  receivedSize : Z;
  expectedSize : Z;
  expectedName : string;
  expectedType : string
}.

(** The object right after the constructor ran. *)
Definition new_manager : WebRTCManager := {|
  peerConnection := {| remoteDescription := None; localDescription := None;
                       remoteCandidates := [] |};
  dataChannel := None;
  socket := None;
  roomCode := "";
  isHost := false;
  pendingCandidates := [];
  receiveBuffer := [];
  receivedSize := 0;
  expectedSize := 0;
  expectedName := "";
  expectedType := ""
|}.

Definition set_peerConnection (pc : RTCPeerConnection) (m : WebRTCManager) :=
  {| peerConnection := pc; dataChannel := dataChannel m; socket := socket m;
     roomCode := roomCode m; isHost := isHost m;
     pendingCandidates := pendingCandidates m;
     receiveBuffer := receiveBuffer m; receivedSize := receivedSize m;
     expectedSize := expectedSize m; expectedName := expectedName m;
     expectedType := expectedType m |}.

Definition set_dataChannel (c : option RTCDataChannel) (m : WebRTCManager) :=
  {| peerConnection := peerConnection m; dataChannel := c; socket := socket m;
     roomCode := roomCode m; isHost := isHost m;
     pendingCandidates := pendingCandidates m;
     receiveBuffer := receiveBuffer m; receivedSize := receivedSize m;
     expectedSize := expectedSize m; expectedName := expectedName m;
     expectedType := expectedType m |}.

Definition set_socket (s : option Socket) (m : WebRTCManager) :=
  {| peerConnection := peerConnection m; dataChannel := dataChannel m;
     socket := s; roomCode := roomCode m; isHost := isHost m;
     pendingCandidates := pendingCandidates m;
     receiveBuffer := receiveBuffer m; receivedSize := receivedSize m;
     expectedSize := expectedSize m; expectedName := expectedName m;
     expectedType := expectedType m |}.

Definition set_roomCode (c : string) (m : WebRTCManager) :=
  {| peerConnection := peerConnection m; dataChannel := dataChannel m;
     socket := socket m; roomCode := c; isHost := isHost m;
     pendingCandidates := pendingCandidates m;
     receiveBuffer := receiveBuffer m; receivedSize := receivedSize m;
     expectedSize := expectedSize m; expectedName := expectedName m;
     expectedType := expectedType m |}.

Definition set_isHost (b : bool) (m : WebRTCManager) :=
  {| peerConnection := peerConnection m; dataChannel := dataChannel m;
     socket := socket m; roomCode := roomCode m; isHost := b;
     pendingCandidates := pendingCandidates m;
     receiveBuffer := receiveBuffer m; receivedSize := receivedSize m;
     expectedSize := expectedSize m; expectedName := expectedName m;
     expectedType := expectedType m |}.

Definition set_pendingCandidates (l : list RTCIceCandidateInit)
    (m : WebRTCManager) :=
  {| peerConnection := peerConnection m; dataChannel := dataChannel m;
     socket := socket m; roomCode := roomCode m; isHost := isHost m;
     pendingCandidates := l;
     receiveBuffer := receiveBuffer m; receivedSize := receivedSize m;
     expectedSize := expectedSize m; expectedName := expectedName m;
     expectedType := expectedType m |}.

Definition set_receiveBuffer (l : list bytes) (m : WebRTCManager) :=
  {| peerConnection := peerConnection m; dataChannel := dataChannel m;
     socket := socket m; roomCode := roomCode m; isHost := isHost m;
     pendingCandidates := pendingCandidates m;
     receiveBuffer := l; receivedSize := receivedSize m;
     expectedSize := expectedSize m; expectedName := expectedName m;
     expectedType := expectedType m |}.

Definition set_receivedSize (n : Z) (m : WebRTCManager) :=
  {| peerConnection := peerConnection m; dataChannel := dataChannel m;
     socket := socket m; roomCode := roomCode m; isHost := isHost m;
     pendingCandidates := pendingCandidates m;
     receiveBuffer := receiveBuffer m; receivedSize := n;
     expectedSize := expectedSize m; expectedName := expectedName m;
     expectedType := expectedType m |}.

Definition set_expected (size : Z) (name mime : string) (m : WebRTCManager) :=
  {| peerConnection := peerConnection m; dataChannel := dataChannel m;
     socket := socket m; roomCode := roomCode m; isHost := isHost m;
     pendingCandidates := pendingCandidates m;
     receiveBuffer := receiveBuffer m; receivedSize := receivedSize m;
     expectedSize := size; expectedName := name; expectedType := mime |}.

(** *** Receive path: [handleDataMessage] *)

Definition handleDataMessage (m : WebRTCManager) (data : message)
    : WebRTCManager * list event :=
  match data with
  | Text (Metadata name size mime) =>
      let m1 := set_expected size name mime m in
      let m2 := set_receiveBuffer [] m1 in
      let m3 := set_receivedSize 0 m2 in
      (m3, [Progress (Num 0) "receiving"])
  | Text JsonOther => (m, [])
  | Text JsonNull | Text JsonInvalid =>
      (* both throw inside the [try]: a [TypeError] on [meta.type], a
         [SyntaxError] in [JSON.parse] *)
      (m, [ConsoleError "[Transfer] Metadata parse error:"])
  | Binary data =>
      let m1 := set_receiveBuffer (receiveBuffer m ++ [data]) m in
      let m2 := set_receivedSize (receivedSize m1 + byteLength data) m1 in
      let progress :=
        min100 (times100 (Js.div (receivedSize m2) (expectedSize m2))) in
      let report := Progress progress "receiving" in
      if expectedSize m2 <=? receivedSize m2 then
        let blob := {| blob_data := concat (receiveBuffer m2);
                       blob_type := expectedType m2 |} in
        (set_receiveBuffer [] m2,
         [report; FileReceived blob (expectedName m2)])
      else (m2, [report])
  | OtherData => (m, [])
  end.

(** The frames of a channel delivered one after the other. *)
Fixpoint receive (m : WebRTCManager) (frames : list message)
    : WebRTCManager * list event :=
  match frames with
  | [] => (m, [])
  | f :: rest =>
      let '(m1, out1) := handleDataMessage m f in
      let '(m2, out2) := receive m1 rest in
      (m2, out1 ++ out2)
  end.

(** The artifacts handed to [onFileReceived], in order. *)
Fixpoint filesReceived (out : list event) : list (Blob * string) :=
  match out with
  | [] => []
  | FileReceived b n :: rest => (b, n) :: filesReceived rest
  | _ :: rest => filesReceived rest
  end.

(** The values handed to [onProgress], in order. *)
Fixpoint progressValues (out : list event) : list jsnum :=
  match out with
  | [] => []
  | Progress p _ :: rest => p :: progressValues rest
  | _ :: rest => progressValues rest
  end.

(** The error reports ([console.error]) of a run. *)
Fixpoint errorsReported (out : list event) : list string :=
  match out with
  | [] => []
  | ConsoleError t :: rest => t :: errorsReported rest
  | _ :: rest => errorsReported rest
  end.

(** *** Send path: [sendFile] *)

Definition chunkSize : Z := 16384.

(** The buffered-amount threshold of the flow control, [1024 * 1024]. *)
Definition highWaterMark : Z := 1024 * 1024.

(** What happens to the channel while the sender is suspended (during a
    [FileReader] read or a 50 ms timer): the transport flushes [drained]
    bytes, and the channel may stop being open. *)
Record tick : Type := {
  drained : Z;
  stays_open : bool
}.

Definition transport : Type := nat -> tick.

Definition suspend (k : tick) (ch : RTCDataChannel) : RTCDataChannel :=
  {| readyState :=
       match readyState ch with
       | open => if stays_open k then open else closed
       | other => other
       end;
     bufferedAmount := Z.max 0 (bufferedAmount ch - Z.max 0 (drained k)) |}.

Definition is_open (ch : RTCDataChannel) : bool :=
  match readyState ch with
  | open => true
  | _ => false
  end.

(** [dataChannel.send(data)] queues the bytes at once. *)
Definition channel_send (ch : RTCDataChannel) (len : Z) : RTCDataChannel :=
  {| readyState := readyState ch;
     bufferedAmount := bufferedAmount ch + len |}.

Inductive send_outcome : Type :=
  | SendCompleted   (* [onProgress(100, 'completed')] was reached *)
  | SendAborted     (* the channel was not open when a chunk was read *)
  | SendNotReady    (* the guard at the top of [sendFile] returned *)
  | SendRunning.    (* more iterations than the budget allows *)

(** The closure [sendNextChunk], unfolded [fuel] times.  [t] counts the
    suspensions so far, [offset] is the closure's variable. *)
Fixpoint sendNextChunk (fuel : nat) (env : transport) (file : File)
    (t : nat) (offset : Z) (ch : RTCDataChannel)
    : RTCDataChannel * list event * send_outcome :=
  match fuel with
  | O => (ch, [], SendRunning)
  | S fuel' =>
      if file_size file <=? offset then
        (ch, [Progress (Num 100) "completed"], SendCompleted)
      else
        let data := slice (file_content file) offset (offset + chunkSize) in
        (* reader.readAsArrayBuffer(slice); ... reader.onload *)
        let ch1 := suspend (env t) ch in
        if negb (is_open ch1) then (ch1, [], SendAborted)
        else
          let sent := ChannelSend (bufferedAmount ch1) (Binary data) in
          let ch2 := channel_send ch1 (byteLength data) in
          let offset' := offset + chunkSize in
          let progress :=
            min100 (times100 (Js.div offset' (file_size file))) in
          let report := Progress progress "sending" in
          if bufferedAmount ch2 <? highWaterMark then
            let '(ch3, out, res) :=
              sendNextChunk fuel' env file (S t) offset' ch2 in
            (ch3, sent :: report :: out, res)
          else
            let ch3 := suspend (env (S t)) ch2 in
            let '(ch4, out, res) :=
              sendNextChunk fuel' env file (S (S t)) offset' ch3 in
            (ch4, sent :: report :: SetTimeout 50 :: out, res)
  end.

(** Iterations [sendNextChunk] needs for a file: one per chunk and the
    final one that reports completion. *)
Definition iterations (file : File) : nat :=
  S (Z.to_nat ((file_size file + chunkSize - 1) / chunkSize)).

(** [metadataLength] is the number of bytes the metadata string occupies on
    the channel (the length of [JSON.stringify]'s output, which is not
    modelled). *)
Definition sendFile (m : WebRTCManager) (file : File) (metadataLength : Z)
    (env : transport) : WebRTCManager * list event * send_outcome :=
  match dataChannel m with
  | None => (m, [ConsoleError "[Transfer] Data channel not ready"], SendNotReady)
  | Some ch =>
      if negb (is_open ch) then
        (m, [ConsoleError "[Transfer] Data channel not ready"], SendNotReady)
      else
        let metadata :=
          Text (Metadata (file_name file) (file_size file) (file_type file)) in
        let sent := ChannelSend (bufferedAmount ch) metadata in
        let ch0 := channel_send ch metadataLength in
        let '(ch', out, res) :=
          sendNextChunk (iterations file) env file 0 0 ch0 in
        (set_dataChannel (Some ch') m, sent :: out, res)
  end.

(** The frames a run put on the channel, in order. *)
Fixpoint framesSent (out : list event) : list message :=
  match out with
  | [] => []
  | ChannelSend _ f :: rest => f :: framesSent rest
  | _ :: rest => framesSent rest
  end.


Arguments slice : simpl never.
Arguments handleDataMessage : simpl never.
Arguments byteLength : simpl never.

(** *** Facts about the receive path *)

Definition total (fs : list bytes) : Z := byteLength (concat fs).

Lemma byteLength_nonneg (b : bytes) : 0 <= byteLength b.
Proof. unfold byteLength. lia. Qed.

Lemma byteLength_app (a b : bytes) :
  byteLength (a ++ b) = byteLength a + byteLength b.
Proof. unfold byteLength. rewrite length_app. lia. Qed.

Lemma total_nonneg (fs : list bytes) : 0 <= total fs.
Proof. apply byteLength_nonneg. Qed.

Lemma total_cons (f : bytes) (fs : list bytes) :
  total (f :: fs) = byteLength f + total fs.
Proof. unfold total. simpl. apply byteLength_app. Qed.

Lemma total_snoc (fs : list bytes) (f : bytes) :
  total (fs ++ [f]) = total fs + byteLength f.
Proof.
  unfold total. rewrite concat_app, byteLength_app. simpl.
  now rewrite app_nil_r.
Qed.

(** A binary frame that leaves the byte count below the expected size is
    buffered and only reported as progress. *)
Lemma handle_binary_pending (m : WebRTCManager) (data : bytes) :
  receivedSize m + byteLength data < expectedSize m ->
  handleDataMessage m (Binary data) =
    (set_receivedSize (receivedSize m + byteLength data)
       (set_receiveBuffer (receiveBuffer m ++ [data]) m),
     [Progress
        (min100 (times100
           (Js.div (receivedSize m + byteLength data) (expectedSize m))))
        "receiving"]).
Proof.
  intros Hlt. unfold handleDataMessage. simpl.
  destruct (Z.leb_spec (expectedSize m) (receivedSize m + byteLength data));
    [lia | reflexivity].
Qed.

(** A binary frame that brings the byte count to the expected size or
    beyond completes the transfer. *)
Lemma handle_binary_complete (m : WebRTCManager) (data : bytes) :
  expectedSize m <= receivedSize m + byteLength data ->
  handleDataMessage m (Binary data) =
    (set_receiveBuffer []
       (set_receivedSize (receivedSize m + byteLength data)
          (set_receiveBuffer (receiveBuffer m ++ [data]) m)),
     [Progress
        (min100 (times100
           (Js.div (receivedSize m + byteLength data) (expectedSize m))))
        "receiving";
      FileReceived
        {| blob_data := concat (receiveBuffer m ++ [data]);
           blob_type := expectedType m |}
        (expectedName m)]).
Proof.
  intros Hle. unfold handleDataMessage. simpl.
  destruct (Z.leb_spec (expectedSize m) (receivedSize m + byteLength data));
    [reflexivity | lia].
Qed.

Lemma handle_metadata (m : WebRTCManager) (name : string) (size : Z)
    (mime : string) :
  handleDataMessage m (Text (Metadata name size mime)) =
    (set_receivedSize 0 (set_receiveBuffer [] (set_expected size name mime m)),
     [Progress (Num 0) "receiving"]).
Proof. reflexivity. Qed.

Lemma receive_app (m : WebRTCManager) (a b : list message) :
  receive m (a ++ b) =
    let '(m1, out1) := receive m a in
    let '(m2, out2) := receive m1 b in
    (m2, out1 ++ out2).
Proof.
  revert m. induction a as [|f a IH]; intros m; simpl.
  - now destruct (receive m b).
  - destruct (handleDataMessage m f) as [m1 o1].
    rewrite IH. destruct (receive m1 a) as [m2 o2].
    destruct (receive m2 b) as [m3 o3]. now rewrite app_assoc.
Qed.

Lemma filesReceived_app (a b : list event) :
  filesReceived (a ++ b) = filesReceived a ++ filesReceived b.
Proof.
  induction a as [|e a IH]; simpl; [reflexivity|].
  destruct e; simpl; now rewrite ?IH.
Qed.

Lemma errorsReported_app (a b : list event) :
  errorsReported (a ++ b) = errorsReported a ++ errorsReported b.
Proof.
  induction a as [|e a IH]; simpl; [reflexivity|].
  destruct e; simpl; now rewrite ?IH.
Qed.

Lemma progressValues_app (a b : list event) :
  progressValues (a ++ b) = progressValues a ++ progressValues b.
Proof.
  induction a as [|e a IH]; simpl; [reflexivity|].
  destruct e; simpl; now rewrite ?IH.
Qed.

(** Frames that stay below the expected size, followed by one that reaches
    or passes it: exactly one artifact comes out, made of every frame whole,
    and nothing is reported as an error. *)
Lemma receive_until_complete (fs : list bytes) :
  forall (m : WebRTCManager) (last : bytes),
    receivedSize m + total fs < expectedSize m ->
    expectedSize m <= receivedSize m + total fs + byteLength last ->
    let '(m', out) := receive m (map Binary (fs ++ [last])) in
    filesReceived out =
      [({| blob_data := concat (receiveBuffer m ++ fs ++ [last]);
           blob_type := expectedType m |}, expectedName m)]
    /\ errorsReported out = []
    /\ m' = set_receiveBuffer []
              (set_receivedSize (receivedSize m + total fs + byteLength last)
                 m).
Proof.
  induction fs as [|f fs IH]; intros m last Hlt Hge.
  - simpl. rewrite handle_binary_complete
      by (unfold total, byteLength in *; simpl in *; lia).
    simpl. repeat split.
    unfold total, byteLength; simpl. destruct m; unfold set_receiveBuffer,
      set_receivedSize; simpl. f_equal. lia.
  - rewrite total_cons in *.
    pose proof (total_nonneg fs).
    simpl. rewrite handle_binary_pending by lia.
    specialize (IH (set_receivedSize (receivedSize m + byteLength f)
                      (set_receiveBuffer (receiveBuffer m ++ [f]) m)) last).
    simpl in IH.
    destruct (receive _ (map Binary (fs ++ [last]))) as [m' out].
    destruct IH as (Hf & He & Hm); [lia | lia |].
    simpl. rewrite Hf, He, Hm. repeat split.
    + now rewrite <- app_assoc.
    + destruct m; unfold set_receiveBuffer, set_receivedSize; simpl.
      f_equal. lia.
Qed.


(** *** What completion changes, and what it leaves *)

(** The fields of the transfer in progress. *)
Definition transferState (m : WebRTCManager) :=
  (receiveBuffer m, receivedSize m, expectedSize m, expectedName m,
   expectedType m).

(** Every other field of the object. *)
Definition sessionState (m : WebRTCManager) :=
  (peerConnection m, dataChannel m, socket m, roomCode m, isHost m,
   pendingCandidates m).

(** The transfer fields are back to their values in a new object. *)
Definition transfer_state_reset (m : WebRTCManager) : Prop :=
  transferState m = transferState new_manager.

Lemma handle_keeps_session (m : WebRTCManager) (f : message) :
  sessionState (fst (handleDataMessage m f)) = sessionState m.
Proof.
  unfold handleDataMessage.
  destruct f as [[name size mime| | |]|data|]; simpl; try reflexivity.
  now destruct (_ <=? _).
Qed.

Lemma handle_reads_transfer_only (m1 m2 : WebRTCManager) (f : message) :
  transferState m1 = transferState m2 ->
  snd (handleDataMessage m1 f) = snd (handleDataMessage m2 f)
  /\ transferState (fst (handleDataMessage m1 f)) =
     transferState (fst (handleDataMessage m2 f)).
Proof.
  unfold transferState. intros H. injection H as Hb Hr He Hn Ht.
  unfold handleDataMessage.
  destruct f as [[name size mime| | |]|data|]; simpl;
    rewrite ?Hb, ?Hr, ?He, ?Hn, ?Ht; try (split; reflexivity).
  destruct (_ <=? _); simpl; rewrite ?Hb, ?Hr, ?He, ?Hn, ?Ht;
    split; reflexivity.
Qed.

Lemma receive_reads_transfer_only (frames : list message) :
  forall m1 m2 : WebRTCManager,
    transferState m1 = transferState m2 ->
    snd (receive m1 frames) = snd (receive m2 frames).
Proof.
  induction frames as [|f frames IH]; intros m1 m2 H; simpl; [reflexivity|].
  destruct (handle_reads_transfer_only m1 m2 f H) as [Ho Hs].
  destruct (handleDataMessage m1 f) as [a1 o1].
  destruct (handleDataMessage m2 f) as [a2 o2]. simpl in Ho, Hs.
  specialize (IH a1 a2 Hs).
  destruct (receive a1 frames) as [b1 p1].
  destruct (receive a2 frames) as [b2 p2]. simpl in *. congruence.
Qed.

(** A metadata frame starts every transfer from the same transfer state,
    whatever the earlier one left behind. *)
Lemma metadata_starts_afresh (m1 m2 : WebRTCManager) (name : string)
    (size : Z) (mime : string) (frames : list message) :
  snd (receive m1 (Text (Metadata name size mime) :: frames)) =
  snd (receive m2 (Text (Metadata name size mime) :: frames)).
Proof.
  cbn [receive]. rewrite !handle_metadata.
  pose proof (receive_reads_transfer_only frames
    (set_receivedSize 0 (set_receiveBuffer [] (set_expected size name mime m1)))
    (set_receivedSize 0 (set_receiveBuffer [] (set_expected size name mime m2)))
    eq_refl) as H.
  destruct (receive _ frames) as [a1 o1].
  destruct (receive _ frames) as [a2 o2]. simpl in *. congruence.
Qed.

Definition five_bytes : bytes := [x68; x65; x6c; x6c; x6f].

Definition eight_bytes : bytes := five_bytes ++ [x21; x21; x21].

(** The scenario of the specification: metadata for a 5-byte file named
    a.txt, then one 5-byte frame. *)
Definition scenario_a_txt : list message :=
  [Text (Metadata "a.txt" 5 "text/plain"); Binary five_bytes].

(** C9, as stated, fails on the specification's own scenario: after the
    artifact is emitted the received byte count is still 5 and the expected
    name, size and type are still those of a.txt. *)
Lemma completion_leaves_count_and_metadata :
  filesReceived (snd (receive new_manager scenario_a_txt)) =
    [({| blob_data := five_bytes; blob_type := "text/plain" |}, "a.txt")]
  /\ ~ transfer_state_reset (fst (receive new_manager scenario_a_txt)).
Proof.
  split; [reflexivity|].
  unfold transfer_state_reset. vm_compute. discriminate.
Qed.

(** C9 (amended). When a binary frame brings the received byte count to the
    expected size or beyond, the receiver hands [onFileReceived] the
    concatenation of the buffered frames in arrival order under the expected
    name and type, and clears the receive buffer; the received byte count
    keeps its (incremented) value and the expected size, name and type keep
    theirs; no field outside the transfer is changed; and the next metadata
    frame starts a transfer that behaves as on a new object. *)
Theorem completion_clears_buffer_only (m : WebRTCManager) (data : bytes) :
  expectedSize m <= receivedSize m + byteLength data ->
  let '(m', out) := handleDataMessage m (Binary data) in
  filesReceived out =
    [({| blob_data := concat (receiveBuffer m ++ [data]);
         blob_type := expectedType m |}, expectedName m)]
  /\ receiveBuffer m' = []
  /\ receivedSize m' = receivedSize m + byteLength data
  /\ expectedSize m' = expectedSize m
  /\ expectedName m' = expectedName m
  /\ expectedType m' = expectedType m
  /\ sessionState m' = sessionState m
  /\ forall name size mime frames,
       snd (receive m' (Text (Metadata name size mime) :: frames)) =
       snd (receive new_manager (Text (Metadata name size mime) :: frames)).
Proof.
  intros Hle. rewrite handle_binary_complete by exact Hle.
  repeat split. intros. apply metadata_starts_afresh.
Qed.

Lemma completion_clears_buffer_only_witness :
  expectedSize (fst (receive new_manager [Text (Metadata "a.txt" 5 "text/plain")]))
    <= receivedSize (fst (receive new_manager [Text (Metadata "a.txt" 5 "text/plain")]))
       + byteLength five_bytes
  /\ receiveBuffer
       (fst (handleDataMessage
          (fst (receive new_manager [Text (Metadata "a.txt" 5 "text/plain")]))
          (Binary five_bytes))) = [].
Proof.
  split; [vm_compute; discriminate|].
  pose proof (completion_clears_buffer_only
    (fst (receive new_manager [Text (Metadata "a.txt" 5 "text/plain")]))
    five_bytes) as H.
  destruct (handleDataMessage _ (Binary five_bytes)) as [m' out].
  apply H. vm_compute; discriminate.
Defined.

(** C4, as stated, fails: with 5 bytes declared and an 8-byte frame received,
    nothing is reported and the artifact handed over holds all 8 bytes. *)
Lemma overrun_is_emitted_unreported :
  let out :=
    snd (receive new_manager
           [Text (Metadata "a.txt" 5 "text/plain"); Binary eight_bytes]) in
  errorsReported out = []
  /\ exists b n, In (b, n) (filesReceived out) /\ 5 < byteLength (blob_data b).
Proof.
  split; [reflexivity|].
  exists {| blob_data := eight_bytes; blob_type := "text/plain" |}, "a.txt"%string.
  split; [left; reflexivity | reflexivity].
Qed.

(** A whole transfer on the receive path: the metadata frame, frames that
    stay below the declared size, and a frame that reaches or passes it. *)
Lemma receive_transfer (m : WebRTCManager) (name : string) (size : Z)
    (mime : string) (fs : list bytes) (last : bytes) :
  total fs < size ->
  size <= total fs + byteLength last ->
  let out :=
    snd (receive m (Text (Metadata name size mime)
                      :: map Binary (fs ++ [last]))) in
  filesReceived out =
    [({| blob_data := concat (fs ++ [last]); blob_type := mime |}, name)]
  /\ errorsReported out = [].
Proof.
  intros Hlt Hge out. subst out. cbn [receive]. rewrite handle_metadata.
  pose proof (receive_until_complete fs
    (set_receivedSize 0 (set_receiveBuffer [] (set_expected size name mime m)))
    last) as H.
  simpl in H. destruct (receive _ (map Binary (fs ++ [last]))) as [m' out].
  destruct H as (Hf & He & _); [lia | lia |].
  cbn [snd app filesReceived errorsReported].
  split; [exact Hf | exact He].
Qed.

(** C4 (amended). The receive path has no check against the declared size:
    after a metadata frame declaring [size], frames totalling less than
    [size] followed by a frame that reaches or passes it produce exactly one
    artifact, which holds every frame whole (so its length is the number of
    bytes received, at least [size] and more when the last frame overshoots),
    and no error is reported. *)
Theorem overrun_is_appended (m : WebRTCManager) (name : string) (size : Z)
    (mime : string) (fs : list bytes) (last : bytes) :
  total fs < size ->
  size <= total fs + byteLength last ->
  let out :=
    snd (receive m (Text (Metadata name size mime)
                      :: map Binary (fs ++ [last]))) in
  filesReceived out =
    [({| blob_data := concat (fs ++ [last]); blob_type := mime |}, name)]
  /\ errorsReported out = []
  /\ byteLength (concat (fs ++ [last])) = total fs + byteLength last.
Proof.
  intros Hlt Hge out.
  destruct (receive_transfer m name size mime fs last Hlt Hge) as [Hf He].
  split; [exact Hf|]. split; [exact He|]. apply total_snoc.
Qed.

Lemma overrun_is_appended_witness :
  total [] < 5 /\ 5 <= total [] + byteLength eight_bytes
  /\ filesReceived
       (snd (receive new_manager
          (Text (Metadata "a.txt" 5 "text/plain")
             :: map Binary ([] ++ [eight_bytes])))) =
     [({| blob_data := concat ([] ++ [eight_bytes]);
          blob_type := "text/plain" |}, "a.txt"%string)].
Proof.
  assert (H1 : total [] < 5) by (vm_compute; reflexivity).
  assert (H2 : 5 <= total [] + byteLength eight_bytes)
    by (vm_compute; discriminate).
  split; [exact H1|]. split; [exact H2|].
  apply (overrun_is_appended new_manager "a.txt" 5 "text/plain" []
           eight_bytes H1 H2).
Defined.


(** *** Facts about the send path *)

Arguments sendNextChunk : simpl never.

(** The channel stays open for the whole send. *)
Definition always_open (env : transport) : Prop :=
  forall t, stays_open (env t) = true.

(** The chunks [sendNextChunk] cuts from [offset] on, in [fuel] iterations. *)
Fixpoint chunksFrom (fuel : nat) (content : bytes) (offset : Z) : list bytes :=
  match fuel with
  | O => []
  | S fuel' =>
      if byteLength content <=? offset then []
      else slice content offset (offset + chunkSize)
             :: chunksFrom fuel' content (offset + chunkSize)
  end.

Lemma chunkSize_pos : 0 < chunkSize.
Proof. reflexivity. Qed.

Lemma sendNextChunk_S (fuel : nat) (env : transport) (file : File) (t : nat)
    (offset : Z) (ch : RTCDataChannel) :
  sendNextChunk (S fuel) env file t offset ch =
    if file_size file <=? offset then
      (ch, [Progress (Num 100) "completed"], SendCompleted)
    else
      let data := slice (file_content file) offset (offset + chunkSize) in
      let ch1 := suspend (env t) ch in
      if negb (is_open ch1) then (ch1, [], SendAborted)
      else
        let sent := ChannelSend (bufferedAmount ch1) (Binary data) in
        let ch2 := channel_send ch1 (byteLength data) in
        let offset' := offset + chunkSize in
        let progress := min100 (times100 (Js.div offset' (file_size file))) in
        let report := Progress progress "sending" in
        if bufferedAmount ch2 <? highWaterMark then
          let '(ch3, out, res) :=
            sendNextChunk fuel env file (S t) offset' ch2 in
          (ch3, sent :: report :: out, res)
        else
          let ch3 := suspend (env (S t)) ch2 in
          let '(ch4, out, res) :=
            sendNextChunk fuel env file (S (S t)) offset' ch3 in
          (ch4, sent :: report :: SetTimeout 50 :: out, res).
Proof. reflexivity. Qed.

Lemma suspend_open (env : transport) (t : nat) (ch : RTCDataChannel) :
  always_open env -> is_open ch = true -> is_open (suspend (env t) ch) = true.
Proof.
  intros Henv Hch. unfold is_open, suspend in *. simpl.
  destruct (readyState ch); try discriminate. now rewrite Henv.
Qed.

Lemma channel_send_open (ch : RTCDataChannel) (len : Z) :
  is_open (channel_send ch len) = is_open ch.
Proof. reflexivity. Qed.

Lemma slice_inner (b : bytes) (offset : Z) :
  0 <= offset -> offset + chunkSize < byteLength b ->
  slice b offset (offset + chunkSize) =
    take (Z.to_nat chunkSize) (drop (Z.to_nat offset) b).
Proof.
  intros H0 Hlt. pose proof chunkSize_pos. unfold slice.
  destruct (Z.ltb_spec offset 0); [lia|].
  destruct (Z.ltb_spec (offset + chunkSize) 0); [lia|].
  rewrite (Z.min_l offset) by lia.
  rewrite (Z.min_l (offset + chunkSize)) by lia.
  rewrite Z.max_l by lia. f_equal. f_equal. lia.
Qed.

Lemma slice_last (b : bytes) (offset : Z) :
  0 <= offset -> offset < byteLength b -> byteLength b <= offset + chunkSize ->
  slice b offset (offset + chunkSize) = drop (Z.to_nat offset) b.
Proof.
  intros H0 Hlt Hge. pose proof chunkSize_pos. unfold slice.
  destruct (Z.ltb_spec offset 0); [lia|].
  destruct (Z.ltb_spec (offset + chunkSize) 0); [lia|].
  rewrite (Z.min_l offset) by lia.
  rewrite (Z.min_r (offset + chunkSize)) by lia.
  rewrite Z.max_l by lia. apply take_ge.
  rewrite length_drop. unfold byteLength in *. lia.
Qed.

(** The chunks cut from a position inside the file end with a chunk that
    reaches the end of the file, every chunk before it leaves the total below
    the file size, and together they are the rest of the content. *)
Lemma chunksFrom_shape (fuel : nat) :
  forall (content : bytes) (offset : Z),
    0 <= offset < byteLength content ->
    byteLength content - offset <= chunkSize * Z.of_nat fuel ->
    exists fs last,
      chunksFrom fuel content offset = fs ++ [last]
      /\ concat (fs ++ [last]) = drop (Z.to_nat offset) content
      /\ offset + total fs < byteLength content
      /\ byteLength content <= offset + total fs + byteLength last.
Proof.
  pose proof chunkSize_pos as Hcs.
  induction fuel as [|fuel IH]; intros content offset Hoff Hfuel.
  - simpl in Hfuel. lia.
  - cbn [chunksFrom].
    destruct (Z.leb_spec (byteLength content) offset) as [|_]; [lia|].
    destruct (Z.le_gt_cases (byteLength content) (offset + chunkSize))
      as [Hlast|Hmore].
    + exists [], (drop (Z.to_nat offset) content).
      rewrite slice_last by lia.
      assert (chunksFrom fuel content (offset + chunkSize) = []) as ->.
      { destruct fuel; [reflexivity|]. cbn [chunksFrom].
        destruct (Z.leb_spec (byteLength content) (offset + chunkSize));
          [reflexivity | lia]. }
      cbn [app concat]. rewrite app_nil_r.
      assert (total [] = 0) as -> by reflexivity.
      repeat split; try lia.
      unfold byteLength in *. rewrite length_drop. lia.
    + destruct (IH content (offset + chunkSize)) as (fs & last & E & Hc & Hl & Hg);
        [lia | lia |].
      exists (take (Z.to_nat chunkSize) (drop (Z.to_nat offset) content) :: fs),
        last.
      rewrite slice_inner by lia. rewrite E. repeat split.
      * cbn [app concat]. rewrite Hc.
        rewrite Z2Nat.inj_add by lia.
        rewrite <- (drop_drop content (Z.to_nat chunkSize) (Z.to_nat offset)).
        apply take_drop.
      * rewrite total_cons. unfold byteLength at 1.
        rewrite length_take_le
          by (rewrite length_drop; unfold byteLength in *; lia).
        lia.
      * rewrite total_cons. unfold byteLength at 2.
        rewrite length_take_le
          by (rewrite length_drop; unfold byteLength in *; lia).
        lia.
Qed.

(** With the channel open throughout and enough iterations, the closure
    reaches completion and the binary frames it sent are the chunks. *)
Lemma sendNextChunk_completes (fuel : nat) :
  forall (env : transport) (file : File) (t : nat) (offset : Z)
         (ch : RTCDataChannel),
    always_open env -> is_open ch = true ->
    (0 < fuel)%nat ->
    file_size file - offset <= chunkSize * (Z.of_nat fuel - 1) ->
    let '(ch', out, res) := sendNextChunk fuel env file t offset ch in
    res = SendCompleted
    /\ is_open ch' = true
    /\ framesSent out = map Binary (chunksFrom fuel (file_content file) offset).
Proof.
  pose proof chunkSize_pos as Hcs.
  induction fuel as [|fuel IH]; intros env file t offset ch Henv Hch Hpos Hfuel.
  - lia.
  - rewrite sendNextChunk_S. cbn [chunksFrom]. fold (file_size file).
    destruct (Z.leb_spec (file_size file) offset) as [Hdone|Hmore].
    { repeat split. exact Hch. }
    cbv zeta. rewrite (suspend_open env t ch Henv Hch). cbn [negb].
    assert (Hf : (0 < fuel)%nat) by lia.
    destruct (_ <? highWaterMark).
    + specialize (IH env file (S t) (offset + chunkSize)
        (channel_send (suspend (env t) ch)
           (byteLength (slice (file_content file) offset (offset + chunkSize))))
        Henv).
      destruct (sendNextChunk fuel env file (S t) _ _) as [[ch3 out] res].
      destruct IH as (Hr & Ho & Hfr); try lia.
      { rewrite channel_send_open. now apply suspend_open. }
      repeat split; [exact Hr | exact Ho |]. cbn [framesSent map].
      now rewrite Hfr.
    + specialize (IH env file (S (S t)) (offset + chunkSize)
        (suspend (env (S t))
          (channel_send (suspend (env t) ch)
            (byteLength (slice (file_content file) offset (offset + chunkSize)))))
        Henv).
      destruct (sendNextChunk fuel env file (S (S t)) _ _) as [[ch3 out] res].
      destruct IH as (Hr & Ho & Hfr); try lia.
      { apply suspend_open; [exact Henv|].
        rewrite channel_send_open. now apply suspend_open. }
      repeat split; [exact Hr | exact Ho |]. cbn [framesSent map].
      now rewrite Hfr.
Qed.

Lemma iterations_enough (file : File) :
  (0 < iterations file)%nat
  /\ file_size file - 0 <= chunkSize * (Z.of_nat (iterations file) - 1).
Proof.
  unfold iterations. split; [lia|].
  assert (0 <= file_size file) by apply byteLength_nonneg.
  pose proof chunkSize_pos.
  rewrite Nat2Z.inj_succ, Z2Nat.id
    by (apply Z.div_pos; lia).
  pose proof (Z.mul_div_le (file_size file + chunkSize - 1) chunkSize).
  pose proof (Z.mod_pos_bound (file_size file + chunkSize - 1) chunkSize).
  pose proof (Z.div_mod (file_size file + chunkSize - 1) chunkSize).
  lia.
Qed.


(** *** Progress values *)

(** [Math.min(100, (done / size) * 100)], the expression of both paths. *)
Definition percent (done size : Z) : jsnum :=
  min100 (times100 (Js.div done size)).

(** Consecutive values never decrease. *)
Fixpoint nondecreasing (l : list jsnum) : Prop :=
  match l with
  | [] => True
  | x :: rest =>
      match rest with
      | [] => True
      | y :: _ => Js.le x y
      end /\ nondecreasing rest
  end.

Lemma percent_num (done size : Z) :
  0 < size ->
  percent done size = Num (Qmin 100 (inject_Z done / inject_Z size * 100)).
Proof.
  intros Hs. unfold percent, Js.div.
  destruct (Z.eqb_spec size 0); [lia | reflexivity].
Qed.

Lemma percent_mono (a b size : Z) :
  0 < size -> a <= b -> Js.le (percent a size) (percent b size).
Proof.
  intros Hs Hab. rewrite !percent_num by exact Hs. simpl.
  apply Q.min_le_compat_l. apply Qmult_le_compat_r; [|discriminate].
  unfold Qdiv. apply Qmult_le_compat_r.
  - now rewrite <- Zle_Qle.
  - apply Qinv_le_0_compat. change 0%Q with (inject_Z 0).
    rewrite <- Zle_Qle. lia.
Qed.

Lemma percent_le_100 (a size : Z) :
  0 < size -> Js.le (percent a size) (Num 100).
Proof.
  intros Hs. rewrite percent_num by exact Hs. simpl. apply Q.le_min_l.
Qed.

Lemma percent_zero (size : Z) :
  0 < size -> Js.le (Num 0) (percent 0 size).
Proof.
  intros Hs. rewrite percent_num by exact Hs. simpl.
  apply Q.min_glb; [discriminate|].
  unfold Qdiv. rewrite Qmult_0_l. rewrite Qmult_0_l. apply Qle_refl.
Qed.

Lemma percent_full (done size : Z) :
  0 < size -> size <= done -> is100 (percent done size).
Proof.
  intros Hs Hd. rewrite percent_num by exact Hs. simpl.
  apply Q.min_l.
  apply Qle_trans with (1 * 100)%Q; [discriminate|].
  apply Qmult_le_compat_r; [|discriminate].
  apply Qle_shift_div_l.
  - change 0%Q with (inject_Z 0). rewrite <- Zlt_Qlt. exact Hs.
  - rewrite Qmult_1_l. now rewrite <- Zle_Qle.
Qed.

Lemma le_trans (x y z : jsnum) : Js.le x y -> Js.le y z -> Js.le x z.
Proof.
  destruct x, y, z; simpl; try tauto. apply Qle_trans.
Qed.

Lemma nondecreasing_cons (x y : jsnum) (l : list jsnum) :
  Js.le x y -> nondecreasing (y :: l) -> nondecreasing (x :: y :: l).
Proof. intros Hxy Hl. split; assumption. Qed.

Lemma nondecreasing_tail (x : jsnum) (l : list jsnum) :
  nondecreasing (x :: l) -> nondecreasing l.
Proof. intros [_ H]. exact H. Qed.

Lemma nondecreasing_lower (x y : jsnum) (l : list jsnum) :
  Js.le x y -> nondecreasing (y :: l) -> nondecreasing (x :: l).
Proof.
  intros Hxy [Hh Ht]. split; [|exact Ht].
  destruct l as [|z l]; [exact I|]. now apply le_trans with y.
Qed.

(** The values reported by the closure from [offset] on never decrease,
    start at or above the percentage of [offset], and end with the literal
    100 of completion. *)
Lemma sendNextChunk_progress (fuel : nat) :
  forall (env : transport) (file : File) (t : nat) (offset : Z)
         (ch : RTCDataChannel),
    always_open env -> is_open ch = true ->
    0 < file_size file ->
    (0 < fuel)%nat ->
    file_size file - offset <= chunkSize * (Z.of_nat fuel - 1) ->
    let '(ch', out, res) := sendNextChunk fuel env file t offset ch in
    nondecreasing (percent offset (file_size file) :: progressValues out)
    /\ last (progressValues out) = Some (Num 100).
Proof.
  pose proof chunkSize_pos as Hcs.
  induction fuel as [|fuel IH];
    intros env file t offset ch Henv Hch Hsize Hpos Hfuel.
  - lia.
  - rewrite sendNextChunk_S.
    destruct (Z.leb_spec (file_size file) offset) as [Hdone|Hmore].
    { split; [|reflexivity]. cbn [progressValues].
      split; [|split; exact I]. now apply percent_le_100. }
    cbv zeta. rewrite (suspend_open env t ch Henv Hch). cbn [negb].
    assert (Hf : (0 < fuel)%nat) by lia.
    fold (percent (offset + chunkSize) (file_size file)).
    assert (Hstep : Js.le (percent offset (file_size file))
                          (percent (offset + chunkSize) (file_size file)))
      by (apply percent_mono; lia).
    destruct (_ <? highWaterMark).
    + specialize (IH env file (S t) (offset + chunkSize)
        (channel_send (suspend (env t) ch)
           (byteLength (slice (file_content file) offset (offset + chunkSize))))
        Henv).
      destruct (sendNextChunk fuel env file (S t) _ _) as [[ch3 out] res].
      destruct IH as (Hn & Hl); try lia.
      { rewrite channel_send_open. now apply suspend_open. }
      cbn [progressValues]. split; [now apply nondecreasing_cons|].
      destruct (progressValues out); [discriminate Hl | exact Hl].
    + specialize (IH env file (S (S t)) (offset + chunkSize)
        (suspend (env (S t))
          (channel_send (suspend (env t) ch)
            (byteLength (slice (file_content file) offset (offset + chunkSize)))))
        Henv).
      destruct (sendNextChunk fuel env file (S (S t)) _ _) as [[ch3 out] res].
      destruct IH as (Hn & Hl); try lia.
      { apply suspend_open; [exact Henv|].
        rewrite channel_send_open. now apply suspend_open. }
      cbn [progressValues]. split; [now apply nondecreasing_cons|].
      destruct (progressValues out); [discriminate Hl | exact Hl].
Qed.

(** Binary frames received while a positive size is expected report values
    that never decrease, starting at or above the percentage already
    received. *)
Lemma receive_progress (fs : list bytes) :
  forall m : WebRTCManager,
    0 < expectedSize m ->
    nondecreasing
      (percent (receivedSize m) (expectedSize m)
         :: progressValues (snd (receive m (map Binary fs)))).
Proof.
  induction fs as [|f fs IH]; intros m Hs.
  - simpl. split; exact I.
  - cbn [map receive].
    pose proof (byteLength_nonneg f) as Hf.
    assert (Hstep : Js.le (percent (receivedSize m) (expectedSize m))
              (percent (receivedSize m + byteLength f) (expectedSize m)))
      by (apply percent_mono; lia).
    destruct (Z.le_gt_cases (expectedSize m) (receivedSize m + byteLength f))
      as [Hc|Hp].
    + rewrite handle_binary_complete by exact Hc.
      specialize (IH (set_receiveBuffer []
        (set_receivedSize (receivedSize m + byteLength f)
           (set_receiveBuffer (receiveBuffer m ++ [f]) m))) Hs).
      destruct (receive _ (map Binary fs)) as [m' out].
      cbn [snd app progressValues] in *. now apply nondecreasing_cons.
    + rewrite handle_binary_pending by lia.
      specialize (IH (set_receivedSize (receivedSize m + byteLength f)
           (set_receiveBuffer (receiveBuffer m ++ [f]) m)) Hs).
      destruct (receive _ (map Binary fs)) as [m' out].
      cbn [snd app progressValues] in *. now apply nondecreasing_cons.
Qed.


(** Whatever the transport does, the closure settles within the budget of
    iterations: it completes or stops on a channel that is no longer open. *)
Lemma sendNextChunk_settles (fuel : nat) :
  forall (env : transport) (file : File) (t : nat) (offset : Z)
         (ch : RTCDataChannel),
    (0 < fuel)%nat ->
    file_size file - offset <= chunkSize * (Z.of_nat fuel - 1) ->
    let '(_, _, res) := sendNextChunk fuel env file t offset ch in
    res = SendCompleted \/ res = SendAborted.
Proof.
  pose proof chunkSize_pos as Hcs.
  induction fuel as [|fuel IH]; intros env file t offset ch Hpos Hfuel.
  - lia.
  - rewrite sendNextChunk_S.
    destruct (Z.leb_spec (file_size file) offset) as [Hdone|Hmore];
      [now left|].
    cbv zeta. destruct (negb _); [now right|].
    destruct (_ <? highWaterMark).
    + specialize (IH env file (S t) (offset + chunkSize)
        (channel_send (suspend (env t) ch)
           (byteLength (slice (file_content file) offset
                          (offset + chunkSize))))).
      destruct (sendNextChunk fuel env file (S t) _ _) as [[ch3 out] res].
      apply IH; lia.
    + specialize (IH env file (S (S t)) (offset + chunkSize)
        (suspend (env (S t))
          (channel_send (suspend (env t) ch)
            (byteLength (slice (file_content file) offset
                           (offset + chunkSize)))))).
      destruct (sendNextChunk fuel env file (S (S t)) _ _) as [[ch3 out] res].
      apply IH; lia.
Qed.

(** [sendFile] always settles: not ready, completed, or stopped on a closed
    channel. *)
Lemma sendFile_settles (m : WebRTCManager) (file : File) (metadataLength : Z)
    (env : transport) :
  snd (sendFile m file metadataLength env) <> SendRunning.
Proof.
  unfold sendFile. destruct (dataChannel m) as [ch|]; [|discriminate].
  destruct (negb (is_open ch)); [discriminate|].
  destruct (iterations_enough file) as [Hit Hfuel].
  pose proof (sendNextChunk_settles (iterations file) env file 0%nat 0
    (channel_send ch metadataLength) Hit Hfuel) as H.
  destruct (sendNextChunk (iterations file) env file 0 0 _) as [[ch' out] res].
  cbn [snd]. destruct H as [-> | ->]; discriminate.
Qed.

Lemma receive_pending (fs : list bytes) :
  forall m : WebRTCManager,
    receivedSize m + total fs < expectedSize m ->
    fst (receive m (map Binary fs)) =
      set_receivedSize (receivedSize m + total fs)
        (set_receiveBuffer (receiveBuffer m ++ fs) m)
    /\ filesReceived (snd (receive m (map Binary fs))) = [].
Proof.
  induction fs as [|f fs IH]; intros m Hlt.
  - simpl. split; [|reflexivity].
    assert (total [] = 0) as -> by reflexivity.
    rewrite Z.add_0_r, app_nil_r. now destruct m.
  - rewrite total_cons in Hlt. pose proof (total_nonneg fs).
    cbn [map receive]. rewrite handle_binary_pending by lia.
    specialize (IH (set_receivedSize (receivedSize m + byteLength f)
                      (set_receiveBuffer (receiveBuffer m ++ [f]) m))).
    destruct (receive _ (map Binary fs)) as [m' out].
    cbn [fst snd] in *. destruct IH as [Hm Hf]; [simpl; lia|].
    split; [|exact Hf]. rewrite Hm, total_cons.
    destruct m; unfold set_receivedSize, set_receiveBuffer; simpl.
    rewrite <- app_assoc. f_equal. lia.
Qed.

(** *** The transfer end to end *)

(** A file with at least one byte, sent over a channel that stays open and
    delivered in order, comes out of the receiver once, byte for byte, under
    its name and type, whatever state the receiver was in. *)
Theorem sendFile_delivers_nonempty_file (ms : WebRTCManager)
    (ch : RTCDataChannel) (file : File) (metadataLength : Z)
    (env : transport) (mr : WebRTCManager) :
  dataChannel ms = Some ch -> is_open ch = true -> always_open env ->
  0 < file_size file ->
  let '(_, out, res) := sendFile ms file metadataLength env in
  res = SendCompleted
  /\ filesReceived (snd (receive mr (framesSent out))) =
       [({| blob_data := file_content file; blob_type := file_type file |},
         file_name file)]
  /\ errorsReported (snd (receive mr (framesSent out))) = [].
Proof.
  intros Hdc Hopen Henv Hsize. unfold sendFile. rewrite Hdc, Hopen. cbn [negb].
  destruct (iterations_enough file) as [Hit Hfuel].
  pose proof (sendNextChunk_completes (iterations file) env file 0%nat 0
    (channel_send ch metadataLength) Henv Hopen Hit Hfuel) as Hs.
  destruct (sendNextChunk (iterations file) env file 0 0 _) as [[ch' out] res].
  destruct Hs as (Hres & _ & Hfr).
  split; [exact Hres|]. cbn [framesSent]. rewrite Hfr.
  destruct (chunksFrom_shape (iterations file) (file_content file) 0)
    as (fs & lst & E & Hc & Hl & Hg).
  { unfold file_size in Hsize. lia. }
  { unfold file_size, chunkSize in *. lia. }
  rewrite E.
  pose proof (receive_transfer mr (file_name file) (file_size file)
    (file_type file) fs lst) as H.
  cbv zeta in H. unfold file_size in *.
  destruct H as (Hf & He); [lia | lia |].
  rewrite Hf, He, Hc. split; reflexivity.
Qed.

Definition open_channel : RTCDataChannel :=
  {| readyState := open; bufferedAmount := 0 |}.

(** A manager whose data channel is open, as after the connection is
    established. *)
Definition connected_manager : WebRTCManager :=
  set_dataChannel (Some open_channel) new_manager.

(** A transport that flushes everything at each suspension and keeps the
    channel open. *)
Definition fast_transport : transport :=
  fun _ => {| drained := highWaterMark; stays_open := true |}.

(** A transport that flushes nothing and keeps the channel open. *)
Definition stalled_transport : transport :=
  fun _ => {| drained := 0; stays_open := true |}.

Definition a_txt : File :=
  {| file_name := "a.txt"; file_type := "text/plain";
     file_content := five_bytes |}.

Lemma sendFile_delivers_nonempty_file_witness :
  filesReceived
    (snd (receive new_manager
       (framesSent (snd (fst (sendFile connected_manager a_txt 63
                                fast_transport)))))) =
  [({| blob_data := five_bytes; blob_type := "text/plain" |}, "a.txt"%string)].
Proof.
  pose proof (sendFile_delivers_nonempty_file connected_manager open_channel
    a_txt 63 fast_transport new_manager eq_refl eq_refl
    (fun _ => eq_refl) eq_refl) as H.
  destruct (sendFile connected_manager a_txt 63 fast_transport)
    as [[m out] res].
  exact (proj1 (proj2 H)).
Defined.

(** C1 at the input where the code departs from it.  For an empty file the
    sender puts the metadata frame on the channel and reports completion
    without sending any binary frame; the receiver, which tests for
    completion only when a binary frame arrives, hands over no artifact. *)
Theorem empty_file_is_never_delivered (ms : WebRTCManager)
    (ch : RTCDataChannel) (name mime : string) (metadataLength : Z)
    (env : transport) (mr : WebRTCManager) :
  dataChannel ms = Some ch -> is_open ch = true ->
  let file := {| file_name := name; file_type := mime; file_content := [] |} in
  let '(_, out, res) := sendFile ms file metadataLength env in
  res = SendCompleted
  /\ framesSent out = [Text (Metadata name 0 mime)]
  /\ filesReceived (snd (receive mr (framesSent out))) = [].
Proof.
  intros Hdc Hopen file. unfold sendFile. rewrite Hdc, Hopen. cbn [negb].
  unfold iterations. rewrite sendNextChunk_S. cbn. repeat split.
Qed.

Lemma empty_file_is_never_delivered_witness :
  filesReceived
    (snd (receive new_manager
       (framesSent (snd (fst (sendFile connected_manager
          {| file_name := "empty.txt"; file_type := "text/plain";
             file_content := [] |} 67 fast_transport)))))) = [].
Proof.
  pose proof (empty_file_is_never_delivered connected_manager open_channel
    "empty.txt" "text/plain" 67 fast_transport new_manager eq_refl eq_refl)
    as H.
  cbv zeta in H.
  destruct (sendFile connected_manager _ 67 fast_transport) as [[m out] res].
  exact (proj2 (proj2 H)).
Defined.

(** The values reported while sending never decrease and end with exactly
    100, for every file, when the channel stays open. *)
Theorem sendFile_progress (ms : WebRTCManager) (ch : RTCDataChannel)
    (file : File) (metadataLength : Z) (env : transport) :
  dataChannel ms = Some ch -> is_open ch = true -> always_open env ->
  let '(_, out, res) := sendFile ms file metadataLength env in
  res = SendCompleted
  /\ nondecreasing (progressValues out)
  /\ last (progressValues out) = Some (Num 100).
Proof.
  intros Hdc Hopen Henv. unfold sendFile. rewrite Hdc, Hopen. cbn [negb].
  destruct (iterations_enough file) as [Hit Hfuel].
  pose proof (sendNextChunk_completes (iterations file) env file 0%nat 0
    (channel_send ch metadataLength) Henv Hopen Hit Hfuel) as Hs.
  destruct (Z.eq_dec (file_size file) 0) as [Hz|Hnz].
  - clear Hs. unfold iterations. rewrite sendNextChunk_S.
    destruct (Z.leb_spec (file_size file) 0); [|lia].
    cbn [progressValues]. repeat split.
  - assert (Hsize : 0 < file_size file)
      by (pose proof (byteLength_nonneg (file_content file));
          unfold file_size in *; lia).
    pose proof (sendNextChunk_progress (iterations file) env file 0%nat 0
      (channel_send ch metadataLength) Henv Hopen Hsize Hit Hfuel) as Hp.
    destruct (sendNextChunk (iterations file) env file 0 0 _)
      as [[ch' out] res].
    destruct Hs as (Hres & _ & _). destruct Hp as [Hn Hl].
    cbn [progressValues]. split; [exact Hres|].
    split; [now apply nondecreasing_tail in Hn | exact Hl].
Qed.

(** The values reported while receiving a transfer of positive declared
    size never decrease and end with exactly 100, reported by the frame that
    brings the byte count to the declared size. *)
Theorem receive_progress_reaches_100 (m : WebRTCManager) (name : string)
    (size : Z) (mime : string) (fs : list bytes) (lst : bytes) :
  total fs < size ->
  size <= total fs + byteLength lst ->
  let vals :=
    progressValues
      (snd (receive m (Text (Metadata name size mime)
                         :: map Binary (fs ++ [lst])))) in
  nondecreasing vals /\ exists p, last vals = Some p /\ is100 p.
Proof.
  intros Hlt Hge vals. subst vals. pose proof (total_nonneg fs) as Hnn.
  cbn [receive]. rewrite handle_metadata.
  set (m0 := set_receivedSize 0
               (set_receiveBuffer [] (set_expected size name mime m))).
  pose proof (receive_progress (fs ++ [lst]) m0) as Hmono.
  rewrite map_app in *. rewrite receive_app in *.
  destruct (receive_pending fs m0) as [Hm _]; [simpl; lia|].
  destruct (receive m0 (map Binary fs)) as [m1 o1]. cbn [fst] in Hm.
  cbn [map receive] in *.
  rewrite handle_binary_complete in * by (rewrite Hm; simpl; lia).
  cbn [snd app] in *. split.
  - cbn [progressValues].
    apply nondecreasing_lower with (percent 0 size).
    + apply percent_zero. lia.
    + apply Hmono. simpl. lia.
  - exists (percent (receivedSize m1 + byteLength lst) (expectedSize m1)).
    split.
    + cbn [progressValues]. rewrite progressValues_app.
      cbn [progressValues]. rewrite app_comm_cons. apply last_snoc.
    + rewrite Hm. simpl. apply percent_full; lia.
Qed.

(** C5 at the input where the code departs from it.  For an empty file the
    sender reports 100 at once, but on the receiving side the only value
    reported is the 0 of the metadata frame: the received byte count equals
    the declared size (both 0) and 100 is never reported. *)
Theorem empty_file_progress_stays_at_zero (ms : WebRTCManager)
    (ch : RTCDataChannel) (name mime : string) (metadataLength : Z)
    (env : transport) (mr : WebRTCManager) :
  dataChannel ms = Some ch -> is_open ch = true ->
  let file := {| file_name := name; file_type := mime; file_content := [] |} in
  let '(_, out, res) := sendFile ms file metadataLength env in
  progressValues out = [Num 100]
  /\ (let '(mr', rout) := receive mr (framesSent out) in
      receivedSize mr' = expectedSize mr'
      /\ expectedSize mr' = file_size file
      /\ progressValues rout = [Num 0]).
Proof.
  intros Hdc Hopen file. unfold sendFile. rewrite Hdc, Hopen. cbn [negb].
  unfold iterations. rewrite sendNextChunk_S. cbn. repeat split.
Qed.

Lemma empty_file_progress_stays_at_zero_witness :
  progressValues
    (snd (receive new_manager
       (framesSent (snd (fst (sendFile connected_manager
          {| file_name := "empty.txt"; file_type := "text/plain";
             file_content := [] |} 67 fast_transport)))))) = [Num 0].
Proof.
  pose proof (empty_file_progress_stays_at_zero connected_manager open_channel
    "empty.txt" "text/plain" 67 fast_transport new_manager eq_refl eq_refl)
    as H.
  cbv zeta in H.
  destruct (sendFile connected_manager _ 67 fast_transport) as [[m out] res].
  destruct H as [_ H]. cbn [fst snd].
  destruct (receive new_manager (framesSent out)) as [mr' rout].
  exact (proj2 (proj2 H)).
Defined.


(** *** Flow control of the send path *)

(** The claim about the moment of sending: every binary frame is handed to
    the channel while its buffered amount is below the mark. *)
Definition sends_only_below_mark (out : list event) : Prop :=
  forall b data, In (ChannelSend b (Binary data)) out -> b < highWaterMark.

(** What follows a send is not a timer. *)
Definition no_timer_first (out : list event) : Prop :=
  forall ms rest, out <> SetTimeout ms :: rest.

(** The flow control as the closure implements it: after a chunk is handed
    to the channel with [b] bytes already buffered, progress is reported,
    and then the next step follows at once when the amount now buffered is
    below the mark, and after exactly one 50 ms timer otherwise. *)
Definition paced_after (b : Z) (data : bytes) (rest : list event) : Prop :=
  exists p rest',
    rest = Progress p "sending" :: rest'
    /\ if b + byteLength data <? highWaterMark
       then no_timer_first rest'
       else exists rest'', rest' = SetTimeout 50 :: rest''
                           /\ no_timer_first rest''.

Lemma sendNextChunk_no_timer_first (fuel : nat) (env : transport)
    (file : File) (t : nat) (offset : Z) (ch : RTCDataChannel) :
  no_timer_first (snd (fst (sendNextChunk fuel env file t offset ch))).
Proof.
  intros ms rest. destruct fuel as [|fuel]; [discriminate|].
  rewrite sendNextChunk_S.
  destruct (_ <=? _); [discriminate|]. cbv zeta.
  destruct (negb _); [discriminate|].
  destruct (_ <? highWaterMark).
  - destruct (sendNextChunk fuel env file (S t) _ _) as [[? ?] ?].
    discriminate.
  - destruct (sendNextChunk fuel env file (S (S t)) _ _) as [[? ?] ?].
    discriminate.
Qed.

Lemma sendNextChunk_paced (fuel : nat) :
  forall (env : transport) (file : File) (t : nat) (offset : Z)
         (ch : RTCDataChannel) (pre : list event) (b : Z) (data : bytes)
         (rest : list event),
    snd (fst (sendNextChunk fuel env file t offset ch)) =
      pre ++ ChannelSend b (Binary data) :: rest ->
    paced_after b data rest.
Proof.
  induction fuel as [|fuel IH]; intros env file t offset ch pre b data rest.
  - destruct pre; discriminate.
  - rewrite sendNextChunk_S.
    destruct (_ <=? _).
    { destruct pre as [|e [|e' pre]]; discriminate. }
    cbv zeta.
    destruct (negb _).
    { destruct pre; discriminate. }
    destruct (bufferedAmount _ <? highWaterMark) eqn:Hmark.
    + pose proof (sendNextChunk_no_timer_first fuel env file (S t)
        (offset + chunkSize)
        (channel_send (suspend (env t) ch)
           (byteLength (slice (file_content file) offset (offset + chunkSize)))))
        as Hnt.
      specialize (IH env file (S t) (offset + chunkSize)
        (channel_send (suspend (env t) ch)
           (byteLength (slice (file_content file) offset (offset + chunkSize))))).
      destruct (sendNextChunk fuel env file (S t) _ _) as [[ch3 out] res].
      cbn [fst snd] in *.
      destruct pre as [|e1 pre]; cbn [app]; intros E.
      * injection E as Eb Ed Er. subst b data rest.
        eexists _, out. split; [reflexivity|].
        cbn [channel_send suspend bufferedAmount] in Hmark |- *. rewrite Hmark. exact Hnt.
      * injection E as _ E. destruct pre as [|e2 pre]; [discriminate E|].
        injection E as _ E. now apply (IH pre).
    + pose proof (sendNextChunk_no_timer_first fuel env file (S (S t))
        (offset + chunkSize)
        (suspend (env (S t))
          (channel_send (suspend (env t) ch)
            (byteLength (slice (file_content file) offset
                           (offset + chunkSize)))))) as Hnt.
      specialize (IH env file (S (S t)) (offset + chunkSize)
        (suspend (env (S t))
          (channel_send (suspend (env t) ch)
            (byteLength (slice (file_content file) offset
                           (offset + chunkSize)))))).
      destruct (sendNextChunk fuel env file (S (S t)) _ _) as [[ch3 out] res].
      cbn [fst snd] in *.
      destruct pre as [|e1 pre]; cbn [app]; intros E.
      * injection E as Eb Ed Er. subst b data rest.
        eexists _, _. split; [reflexivity|].
        cbn [channel_send suspend bufferedAmount] in Hmark |- *. rewrite Hmark.
        exists out. split; [reflexivity | exact Hnt].
      * injection E as _ E. destruct pre as [|e2 pre]; [discriminate E|].
        injection E as _ E. destruct pre as [|e3 pre]; [discriminate E|].
        injection E as _ E. now apply (IH pre).
Qed.

(** A two-chunk file: one full chunk and one more byte. *)
Definition two_chunk_file : File :=
  {| file_name := "big.bin"; file_type := "application/octet-stream";
     file_content := repeat x00 (Z.to_nat (chunkSize + 1)) |}.

(** A manager whose open channel still holds 1 MiB less 100 bytes of
    earlier traffic (the metadata string of [two_chunk_file] takes 83
    bytes more). *)
Definition busy_manager : WebRTCManager :=
  set_dataChannel
    (Some {| readyState := open; bufferedAmount := highWaterMark - 100 |})
    new_manager.

(** A transport that flushes nothing and keeps the channel open. *)
Definition stalled (env : transport) : Prop :=
  forall t, drained (env t) <= 0 /\ stays_open (env t) = true.

Lemma suspend_stalled (env : transport) (t : nat) (ch : RTCDataChannel) :
  stalled env -> is_open ch = true -> 0 <= bufferedAmount ch ->
  suspend (env t) ch = ch.
Proof.
  intros Henv Hopen Hb. destruct (Henv t) as [Hd Hs].
  destruct ch as [st b]. unfold suspend, is_open in *. cbn in *.
  rewrite Hs. destruct st; try discriminate Hopen. f_equal. lia.
Qed.

(** C8.  The flow control misses the moment the timer fires.  For every file
    of more than one chunk, on an open channel whose buffered amount reaches
    1 MiB with the first chunk and which the transport does not flush, the
    sender sets the 50 ms timer after the first chunk and, when it fires,
    hands the second chunk to the channel with 1 MiB or more buffered:
    [bufferedAmount] is read after a send only, never before one. *)
Theorem chunk_sent_above_mark (m : WebRTCManager) (ch : RTCDataChannel)
    (file : File) (metadataLength : Z) (env : transport) :
  dataChannel m = Some ch -> is_open ch = true -> stalled env ->
  0 <= bufferedAmount ch -> 0 <= metadataLength ->
  chunkSize < file_size file ->
  highWaterMark <= bufferedAmount ch + metadataLength + chunkSize ->
  let out := snd (fst (sendFile m file metadataLength env)) in
  (exists pre data rest,
     out = pre ++ SetTimeout 50
                 :: ChannelSend (bufferedAmount ch + metadataLength + chunkSize)
                      (Binary data)
                 :: rest)
  /\ ~ sends_only_below_mark out.
Proof.
  intros Hdc Hopen Henv Hb Hml Hsize Hmark out.
  assert (Hshape : exists pre data rest,
     out = pre ++ SetTimeout 50
                 :: ChannelSend (bufferedAmount ch + metadataLength + chunkSize)
                      (Binary data)
                 :: rest).
  { subst out. unfold sendFile. rewrite Hdc, Hopen. cbn [negb].
    assert (Hit : exists n, iterations file = S (S (S n))).
    { unfold iterations.
      assert (2 <= (file_size file + chunkSize - 1) / chunkSize).
      { apply Z.div_le_lower_bound; unfold chunkSize in *; lia. }
      exists (Z.to_nat ((file_size file + chunkSize - 1) / chunkSize) - 2)%nat.
      lia. }
    destruct Hit as [n ->].
    set (ch0 := channel_send ch metadataLength).
    assert (Hopen0 : is_open ch0 = true)
      by (unfold ch0; now rewrite channel_send_open).
    assert (Hb0 : 0 <= bufferedAmount ch0) by (cbn; lia).
    rewrite sendNextChunk_S.
    destruct (Z.leb_spec (file_size file) 0) as [|_];
      [unfold chunkSize in *; lia|].
    cbv zeta. rewrite (suspend_stalled env 0 ch0 Henv Hopen0 Hb0).
    rewrite Hopen0. cbn [negb].
    set (data1 := slice (file_content file) 0 (0 + chunkSize)).
    assert (Hlen : byteLength data1 = chunkSize).
    { subst data1. unfold file_size in *.
      rewrite slice_inner by (unfold chunkSize in *; lia).
      unfold byteLength in *.
      rewrite length_take_le
        by (rewrite length_drop; unfold chunkSize in *; lia).
      unfold chunkSize. lia. }
    set (ch2 := channel_send ch0 (byteLength data1)).
    assert (Hopen2 : is_open ch2 = true)
      by (unfold ch2; now rewrite channel_send_open).
    assert (Hb2 : bufferedAmount ch2 =
                  bufferedAmount ch + metadataLength + chunkSize)
      by (cbn; lia).
    destruct (Z.ltb_spec (bufferedAmount ch2) highWaterMark) as [|_]; [lia|].
    rewrite (suspend_stalled env 1 ch2 Henv Hopen2)
      by (unfold chunkSize in *; lia).
    rewrite sendNextChunk_S.
    destruct (Z.leb_spec (file_size file) (0 + chunkSize)) as [|_]; [lia|].
    cbv zeta. rewrite (suspend_stalled env 2 ch2 Henv Hopen2)
      by (unfold chunkSize in *; lia).
    rewrite Hopen2. cbn [negb]. rewrite Hb2.
    set (data2 := slice (file_content file) (0 + chunkSize)
                    (0 + chunkSize + chunkSize)).
    destruct (_ <? highWaterMark).
    - destruct (sendNextChunk _ env file _ _ _) as [[ch5 out5] res5].
      eexists [_; _; _], data2, _. reflexivity.
    - destruct (sendNextChunk _ env file _ _ _) as [[ch5 out5] res5].
      eexists [_; _; _], data2, _. reflexivity. }
  split; [exact Hshape|].
  destruct Hshape as (pre & data & rest & E). intros Hbelow.
  specialize (Hbelow (bufferedAmount ch + metadataLength + chunkSize) data).
  rewrite E in Hbelow.
  assert (bufferedAmount ch + metadataLength + chunkSize < highWaterMark);
    [|lia].
  apply Hbelow, in_or_app. right. right. left. reflexivity.
Qed.

Lemma chunk_sent_above_mark_witness :
  ~ sends_only_below_mark
      (snd (fst (sendFile busy_manager two_chunk_file 83 stalled_transport))).
Proof.
  apply (chunk_sent_above_mark busy_manager
           {| readyState := open; bufferedAmount := highWaterMark - 100 |}
           two_chunk_file 83 stalled_transport).
  - reflexivity.
  - reflexivity.
  - intros t. cbn. split; [lia | reflexivity].
  - cbn. unfold highWaterMark. lia.
  - lia.
  - vm_compute. reflexivity.
  - vm_compute. discriminate.
Defined.

(** X20: the pause the flow control makes.  After each chunk handed to the
    channel the sender reports progress and reads [bufferedAmount] once:
    below 1 MiB the next step follows without a timer, at or above 1 MiB it
    is scheduled by exactly one 50 ms timer, so the caller is never
    blocked. *)
Theorem sendFile_paces_after_each_chunk (m : WebRTCManager) (file : File)
    (metadataLength : Z) (env : transport) (pre : list event) (b : Z)
    (data : bytes) (rest : list event) :
  snd (fst (sendFile m file metadataLength env)) =
    pre ++ ChannelSend b (Binary data) :: rest ->
  paced_after b data rest.
Proof.
  unfold sendFile. destruct (dataChannel m) as [ch|].
  2:{ destruct pre as [|e [|e' pre]]; discriminate. }
  destruct (negb (is_open ch)).
  { destruct pre as [|e [|e' pre]]; discriminate. }
  pose proof (sendNextChunk_paced (iterations file) env file 0%nat 0
    (channel_send ch metadataLength)) as H.
  destruct (sendNextChunk (iterations file) env file 0 0 _) as [[ch' out] res].
  cbn [fst snd] in *. destruct pre as [|e pre]; cbn [app]; intros E.
  - discriminate E.
  - injection E as _ E. now apply (H pre).
Qed.

Lemma sendFile_paces_after_each_chunk_witness :
  paced_after (highWaterMark - 17)
    (repeat x00 (Z.to_nat chunkSize))
    [Progress (Num (Qmin 100 (inject_Z 16384 / inject_Z 16385 * 100)))
       "sending";
     SetTimeout 50;
     ChannelSend (highWaterMark - 17 + chunkSize) (Binary [x00]);
     Progress (Num (Qmin 100 (inject_Z 32768 / inject_Z 16385 * 100)))
       "sending";
     SetTimeout 50;
     Progress (Num 100) "completed"].
Proof.
  apply (sendFile_paces_after_each_chunk busy_manager two_chunk_file 83
           stalled_transport
           [ChannelSend (highWaterMark - 100)
              (Text (Metadata "big.bin" 16385 "application/octet-stream"))]).
  vm_compute. reflexivity.
Defined.


(** *** The relay [signal] listener and the pending-candidate queue *)

(** The connectivity agent behind [peerConnection]: which remote and local
    descriptions and which candidates it accepts in a given state (a
    rejected promise otherwise), and the offer and the answer it
    produces. *)
Record agent : Type := {
  accepts_remote : RTCPeerConnection -> RTCSessionDescription -> bool;
  accepts_local : RTCPeerConnection -> RTCSessionDescription -> bool;
  accepts_candidate : RTCPeerConnection -> RTCIceCandidateInit -> bool;
  create_offer : RTCPeerConnection -> option string;
  create_answer : RTCPeerConnection -> option string
}.

(** [new RTCIceCandidate(init)] throws a [TypeError] when [sdpMid] and
    [sdpMLineIndex] are both missing. *)
Definition constructible (c : RTCIceCandidateInit) : bool :=
  match sdpMid c, sdpMLineIndex c with
  | None, None => false
  | _, _ => true
  end.

(** The asynchronous operations of the peer connection the class awaits. *)
Inductive operation : Type :=
  | SetRemoteDescription (d : RTCSessionDescription)
  | AddIceCandidate (c : RTCIceCandidateInit)
  | CreateOffer
  | CreateAnswer
  | SetLocalDescription (d : RTCSessionDescription).

(** What an operation does to the connection when it runs, and the SDP its
    promise resolves to, if any; [None]: the promise rejects and the
    connection is left as it was. *)
Definition perform (ag : agent) (pc : RTCPeerConnection) (op : operation)
    : option (RTCPeerConnection * option string) :=
  match op with
  | SetRemoteDescription d =>
      if accepts_remote ag pc d then
        Some ({| remoteDescription := Some d;
                 localDescription := localDescription pc;
                 remoteCandidates := remoteCandidates pc |}, None)
      else None
  | AddIceCandidate c =>
      if accepts_candidate ag pc c then
        Some ({| remoteDescription := remoteDescription pc;
                 localDescription := localDescription pc;
                 remoteCandidates := remoteCandidates pc ++ [c] |}, None)
      else None
  | CreateOffer =>
      match create_offer ag pc with
      | Some sdp => Some (pc, Some sdp)
      | None => None
      end
  | CreateAnswer =>
      match create_answer ag pc with
      | Some sdp => Some (pc, Some sdp)
      | None => None
      end
  | SetLocalDescription d =>
      if accepts_local ag pc d then
        Some ({| remoteDescription := remoteDescription pc;
                 localDescription := Some d;
                 remoteCandidates := remoteCandidates pc |}, None)
      else None
  end.

(** The two listeners below are [async] functions.  socket.io calls a
    listener for each event and does not wait for the promise it returns: a
    call runs up to its first [await], and what remains of it runs when the
    awaited operation has settled.  Other events are handled in between.

    A [continuation] is what remains of a call after the [await] it is
    suspended at. *)
Inductive continuation : Type :=
  (* [signal], offer or answer: after [await setRemoteDescription(...)],
     the [for ... of this.pendingCandidates] loop starts *)
  | StartReplay (ty : RTCSdpType)
  (* inside the loop, after [await addIceCandidate(...)]: the iterator is on
     the array [array] and will read its element [index] next *)
  | NextReplay (ty : RTCSdpType) (array index : nat)
  (* [signal], offer: after [await createAnswer()] *)
  | AnswerCreated
  (* [signal], offer: after [await setLocalDescription(answer)] *)
  | AnswerSet (sdp : option string)
  (* [signal], ice-candidate: after [await addIceCandidate(...)] *)
  | CandidateAdded
  (* [guest-joined]: after [await createOffer()] *)
  | OfferCreated
  (* [guest-joined]: after [await setLocalDescription(offer)] *)
  | OfferSet (sdp : option string).

(** The object together with the calls in flight.  [chain] holds the
    operations that have been called and have not settled yet, each with the
    call that awaits it: the peer connection runs its operations one at a
    time, in the order they were called, so the first one settles first.
    [retired] holds the arrays [pendingCandidates] referred to before it was
    last assigned, oldest first: a loop that was iterating over one of them
    still reads it.  The array the field refers to now has the number
    [length retired], and its elements are the manager's
    [pendingCandidates]. *)
Record world : Type := {
  manager : WebRTCManager;
  retired : list (list RTCIceCandidateInit);
  chain : list (operation * continuation)
}.

(** No call in flight. *)
Definition idle (m : WebRTCManager) : world :=
  {| manager := m; retired := []; chain := [] |}.

Definition set_manager (m : WebRTCManager) (w : world) : world :=
  {| manager := m; retired := retired w; chain := chain w |}.

(** Calling an operation of the peer connection and awaiting it. *)
Definition await (op : operation) (k : continuation) (w : world) : world :=
  {| manager := manager w; retired := retired w;
     chain := chain w ++ [(op, k)] |}.

(** The elements of the array numbered [array]. *)
Definition elements (w : world) (array : nat) : list RTCIceCandidateInit :=
  if (array =? length (retired w))%nat then pendingCandidates (manager w)
  else default [] (retired w !! array).

(** [this.pendingCandidates = []]. *)
Definition clearPending (w : world) : world :=
  {| manager := set_pendingCandidates [] (manager w);
     retired := retired w ++ [pendingCandidates (manager w)];
     chain := chain w |}.

Definition signal_error : event :=
  ConsoleError "[Socket] Signal handling error:".

(** One turn of the loop [for (const candidate of this.pendingCandidates)]
    and what follows the loop.  The iterator reads the array as it is now.
    The loop body throws when the candidate cannot be constructed. *)
Definition replay (ty : RTCSdpType) (array index : nat) (w : world)
    : world * list event :=
  match elements w array !! index with
  | Some c =>
      if constructible c then
        (await (AddIceCandidate c) (NextReplay ty array (S index)) w, [])
      else (w, [signal_error])
  | None =>
      let w1 := clearPending w in
      match ty with
      | offer => (await CreateAnswer AnswerCreated w1, [])
      | answer => (w1, [])
      end
  end.

(** A suspended call runs on, with the value its [await] produced.  The
    listeners are registered on [this.socket], which is assigned in
    [connectSocket] only and never reset: [this.socket!.emit] finds a
    socket. *)
Definition resume (k : continuation) (value : option string) (w : world)
    : world * list event :=
  match k with
  | StartReplay ty => replay ty (length (retired w)) 0 w
  | NextReplay ty array index => replay ty array index w
  | AnswerCreated =>
      (await (SetLocalDescription {| sd_type := answer; sd_sdp := value |})
         (AnswerSet value) w, [])
  | AnswerSet sdp =>
      (w, [SocketEmit
             (EmitSignal (roomCode (manager w))
                {| sig_type := sig_answer; sig_sdp := sdp;
                   sig_candidate := None |})])
  | CandidateAdded => (w, [])
  | OfferCreated =>
      (await (SetLocalDescription {| sd_type := offer; sd_sdp := value |})
         (OfferSet value) w, [])
  | OfferSet sdp =>
      (w, [SocketEmit
             (EmitSignal (roomCode (manager w))
                {| sig_type := sig_offer; sig_sdp := sdp;
                   sig_candidate := None |});
           StatusChange "connecting"])
  end.

(** An awaited promise rejects: inside the [signal] listener the [catch]
    logs the error; the [guest-joined] listener has no [catch]. *)
Definition rejected (k : continuation) : list event :=
  match k with
  | OfferCreated | OfferSet _ => []
  | _ => [signal_error]
  end.

(** The listener registered with [socket.on('signal', ...)], up to its first
    [await]. *)
Definition onSignal (w : world) (data : SignalData) : world * list event :=
  let m := manager w in
  match sig_type data with
  | sig_offer =>
      (await (SetRemoteDescription
                {| sd_type := offer; sd_sdp := sig_sdp data |})
         (StartReplay offer) w, [])
  | sig_answer =>
      (await (SetRemoteDescription
                {| sd_type := answer; sd_sdp := sig_sdp data |})
         (StartReplay answer) w, [])
  | sig_ice_candidate =>
      match sig_candidate data with
      | None => (w, [])
      | Some c =>
          match remoteDescription (peerConnection m) with
          | Some _ =>
              if constructible c then
                (await (AddIceCandidate c) CandidateAdded w, [])
              else (w, [signal_error])
          | None =>
              (set_manager
                 (set_pendingCandidates (pendingCandidates m ++ [c]) m) w,
               [])
          end
      end
  end.

(** The listener of [guest-joined] on the host, up to its first [await]: it
    creates the data channel and calls [createOffer]. *)
Definition onGuestJoined (w : world) : world * list event :=
  let m1 :=
    set_dataChannel
      (Some {| readyState := connecting; bufferedAmount := 0 |})
      (manager w) in
  (await CreateOffer OfferCreated (set_manager m1 w), []).

(** The handler of the peer connection's [icecandidate] event: a local
    candidate is signalled when there is a socket and a room code; the end
    of gathering ([null]) is not. *)
Definition onIceCandidate (m : WebRTCManager)
    (c : option RTCIceCandidateInit) : list event :=
  match c with
  | Some c =>
      match socket m with
      | Some _ =>
          if truthy (roomCode m) then
            [SocketEmit
               (EmitSignal (roomCode m)
                  {| sig_type := sig_ice_candidate; sig_sdp := None;
                     sig_candidate := Some c |})]
          else []
      | None => []
      end
  | None => []
  end.

(** The operation at the head of the chain settles and the call that awaits
    it runs on, up to its next [await] or to its end. *)
Definition settle (ag : agent) (w : world) : world * list event :=
  match chain w with
  | [] => (w, [])
  | (op, k) :: rest =>
      let w1 := {| manager := manager w; retired := retired w;
                   chain := rest |} in
      match perform ag (peerConnection (manager w)) op with
      | Some (pc, value) =>
          resume k value (set_manager (set_peerConnection pc (manager w)) w1)
      | None => (w1, rejected k)
      end
  end.

(** What the event loop runs, one at a time. *)
Inductive task : Type :=
  | SignalArrives (data : SignalData)
  | GuestJoins
  | CandidateGathered (c : option RTCIceCandidateInit)
  | OperationSettles.

Definition step (ag : agent) (w : world) (t : task) : world * list event :=
  match t with
  | SignalArrives data => onSignal w data
  | GuestJoins => onGuestJoined w
  | CandidateGathered c => (w, onIceCandidate (manager w) c)
  | OperationSettles => settle ag w
  end.

Fixpoint run (ag : agent) (w : world) (tasks : list task)
    : world * list event :=
  match tasks with
  | [] => (w, [])
  | t :: rest =>
      let '(w1, out1) := step ag w t in
      let '(w2, out2) := run ag w1 rest in
      (w2, out1 ++ out2)
  end.

Definition ice (c : RTCIceCandidateInit) : SignalData :=
  {| sig_type := sig_ice_candidate; sig_sdp := None; sig_candidate := Some c |}.

(** A signal that carries a session description. *)
Definition description_signal (d : SignalData) : option RTCSessionDescription :=
  match sig_type d with
  | sig_offer => Some {| sd_type := offer; sd_sdp := sig_sdp d |}
  | sig_answer => Some {| sd_type := answer; sd_sdp := sig_sdp d |}
  | sig_ice_candidate => None
  end.

Definition host_candidate : RTCIceCandidateInit :=
  {| candidate := "candidate:1 1 udp 2122260223 192.168.1.7 54321 typ host";
     sdpMid := Some "0"; sdpMLineIndex := Some 0%nat |}.

Definition srflx_candidate : RTCIceCandidateInit :=
  {| candidate := "candidate:2 1 udp 1686052607 203.0.113.9 61234 typ srflx";
     sdpMid := Some "0"; sdpMLineIndex := Some 0%nat |}.

Definition relay_candidate : RTCIceCandidateInit :=
  {| candidate := "candidate:4 1 udp 41885695 198.51.100.4 50000 typ relay";
     sdpMid := Some "0"; sdpMLineIndex := Some 0%nat |}.

(** A candidate that names no media section. *)
Definition bare_candidate : RTCIceCandidateInit :=
  {| candidate := "candidate:3 1 udp 41885439 198.51.100.4 3478 typ relay";
     sdpMid := None; sdpMLineIndex := None |}.

(** An agent that accepts whatever it is given. *)
Definition willing_agent : agent :=
  {| accepts_remote := fun _ _ => true;
     accepts_local := fun _ _ => true;
     accepts_candidate := fun _ _ => true;
     create_offer := fun _ => Some "v=0"%string;
     create_answer := fun _ => Some "v=0"%string |}.

Definition offer_signal : SignalData :=
  {| sig_type := sig_offer; sig_sdp := Some "v=0"%string;
     sig_candidate := None |}.


(** The agent takes every candidate in this list, in whatever state. *)
Definition takes_all (ag : agent) (cs : list RTCIceCandidateInit) : Prop :=
  forall pc c, In c cs -> constructible c && accepts_candidate ag pc c = true.

Definition arrivals (cs : list RTCIceCandidateInit) : list task :=
  map (fun c => SignalArrives (ice c)) cs.

Arguments run : simpl never.
Arguments settle : simpl never.
Arguments replay : simpl never.
Arguments onSignal : simpl never.

Lemma run_nil (ag : agent) (w : world) : run ag w [] = (w, []).
Proof. reflexivity. Qed.

Lemma run_cons (ag : agent) (w : world) (t : task) (rest : list task) :
  run ag w (t :: rest) =
    let '(w1, out1) := step ag w t in
    let '(w2, out2) := run ag w1 rest in
    (w2, out1 ++ out2).
Proof. reflexivity. Qed.

Lemma run_app (ag : agent) (a b : list task) :
  forall w,
    run ag w (a ++ b) =
      let '(w1, out1) := run ag w a in
      let '(w2, out2) := run ag w1 b in
      (w2, out1 ++ out2).
Proof.
  induction a as [|t a IH]; intros w.
  - cbn [app]. rewrite run_nil. now destruct (run ag w b).
  - cbn [app]. rewrite !run_cons. destruct (step ag w t) as [w1 o1].
    rewrite IH.
    destruct (run ag w1 a) as [w2 o2]. destruct (run ag w2 b) as [w3 o3].
    now rewrite app_assoc.
Qed.

(** Candidates that arrive while no remote description is set are appended
    to the array, whatever is in flight, and nothing else happens. *)
Lemma candidates_are_queued (ag : agent) (cs : list RTCIceCandidateInit) :
  forall w,
    remoteDescription (peerConnection (manager w)) = None ->
    run ag w (arrivals cs) =
      (set_manager
         (set_pendingCandidates (pendingCandidates (manager w) ++ cs)
            (manager w)) w, []).
Proof.
  induction cs as [|c cs IH]; intros w Hnone.
  - cbn. rewrite run_nil, app_nil_r. now destruct w as [[] ? ?].
  - cbn [arrivals map]. rewrite run_cons. cbn [step]. unfold onSignal.
    cbn [ice sig_type sig_candidate]. rewrite Hnone.
    fold (arrivals cs). rewrite IH by exact Hnone. cbn.
    now rewrite <- app_assoc.
Qed.

(** What follows the loop. *)
Definition after_replay (ty : RTCSdpType) : list (operation * continuation) :=
  match ty with
  | offer => [(CreateAnswer, AnswerCreated)]
  | answer => []
  end.

Definition with_candidates (cs : list RTCIceCandidateInit)
    (m : WebRTCManager) : WebRTCManager :=
  set_peerConnection
    {| remoteDescription := remoteDescription (peerConnection m);
       localDescription := localDescription (peerConnection m);
       remoteCandidates := remoteCandidates (peerConnection m) ++ cs |} m.

(** The loop left to itself: with the call for one element of the array in
    flight and no other, as many settlements as elements remain hand them to
    the agent in order, and the array is dropped. *)
Lemma replay_runs (ag : agent) (ty : RTCSdpType)
    (rest : list RTCIceCandidateInit) :
  forall (done : list RTCIceCandidateInit) (c : RTCIceCandidateInit)
         (w : world),
    pendingCandidates (manager w) = done ++ c :: rest ->
    chain w = [(AddIceCandidate c,
                NextReplay ty (length (retired w)) (S (length done)))] ->
    takes_all ag (c :: rest) ->
    run ag w (repeat OperationSettles (S (length rest))) =
      ({| manager :=
            set_pendingCandidates [] (with_candidates (c :: rest) (manager w));
          retired := retired w ++ [done ++ c :: rest];
          chain := after_replay ty |}, []).
Proof.
  induction rest as [|c' rest IH]; intros done c w Hq Hch Hall.
  - cbn [length repeat]. rewrite run_cons. cbn [step].
    unfold settle. rewrite Hch.
    cbn [perform].
    pose proof (Hall (peerConnection (manager w)) c (or_introl eq_refl)) as Hc.
    apply andb_true_iff in Hc as [_ Hc]. rewrite Hc.
    cbn [resume]. unfold replay, elements.
    cbn [retired manager set_manager]. rewrite Nat.eqb_refl.
    cbn [set_peerConnection pendingCandidates]. rewrite Hq.
    rewrite lookup_ge_None_2 by (rewrite length_app; cbn; lia).
    unfold clearPending, with_candidates.
    destruct ty; cbn; rewrite run_nil; cbn; rewrite Hq; reflexivity.
  - change (repeat OperationSettles (S (length (c' :: rest))))
      with (OperationSettles :: repeat OperationSettles (S (length rest))).
    rewrite run_cons. cbn [step]. unfold settle. rewrite Hch.
    cbn [perform].
    pose proof (Hall (peerConnection (manager w)) c (or_introl eq_refl)) as Hc.
    apply andb_true_iff in Hc as [_ Hc]. rewrite Hc.
    cbn [resume]. unfold replay, elements.
    cbn [retired manager set_manager]. rewrite Nat.eqb_refl.
    cbn [set_peerConnection pendingCandidates]. rewrite Hq.
    replace (done ++ c :: c' :: rest) with ((done ++ [c]) ++ c' :: rest)
      by now rewrite <- app_assoc.
    replace (S (length done)) with (length (done ++ [c]) + 0)%nat
      by (rewrite length_app; cbn; lia).
    rewrite lookup_app_r by lia.
    replace (length (done ++ [c]) + 0 - length (done ++ [c]))%nat with 0%nat
      by lia.
    cbn [lookup list_lookup].
    pose proof (Hall (peerConnection (manager w)) c'
                  (or_intror (or_introl eq_refl))) as Hc'.
    apply andb_true_iff in Hc' as [Hc' _]. rewrite Hc'.
    set (w1 := await _ _ _).
    rewrite (IH (done ++ [c]) c' w1).
    + cbn. unfold with_candidates. cbn. rewrite <- !app_assoc. reflexivity.
    + cbn. rewrite Hq. now rewrite <- app_assoc.
    + cbn. rewrite length_app. cbn. do 3 f_equal. lia.
    + intros pc x Hin. apply Hall. now right.
Qed.

(** The queue holds candidates only while no remote description is set. *)
Definition queue_invariant (m : WebRTCManager) : Prop :=
  pendingCandidates m <> [] -> remoteDescription (peerConnection m) = None.

Definition described (desc : RTCSessionDescription) (m : WebRTCManager)
    : WebRTCManager :=
  set_peerConnection
    {| remoteDescription := Some desc;
       localDescription := localDescription (peerConnection m);
       remoteCandidates := remoteCandidates (peerConnection m) |} m.

Definition description_type (d : SignalData) : RTCSdpType :=
  match sig_type d with
  | sig_answer => answer
  | _ => offer
  end.

(** A description signal arrives with candidates around it, and its
    [setRemoteDescription] settles: the description is set, the loop has
    called [addIceCandidate] for the first element of the array, and the
    array is still full. *)
Lemma replay_starts (ag : agent) (m : WebRTCManager)
    (before during : list RTCIceCandidateInit) (d : SignalData)
    (desc : RTCSessionDescription) (c1 : RTCIceCandidateInit)
    (q : list RTCIceCandidateInit) :
  remoteDescription (peerConnection m) = None ->
  description_signal d = Some desc ->
  accepts_remote ag (peerConnection m) desc = true ->
  pendingCandidates m ++ before ++ during = c1 :: q ->
  constructible c1 = true ->
  run ag (idle m)
    (arrivals before ++ SignalArrives d :: arrivals during
       ++ [OperationSettles]) =
    ({| manager := described desc (set_pendingCandidates (c1 :: q) m);
        retired := [];
        chain := [(AddIceCandidate c1,
                   NextReplay (description_type d) 0 1)] |}, []).
Proof.
  intros Hnone Hd Hacc Hq Hc1.
  rewrite run_app, candidates_are_queued by exact Hnone.
  rewrite run_cons. cbn [step].
  assert (Hs : forall w, onSignal w d =
            (await (SetRemoteDescription desc)
               (StartReplay (description_type d)) w, [])).
  { intros w. unfold onSignal, description_signal, description_type in *.
    destruct (sig_type d); try discriminate; now injection Hd as <-. }
  rewrite Hs. rewrite run_app, candidates_are_queued by exact Hnone.
  rewrite run_cons. cbn [step]. unfold settle. cbn.
  rewrite Hacc. cbn. unfold replay, elements. cbn.
  rewrite <- app_assoc, Hq. cbn. rewrite Hc1. cbn. rewrite run_nil.
  reflexivity.
Qed.

(** C3.  The queue is not drained before candidates that arrive later are
    applied.  Candidates signalled before the remote description is set are
    appended to the array.  Once [setRemoteDescription] has settled, the
    description is set while the array still holds them all, and a candidate
    that arrives while the loop awaits [addIceCandidate] for the first of
    them is handed to the agent at once: the agent receives the first queued
    candidate, then the late one, then the rest of the queue. *)
Theorem late_candidate_overtakes_queue (ag : agent) (m : WebRTCManager)
    (before during : list RTCIceCandidateInit) (d : SignalData)
    (desc : RTCSessionDescription) (c1 : RTCIceCandidateInit)
    (q : list RTCIceCandidateInit) (c : RTCIceCandidateInit) :
  remoteDescription (peerConnection m) = None ->
  description_signal d = Some desc ->
  accepts_remote ag (peerConnection m) desc = true ->
  pendingCandidates m ++ before ++ during = c1 :: q ->
  takes_all ag (c :: c1 :: q) ->
  let w1 :=
    fst (run ag (idle m)
           (arrivals before ++ SignalArrives d :: arrivals during
              ++ [OperationSettles])) in
  let w2 :=
    fst (run ag w1
           (SignalArrives (ice c)
              :: repeat OperationSettles (2 + length q))) in
  ~ queue_invariant (manager w1)
  /\ pendingCandidates (manager w1) = c1 :: q
  /\ remoteCandidates (peerConnection (manager w2)) =
       remoteCandidates (peerConnection m) ++ c1 :: c :: q
  /\ pendingCandidates (manager w2) = [].
Proof.
  intros Hnone Hd Hacc Hq Hall w1 w2.
  assert (Hc : forall pc x, In x (c :: c1 :: q) ->
            constructible x = true /\ accepts_candidate ag pc x = true).
  { intros pc x Hin. now apply andb_true_iff, Hall. }
  assert (E1 : w1 = {| manager :=
                         described desc (set_pendingCandidates (c1 :: q) m);
                       retired := [];
                       chain := [(AddIceCandidate c1,
                                  NextReplay (description_type d) 0 1)] |}).
  { subst w1. rewrite (replay_starts ag m before during d desc c1 q);
      try assumption; [reflexivity|].
    apply (Hc (peerConnection m)). right. now left. }
  split; [|split; [now rewrite E1|]].
  { rewrite E1. unfold queue_invariant. cbn. intros H.
    specialize (H ltac:(discriminate)). discriminate H. }
  subst w2. rewrite E1. clear E1 w1.
  pose proof (Hc (peerConnection m) c (or_introl eq_refl)) as [Hcc _].
  assert (Hca : forall pc, accepts_candidate ag pc c = true)
    by (intros pc; apply (Hc pc c); now left).
  assert (Hca1 : forall pc, accepts_candidate ag pc c1 = true)
    by (intros pc; apply (Hc pc c1); right; now left).
  change (repeat OperationSettles (2 + length q))
    with (OperationSettles :: OperationSettles
            :: repeat OperationSettles (length q)).
  rewrite run_cons. cbn [step]. unfold onSignal. cbn. rewrite Hcc.
  rewrite run_cons. cbn [step]. unfold settle.
  cbn. rewrite Hca1. cbn. unfold replay, elements. cbn.
  destruct q as [|c2 q].
  - cbn. unfold clearPending. cbn.
    destruct (description_type d); cbn; rewrite run_cons;
      cbn [step]; unfold settle; cbn; rewrite Hca; cbn; rewrite run_nil; cbn;
      rewrite <- app_assoc; split; reflexivity.
  - cbn [lookup list_lookup].
    rewrite (proj1 (Hc (peerConnection m) c2
                      (or_intror (or_intror (or_introl eq_refl))))).
    cbn [fst snd app].
    rewrite run_cons. cbn [step]. unfold settle.
    cbn. rewrite Hca. cbn.
    match goal with
    | |- context [run ag ?w0 _] => set (w := w0)
    end.
    pose proof (replay_runs ag (description_type d) q [c1] c2 w) as Hrun.
    cbn [length repeat] in Hrun |- *. rewrite Hrun.
    + cbn. rewrite <- !app_assoc. split; reflexivity.
    + reflexivity.
    + reflexivity.
    + intros pc x Hin. apply Hall. right. now right.
Qed.

(** The failing trace: two candidates, the offer, and a third candidate
    while the first is being added. *)
Lemma late_candidate_overtakes_queue_witness :
  let w :=
    fst (run willing_agent (idle new_manager)
           [SignalArrives (ice host_candidate);
            SignalArrives (ice srflx_candidate);
            SignalArrives offer_signal; OperationSettles;
            SignalArrives (ice relay_candidate);
            OperationSettles; OperationSettles; OperationSettles]) in
  remoteCandidates (peerConnection (manager w)) =
    [host_candidate; relay_candidate; srflx_candidate].
Proof.
  assert (Hall : takes_all willing_agent
            [relay_candidate; host_candidate; srflx_candidate]).
  { intros pc c [<-|[<-|[<-|[]]]]; reflexivity. }
  pose proof (late_candidate_overtakes_queue willing_agent new_manager
    [host_candidate; srflx_candidate] [] offer_signal
    {| sd_type := offer; sd_sdp := Some "v=0"%string |}
    host_candidate [srflx_candidate] relay_candidate
    eq_refl eq_refl eq_refl eq_refl Hall) as H.
  cbv zeta in H. destruct H as (_ & _ & H & _).
  exact H.
Defined.

(** *** Every interleaving of one description with candidates *)

(** [l] merges [a] and [b]: it holds the elements of both, those of [a] in
    their order and those of [b] in theirs. *)
Inductive interleaved {A : Type} : list A -> list A -> list A -> Prop :=
  | interleaved_nil : interleaved [] [] []
  | interleaved_left (x : A) (a b l : list A) :
      interleaved a b l -> interleaved (a ++ [x]) b (l ++ [x])
  | interleaved_right (x : A) (a b l : list A) :
      interleaved a b l -> interleaved a (b ++ [x]) (l ++ [x]).

Lemma interleaved_Permutation {A : Type} (a b l : list A) :
  interleaved a b l -> Permutation l (a ++ b).
Proof.
  induction 1 as [|x a b l _ IH|x a b l _ IH].
  - reflexivity.
  - rewrite IH. rewrite <- !app_assoc. apply Permutation_app_head.
    apply Permutation_app_comm.
  - rewrite IH. now rewrite <- !app_assoc.
Qed.

Lemma interleaved_left_only {A : Type} (a : list A) : interleaved a [] a.
Proof.
  induction a as [|x a IH] using rev_ind; [constructor|].
  now apply interleaved_left.
Qed.

Lemma interleaved_alone {A : Type} (a b l : list A) :
  interleaved a b l -> b = [] -> l = a.
Proof.
  induction 1 as [|x a b l _ IH|x a b l _ IH]; intros E.
  - reflexivity.
  - now rewrite IH.
  - destruct b; discriminate E.
Qed.

(** An agent that accepts every description and every candidate. *)
Definition cooperative (ag : agent) : Prop :=
  (forall pc d, accepts_remote ag pc d = true)
  /\ (forall pc d, accepts_local ag pc d = true)
  /\ (forall pc c, accepts_candidate ag pc c = true).

(** The signals, and the local candidates, of a sequence of tasks. *)
Definition signals (tasks : list task) : list SignalData :=
  flat_map (fun t => match t with SignalArrives d => [d] | _ => [] end) tasks.

Definition gathered (tasks : list task) : list (option RTCIceCandidateInit) :=
  flat_map (fun t => match t with CandidateGathered c => [c] | _ => [] end)
    tasks.

Definition no_guest_joins (tasks : list task) : Prop :=
  Forall (fun t => t <> GuestJoins) tasks.

(** What the [icecandidate] handler emits for these candidates. *)
Definition announced (m : WebRTCManager)
    (cs : list (option RTCIceCandidateInit)) : list event :=
  flat_map (onIceCandidate m) cs.

Lemma announced_app (m : WebRTCManager)
    (a b : list (option RTCIceCandidateInit)) :
  announced m (a ++ b) = announced m a ++ announced m b.
Proof. apply flat_map_app. Qed.

Lemma announced_one (m : WebRTCManager) (c : option RTCIceCandidateInit) :
  announced m [c] = onIceCandidate m c.
Proof. unfold announced. cbn [flat_map]. apply app_nil_r. Qed.

Lemma signals_cons (t : task) (tasks : list task) :
  signals (t :: tasks) =
    match t with SignalArrives d => [d] | _ => [] end ++ signals tasks.
Proof. reflexivity. Qed.

Lemma gathered_cons (t : task) (tasks : list task) :
  gathered (t :: tasks) =
    match t with CandidateGathered c => [c] | _ => [] end ++ gathered tasks.
Proof. reflexivity. Qed.

(** The end of a list of signals that starts with candidates. *)
Lemma signals_candidates (d : SignalData) (rest : list SignalData)
    (cs : list RTCIceCandidateInit) :
  d :: rest = map ice cs ->
  exists c cs', cs = c :: cs' /\ d = ice c /\ rest = map ice cs'.
Proof.
  destruct cs as [|c cs']; [discriminate|]. cbn [map]. intros E.
  injection E as -> ->. now exists c, cs'.
Qed.

(** Before any description: with no call in flight and no remote
    description, candidates are appended to the array, local candidates are
    announced, and there is nothing to settle. *)
Lemma before_description (ag : agent) (tasks : list task) :
  forall (m : WebRTCManager) (cs : list RTCIceCandidateInit),
    remoteDescription (peerConnection m) = None ->
    signals tasks = map ice cs -> no_guest_joins tasks ->
    run ag (idle m) tasks =
      (idle (set_pendingCandidates (pendingCandidates m ++ cs) m),
       announced m (gathered tasks)).
Proof.
  induction tasks as [|t tasks IH]; intros m cs Hnone Hsig Hng.
  - destruct cs; [|discriminate]. rewrite run_nil, app_nil_r.
    now destruct m.
  - rewrite run_cons. apply Forall_cons in Hng as [Ht Hng].
    rewrite signals_cons in Hsig. rewrite gathered_cons.
    destruct t as [d| |c|]; cbn [step app] in *.
    + apply signals_candidates in Hsig as (c & cs' & -> & -> & Hsig).
      unfold onSignal. cbn [ice sig_type sig_candidate idle manager].
      rewrite Hnone.
      change (set_manager (set_pendingCandidates (pendingCandidates m ++ [c]) m)
                (idle m))
        with (idle (set_pendingCandidates (pendingCandidates m ++ [c]) m)).
      rewrite (IH (set_pendingCandidates (pendingCandidates m ++ [c]) m) cs'
                 Hnone Hsig Hng).
      cbn. now rewrite <- app_assoc.
    + congruence.
    + rewrite (IH m cs Hnone Hsig Hng). reflexivity.
    + unfold settle. cbn [idle chain].
      rewrite (IH m cs Hnone Hsig Hng). reflexivity.
Qed.

(** A list of signals with one description in it is cut at the
    description. *)
Lemma signals_split (tasks : list task) :
  forall (a : list RTCIceCandidateInit) (d : SignalData)
         (b : list SignalData),
    description_signal d <> None ->
    signals tasks = map ice a ++ d :: b ->
    exists t1 t2,
      tasks = t1 ++ SignalArrives d :: t2
      /\ signals t1 = map ice a /\ signals t2 = b.
Proof.
  induction tasks as [|t tasks IH]; intros a d b Hd Hsig.
  - destruct a; discriminate.
  - rewrite signals_cons in Hsig.
    destruct t as [d'| |c|]; cbn [app] in Hsig.
    + destruct a as [|c a]; cbn [map app] in Hsig.
      * injection Hsig as -> Hsig. now exists [], tasks.
      * injection Hsig as -> Hsig.
        destruct (IH a d b Hd Hsig) as (t1 & t2 & -> & H1 & H2).
        exists (SignalArrives (ice c) :: t1), t2. repeat split; try assumption.
        rewrite signals_cons, H1. reflexivity.
    + destruct (IH a d b Hd Hsig) as (t1 & t2 & -> & H1 & H2).
      now exists (GuestJoins :: t1), t2.
    + destruct (IH a d b Hd Hsig) as (t1 & t2 & -> & H1 & H2).
      now exists (CandidateGathered c :: t1), t2.
    + destruct (IH a d b Hd Hsig) as (t1 & t2 & -> & H1 & H2).
      now exists (OperationSettles :: t1), t2.
Qed.

Section Interleaving.

Variable ag : agent.
Variable m : WebRTCManager.
Variable desc : RTCSessionDescription.
Variable sdp_a : string.

Hypothesis cooperates : cooperative ag.
Hypothesis answers :
  sd_type desc = offer -> forall pc, create_answer ag pc = Some sdp_a.

(** Where the listener call for the description stands. *)
Inductive phase : Type :=
  | Setting
  | Replaying (index : nat) (c : RTCIceCandidateInit)
      (d1 d2 : list RTCIceCandidateInit)
  | Answering (d1 d2 : list RTCIceCandidateInit)
  | Localising (d1 d2 : list RTCIceCandidateInit)
  | Finished (ds : list RTCIceCandidateInit).

(** The world in each of them: [queue] is the array, [added] the candidates
    handed to the agent so far, [d1] and [d2] the candidates of the
    [ice-candidate] listener calls in flight, before and after the operation
    the description's call awaits. *)
Definition direct (c : RTCIceCandidateInit) : operation * continuation :=
  (AddIceCandidate c, CandidateAdded).

Definition the_answer : RTCSessionDescription :=
  {| sd_type := answer; sd_sdp := Some sdp_a |}.

Definition connection (remote local : option RTCSessionDescription)
    (added : list RTCIceCandidateInit) : RTCPeerConnection :=
  {| remoteDescription := remote; localDescription := local;
     remoteCandidates := remoteCandidates (peerConnection m) ++ added |}.

Definition object (pending : list RTCIceCandidateInit)
    (pc : RTCPeerConnection) : WebRTCManager :=
  set_pendingCandidates pending (set_peerConnection pc m).

Definition local0 : option RTCSessionDescription :=
  localDescription (peerConnection m).

Definition final_local : option RTCSessionDescription :=
  match sd_type desc with
  | offer => Some the_answer
  | answer => local0
  end.

Definition build (p : phase) (queue added : list RTCIceCandidateInit)
    : world :=
  match p with
  | Setting =>
      {| manager := object queue (connection None local0 added);
         retired := [];
         chain := [(SetRemoteDescription desc, StartReplay (sd_type desc))] |}
  | Replaying i c d1 d2 =>
      {| manager := object queue (connection (Some desc) local0 added);
         retired := [];
         chain := map direct d1
                    ++ (AddIceCandidate c, NextReplay (sd_type desc) 0 (S i))
                    :: map direct d2 |}
  | Answering d1 d2 =>
      {| manager := object [] (connection (Some desc) local0 added);
         retired := [queue];
         chain := map direct d1 ++ (CreateAnswer, AnswerCreated)
                    :: map direct d2 |}
  | Localising d1 d2 =>
      {| manager := object [] (connection (Some desc) local0 added);
         retired := [queue];
         chain := map direct d1
                    ++ (SetLocalDescription the_answer,
                        AnswerSet (Some sdp_a))
                    :: map direct d2 |}
  | Finished ds =>
      {| manager := object [] (connection (Some desc) final_local added);
         retired := [queue];
         chain := map direct ds |}
  end.

(** What has been seen of the candidates: [seen] are those that arrived. *)
Definition shown (p : phase) (queue added seen : list RTCIceCandidateInit)
    : Prop :=
  match p with
  | Setting => added = [] /\ queue = pendingCandidates m ++ seen
  | Replaying i c d1 d2 =>
      queue !! i = Some c
      /\ exists applied,
           pendingCandidates m ++ seen = queue ++ applied ++ d1 ++ d2
           /\ interleaved (take i queue) applied added
  | Answering d1 d2 | Localising d1 d2 =>
      sd_type desc = offer
      /\ exists applied,
           pendingCandidates m ++ seen = queue ++ applied ++ d1 ++ d2
           /\ interleaved queue applied added
  | Finished ds =>
      exists applied,
        pendingCandidates m ++ seen = queue ++ applied ++ ds
        /\ interleaved queue applied added
  end.

Definition answer_emitted : event :=
  SocketEmit
    (EmitSignal (roomCode m)
       {| sig_type := sig_answer; sig_sdp := Some sdp_a;
          sig_candidate := None |}).

(** What has been emitted: the local candidates, and the answer once it is
    set. *)
Definition heard (p : phase) (g : list (option RTCIceCandidateInit))
    (out : list event) : Prop :=
  match p, sd_type desc with
  | Finished _, offer =>
      exists g1 g2,
        g = g1 ++ g2
        /\ out = announced m g1 ++ answer_emitted :: announced m g2
  | _, _ => out = announced m g
  end.

(** After a loop over the array. *)
Definition after_loop (d : list RTCIceCandidateInit) : phase :=
  match sd_type desc with
  | offer => Answering d []
  | answer => Finished d
  end.

Lemma build_after_loop (d queue added : list RTCIceCandidateInit) :
  build (after_loop d) queue added =
    {| manager := object [] (connection (Some desc) local0 added);
       retired := [queue];
       chain := map direct d ++ after_replay (sd_type desc) |}.
Proof.
  unfold after_loop, build, final_local, after_replay.
  destruct (sd_type desc); [reflexivity|]. now rewrite app_nil_r.
Qed.

Lemma shown_after_loop (d queue added seen applied
    : list RTCIceCandidateInit) :
  pendingCandidates m ++ seen = queue ++ applied ++ d ->
  interleaved queue applied added ->
  shown (after_loop d) queue added seen.
Proof.
  intros E Hi. unfold after_loop.
  destruct (sd_type desc) eqn:Ety; cbn [shown]; rewrite ?Ety.
  - split; [reflexivity|]. exists applied. now rewrite app_nil_r.
  - now exists applied.
Qed.

Lemma heard_before (p : phase) (g : list (option RTCIceCandidateInit))
    (out : list event) :
  (forall ds, p <> Finished ds) -> heard p g out <-> out = announced m g.
Proof.
  intros Hp. unfold heard. destruct p; try reflexivity.
  now elim (Hp ds).
Qed.


Definition constructibles (cs : list RTCIceCandidateInit) : Prop :=
  Forall (fun c => constructible c = true) cs.

Lemma object_with_candidate (pending : list RTCIceCandidateInit)
    (remote local : option RTCSessionDescription)
    (added : list RTCIceCandidateInit) (x : RTCIceCandidateInit) :
  set_peerConnection
    {| remoteDescription := remote; localDescription := local;
       remoteCandidates :=
         remoteCandidates (connection remote local added) ++ [x] |}
    (object pending (connection remote local added))
  = object pending (connection remote local (added ++ [x])).
Proof. unfold object, connection. cbn. now rewrite <- app_assoc. Qed.

(** A candidate arrives. *)
Lemma candidate_arrives (p : phase)
    (queue added seen : list RTCIceCandidateInit)
    (c : RTCIceCandidateInit) :
  constructible c = true ->
  shown p queue added seen ->
  exists p' queue',
    onSignal (build p queue added) (ice c) = (build p' queue' added, [])
    /\ shown p' queue' added (seen ++ [c])
    /\ (forall g out, heard p g out -> heard p' g out)
    /\ (constructibles queue -> constructibles queue').
Proof.
  intros Hc Hs. unfold onSignal. cbn [ice sig_type sig_candidate].
  destruct p as [|i c0 d1 d2|d1 d2|d1 d2|ds]; cbn [build manager object
    set_pendingCandidates set_peerConnection peerConnection connection
    remoteDescription]; rewrite ?Hc.
  - exists Setting, (queue ++ [c]). split; [reflexivity|].
    destruct Hs as [-> ->]. split; [|split].
    + split; [reflexivity|]. now rewrite app_assoc.
    + trivial.
    + intros Hq. apply Forall_app. split; [exact Hq|]. now constructor.
  - exists (Replaying i c0 d1 (d2 ++ [c])), queue. split.
    { unfold await. cbn. rewrite <- app_assoc. cbn. now rewrite map_app. }
    destruct Hs as (Hi & applied & E & Hl). split; [|split; trivial].
    split; [exact Hi|]. exists applied. split; [|exact Hl].
    rewrite app_assoc, E. now rewrite <- !app_assoc.
  - exists (Answering d1 (d2 ++ [c])), queue. split.
    { unfold await. cbn. rewrite <- app_assoc. cbn. now rewrite map_app. }
    destruct Hs as (Hty & applied & E & Hl). split; [|split; trivial].
    split; [exact Hty|]. exists applied. split; [|exact Hl].
    rewrite app_assoc, E. now rewrite <- !app_assoc.
  - exists (Localising d1 (d2 ++ [c])), queue. split.
    { unfold await. cbn. rewrite <- app_assoc. cbn. now rewrite map_app. }
    destruct Hs as (Hty & applied & E & Hl). split; [|split; trivial].
    split; [exact Hty|]. exists applied. split; [|exact Hl].
    rewrite app_assoc, E. now rewrite <- !app_assoc.
  - exists (Finished (ds ++ [c])), queue. split.
    { unfold await. cbn. now rewrite map_app. }
    destruct Hs as (applied & E & Hl). split; [|split; trivial].
    exists applied. split; [|exact Hl].
    rewrite app_assoc, E. now rewrite <- !app_assoc.
Qed.


Lemma heard_direct (p p' : phase) (g : list (option RTCIceCandidateInit))
    (out : list event) :
  match p, p' with
  | Finished _, Finished _ => True
  | Finished _, _ | _, Finished _ => False
  | _, _ => True
  end ->
  heard p g out -> heard p' g (out ++ []).
Proof.
  rewrite app_nil_r. unfold heard.
  destruct p, p'; try tauto; destruct (sd_type desc); tauto.
Qed.

(** The operation at the head of the chain settles. *)
Lemma operation_settles (p : phase)
    (queue added seen : list RTCIceCandidateInit)
    (g : list (option RTCIceCandidateInit)) (out : list event) :
  shown p queue added seen -> heard p g out -> constructibles queue ->
  exists p' added' o,
    settle ag (build p queue added) = (build p' queue added', o)
    /\ shown p' queue added' seen
    /\ heard p' g (out ++ o).
Proof.
  destruct cooperates as (Hremote & Hlocal & Hcand).
  intros Hs Hh Hq. unfold settle.
  destruct p as [|i c0 d1 d2|d1 d2|d1 d2|ds].
  - (* [setRemoteDescription] settles and the loop starts *)
    destruct Hs as [-> ->]. cbn [build chain perform manager]. rewrite Hremote.
    cbn [resume]. unfold replay, elements. cbn.
    destruct (pendingCandidates m ++ seen) as [|c q] eqn:E.
    + cbn. exists (after_loop []), [], []. rewrite build_after_loop.
      split; [|split].
      * unfold clearPending. cbn. destruct (sd_type desc); reflexivity.
      * apply (shown_after_loop [] [] [] seen []); [now rewrite E|constructor].
      * rewrite app_nil_r. unfold heard, after_loop in *.
        destruct (sd_type desc); exact Hh.
    + cbn. rewrite (Forall_inv Hq).
      exists (Replaying 0 c [] []), [], []. split; [reflexivity|]. split.
      * split; [reflexivity|]. exists []. split; [|constructor].
        now rewrite E, !app_nil_r.
      * now apply heard_direct with Setting.
  - destruct Hs as (Hi & applied & E & Hl). destruct d1 as [|x d1].
    + (* the element of the array is added and the loop goes on *)
      cbn [build chain map app perform manager]. rewrite Hcand.
      cbn [resume]. unfold replay, elements. cbn.
      destruct (queue !! S i) as [c'|] eqn:Enext.
      * rewrite (proj1 (List.Forall_forall _ _) Hq c')
          by (apply list_elem_of_In; eapply list_elem_of_lookup_2, Enext).
        exists (Replaying (S i) c' d2 []), (added ++ [c0]), [].
        split; [|split].
        -- unfold await. cbn. unfold object, connection. cbn.
           now rewrite <- app_assoc.
        -- split; [exact Enext|]. exists applied. split.
           ++ rewrite E. cbn. now rewrite app_nil_r.
           ++ rewrite (take_S_r _ _ _ Hi). now constructor.
        -- now apply heard_direct with (Replaying i c0 [] d2).
      * exists (after_loop d2), (added ++ [c0]), []. rewrite build_after_loop.
        split; [|split].
        -- unfold clearPending, after_replay. cbn. unfold object, connection.
           cbn. rewrite <- app_assoc.
           destruct (sd_type desc); rewrite ?app_nil_r; reflexivity.
        -- apply (shown_after_loop d2 queue _ seen applied); [exact E|].
           apply lookup_ge_None_1 in Enext.
           assert (Hlen : length queue = S i).
           { apply lookup_lt_Some in Hi. lia. }
           rewrite <- (take_ge queue (S i)) at 1 by lia.
           rewrite (take_S_r _ _ _ Hi). now constructor.
        -- rewrite app_nil_r. unfold heard, after_loop in *.
           destruct (sd_type desc); exact Hh.
    + (* a candidate that arrived later is added *)
      cbn [build chain map app perform manager direct]. rewrite Hcand.
      cbn [resume]. exists (Replaying i c0 d1 d2), (added ++ [x]), [].
      split; [|split].
      * cbn. unfold object, connection. cbn. now rewrite <- app_assoc.
      * split; [exact Hi|]. exists (applied ++ [x]). split.
        -- rewrite E. now rewrite <- !app_assoc.
        -- now constructor.
      * now apply heard_direct with (Replaying i c0 (x :: d1) d2).
  - destruct Hs as (Hty & applied & E & Hl). destruct d1 as [|x d1].
    + (* [createAnswer] settles *)
      cbn [build chain map app perform manager]. rewrite (answers Hty).
      cbn [resume]. exists (Localising d2 []), added, [].
      split; [|split].
      * unfold await. reflexivity.
      * split; [exact Hty|]. exists applied. split; [|exact Hl].
        rewrite E. cbn. now rewrite app_nil_r.
      * now apply heard_direct with (Answering [] d2).
    + cbn [build chain map app perform manager direct]. rewrite Hcand.
      cbn [resume]. exists (Answering d1 d2), (added ++ [x]), [].
      split; [|split].
      * cbn. unfold object, connection. cbn. now rewrite <- app_assoc.
      * split; [exact Hty|]. exists (applied ++ [x]). split.
        -- rewrite E. now rewrite <- !app_assoc.
        -- now constructor.
      * now apply heard_direct with (Answering (x :: d1) d2).
  - destruct Hs as (Hty & applied & E & Hl). destruct d1 as [|x d1].
    + (* [setLocalDescription] settles and the answer is emitted *)
      cbn [build chain map app perform manager]. rewrite Hlocal.
      cbn [resume]. exists (Finished d2), added, [answer_emitted].
      split; [|split].
      * cbn. unfold final_local. rewrite Hty. reflexivity.
      * exists applied. split; [exact E | exact Hl].
      * unfold heard in *. rewrite Hty in *. exists g, [].
        rewrite app_nil_r. split; [reflexivity|]. now rewrite Hh.
    + cbn [build chain map app perform manager direct]. rewrite Hcand.
      cbn [resume]. exists (Localising d1 d2), (added ++ [x]), [].
      split; [|split].
      * cbn. unfold object, connection. cbn. now rewrite <- app_assoc.
      * split; [exact Hty|]. exists (applied ++ [x]). split.
        -- rewrite E. now rewrite <- !app_assoc.
        -- now constructor.
      * now apply heard_direct with (Localising (x :: d1) d2).
  - destruct Hs as (applied & E & Hl). destruct ds as [|x ds].
    + exists (Finished []), added, []. split; [reflexivity|]. split.
      * now exists applied.
      * now rewrite app_nil_r.
    + cbn [build chain map app perform manager direct]. rewrite Hcand.
      cbn [resume]. exists (Finished ds), (added ++ [x]), [].
      split; [|split].
      * cbn. unfold object, connection. cbn. now rewrite <- app_assoc.
      * exists (applied ++ [x]). split.
        -- rewrite E. now rewrite <- !app_assoc.
        -- now constructor.
      * now rewrite app_nil_r.
Qed.


Lemma heard_gathered (p : phase) (g : list (option RTCIceCandidateInit))
    (out : list event) (c : option RTCIceCandidateInit) :
  heard p g out -> heard p (g ++ [c]) (out ++ onIceCandidate m c).
Proof.
  assert (Ha : announced m (g ++ [c]) = announced m g ++ onIceCandidate m c).
  { now rewrite announced_app, announced_one. }
  unfold heard. destruct p; try (intros ->; now rewrite Ha).
  destruct (sd_type desc); [|intros ->; now rewrite Ha].
  intros (g1 & g2 & -> & ->). exists g1, (g2 ++ [c]).
  split; [now rewrite app_assoc|].
  rewrite announced_app, announced_one, <- app_assoc. reflexivity.
Qed.

Lemma onIceCandidate_build (p : phase)
    (queue added : list RTCIceCandidateInit)
    (c : option RTCIceCandidateInit) :
  onIceCandidate (manager (build p queue added)) c = onIceCandidate m c.
Proof. destruct p; reflexivity. Qed.

(** Once the description has arrived: the tasks that follow keep the world
    in one of the phases. *)
Lemma after_description (tasks : list task) :
  forall (p : phase) (queue added seen : list RTCIceCandidateInit)
         (g : list (option RTCIceCandidateInit)) (out : list event)
         (cs : list RTCIceCandidateInit),
    shown p queue added seen -> heard p g out -> constructibles queue ->
    signals tasks = map ice cs -> constructibles cs ->
    no_guest_joins tasks ->
    exists p' queue' added' o,
      run ag (build p queue added) tasks = (build p' queue' added', o)
      /\ shown p' queue' added' (seen ++ cs)
      /\ heard p' (g ++ gathered tasks) (out ++ o).
Proof.
  induction tasks as [|t tasks IH];
    intros p queue added seen g out cs Hs Hh Hq Hsig Hcs Hng.
  - destruct cs; [|discriminate]. exists p, queue, added, [].
    rewrite run_nil, !app_nil_r. now repeat split.
  - rewrite run_cons. apply Forall_cons in Hng as [Ht Hng].
    rewrite signals_cons in Hsig. rewrite gathered_cons.
    destruct t as [d| |c|]; cbn [step app] in *.
    + apply signals_candidates in Hsig as (c & cs' & -> & -> & Hsig).
      apply Forall_cons in Hcs as [Hc Hcs].
      destruct (candidate_arrives p queue added seen c Hc Hs)
        as (p1 & queue1 & -> & Hs1 & Hh1 & Hq1).
      destruct (IH p1 queue1 added (seen ++ [c]) g out cs' Hs1 (Hh1 _ _ Hh)
                  (Hq1 Hq) Hsig Hcs Hng)
        as (p' & queue' & added' & o & -> & Hs' & Hh').
      exists p', queue', added', o. split; [reflexivity|].
      rewrite <- app_assoc in Hs'. now split.
    + congruence.
    + rewrite onIceCandidate_build.
      destruct (IH p queue added seen (g ++ [c]) (out ++ onIceCandidate m c)
                  cs Hs (heard_gathered p g out c Hh) Hq Hsig Hcs Hng)
        as (p' & queue' & added' & o & -> & Hs' & Hh').
      exists p', queue', added', (onIceCandidate m c ++ o).
      split; [reflexivity|]. split; [exact Hs'|].
      rewrite <- !app_assoc in Hh'. exact Hh'.
    + destruct (operation_settles p queue added seen g out Hs Hh Hq)
        as (p1 & added1 & o1 & -> & Hs1 & Hh1).
      destruct (IH p1 queue added1 seen g (out ++ o1) cs Hs1 Hh1 Hq Hsig
                  Hcs Hng)
        as (p' & queue' & added' & o & -> & Hs' & Hh').
      exists p', queue', added', (o1 ++ o).
      split; [reflexivity|]. split; [exact Hs'|].
      now rewrite <- app_assoc in Hh'.
Qed.


Lemma gathered_app (a b : list task) :
  gathered (a ++ b) = gathered a ++ gathered b.
Proof. apply flat_map_app. Qed.

Lemma chain_empty (p : phase) (queue added : list RTCIceCandidateInit) :
  chain (build p queue added) = [] -> p = Finished [].
Proof.
  destruct p as [|i c d1 d2|d1 d2|d1 d2|ds]; cbn [build chain].
  - discriminate.
  - intros E. now apply app_eq_nil in E as [_ E].
  - intros E. now apply app_eq_nil in E as [_ E].
  - intros E. now apply app_eq_nil in E as [_ E].
  - destruct ds; [reflexivity | discriminate].
Qed.

(** One description among candidates, interleaved with settlements and
    local candidates in any way: once nothing is in flight any more, the
    world is that of [Finished []]. *)
Lemma description_handled (tasks : list task)
    (cs1 cs2 : list RTCIceCandidateInit) (d : SignalData) :
  remoteDescription (peerConnection m) = None ->
  description_signal d = Some desc ->
  signals tasks = map ice cs1 ++ d :: map ice cs2 ->
  no_guest_joins tasks ->
  constructibles (pendingCandidates m ++ cs1 ++ cs2) ->
  chain (fst (run ag (idle m) tasks)) = [] ->
  exists queue added,
    run ag (idle m) tasks =
      (build (Finished []) queue added, snd (run ag (idle m) tasks))
    /\ shown (Finished []) queue added (cs1 ++ cs2)
    /\ heard (Finished []) (gathered tasks) (snd (run ag (idle m) tasks)).
Proof.
  intros Hnone Hd Hsig Hng Hcs Hidle.
  destruct (signals_split tasks cs1 d (map ice cs2)) as (t1 & t2 & -> & H1 & H2);
    [congruence | exact Hsig |].
  apply Forall_app in Hng as [Hng1 Hng2].
  apply Forall_cons in Hng2 as [_ Hng2].
  apply Forall_app in Hcs as [Hq Hcs]. apply Forall_app in Hcs as [Hcs1 Hcs2].
  rewrite run_app in Hidle |- *.
  rewrite (before_description ag t1 m cs1 Hnone H1 Hng1) in Hidle |- *.
  rewrite run_cons in Hidle |- *. cbn [step] in Hidle |- *.
  assert (Hstart : onSignal
            (idle (set_pendingCandidates (pendingCandidates m ++ cs1) m)) d =
          (build Setting (pendingCandidates m ++ cs1) [], [])).
  { unfold onSignal, description_signal in *. unfold build, await.
    cbn [idle chain app manager retired].
    assert (Hm : set_pendingCandidates (pendingCandidates m ++ cs1) m =
                 object (pendingCandidates m ++ cs1)
                   (connection None local0 [])).
    { unfold object, connection, local0. rewrite <- Hnone, app_nil_r.
      now destruct m as [[] ? ? ? ? ? ? ? ? ? ?]. }
    destruct (sig_type d); try discriminate; injection Hd as <-;
      cbn [sd_type]; now rewrite Hm. }
  rewrite Hstart in Hidle |- *.
  destruct (after_description t2 Setting (pendingCandidates m ++ cs1) [] cs1
              (gathered t1) (announced m (gathered t1)) cs2
              (conj eq_refl eq_refl) eq_refl
              (proj2 (Forall_app _ _ _) (conj Hq Hcs1)) H2 Hcs2 Hng2)
    as (p' & queue' & added' & o & Hrun & Hs & Hh).
  rewrite Hrun in Hidle |- *. cbn [fst snd app] in Hidle |- *.
  apply chain_empty in Hidle. subst p'.
  exists queue', added'. split; [reflexivity|]. split; [exact Hs|].
  rewrite gathered_app, gathered_cons. exact Hh.
Qed.


End Interleaving.


Lemma willing_agent_cooperative : cooperative willing_agent.
Proof. now repeat split. Qed.


(** *** A queued candidate that cannot be constructed *)

(** The loop stops at an element the [RTCIceCandidate] constructor refuses:
    the [catch] logs the error and the call ends, before the assignment that
    empties the array. *)
Lemma replay_stops (ag : agent) (ty : RTCSdpType)
    (bad : RTCIceCandidateInit) (post rest : list RTCIceCandidateInit) :
  forall (done : list RTCIceCandidateInit) (c : RTCIceCandidateInit)
         (w : world),
    pendingCandidates (manager w) = done ++ c :: rest ++ bad :: post ->
    chain w = [(AddIceCandidate c,
                NextReplay ty (length (retired w)) (S (length done)))] ->
    takes_all ag (c :: rest) ->
    constructible bad = false ->
    run ag w (repeat OperationSettles (S (length rest))) =
      ({| manager := with_candidates (c :: rest) (manager w);
          retired := retired w;
          chain := [] |}, [signal_error]).
Proof.
  induction rest as [|c' rest IH]; intros done c w Hq Hch Hall Hbad.
  - cbn [length repeat]. rewrite run_cons. cbn [step].
    unfold settle. rewrite Hch. cbn [perform].
    pose proof (Hall (peerConnection (manager w)) c (or_introl eq_refl)) as Hc.
    apply andb_true_iff in Hc as [_ Hc]. rewrite Hc.
    cbn [resume]. unfold replay, elements.
    cbn [retired manager set_manager]. rewrite Nat.eqb_refl.
    cbn [set_peerConnection pendingCandidates]. rewrite Hq.
    replace (done ++ c :: [] ++ bad :: post)
      with ((done ++ [c]) ++ bad :: post) by now rewrite <- app_assoc.
    replace (S (length done)) with (length (done ++ [c]) + 0)%nat
      by (rewrite length_app; cbn; lia).
    rewrite lookup_app_r by lia.
    replace (length (done ++ [c]) + 0 - length (done ++ [c]))%nat with 0%nat
      by lia.
    cbn [lookup list_lookup]. rewrite Hbad. rewrite run_nil. reflexivity.
  - change (repeat OperationSettles (S (length (c' :: rest))))
      with (OperationSettles :: repeat OperationSettles (S (length rest))).
    rewrite run_cons. cbn [step]. unfold settle. rewrite Hch.
    cbn [perform].
    pose proof (Hall (peerConnection (manager w)) c (or_introl eq_refl)) as Hc.
    apply andb_true_iff in Hc as [_ Hc]. rewrite Hc.
    cbn [resume]. unfold replay, elements.
    cbn [retired manager set_manager]. rewrite Nat.eqb_refl.
    cbn [set_peerConnection pendingCandidates]. rewrite Hq.
    replace (done ++ c :: (c' :: rest) ++ bad :: post)
      with ((done ++ [c]) ++ c' :: rest ++ bad :: post)
      by now rewrite <- app_assoc.
    replace (S (length done)) with (length (done ++ [c]) + 0)%nat
      by (rewrite length_app; cbn; lia).
    rewrite lookup_app_r by lia.
    replace (length (done ++ [c]) + 0 - length (done ++ [c]))%nat with 0%nat
      by lia.
    cbn [lookup list_lookup].
    pose proof (Hall (peerConnection (manager w)) c'
                  (or_intror (or_introl eq_refl))) as Hc'.
    apply andb_true_iff in Hc' as [Hc' _]. rewrite Hc'.
    set (w1 := await _ _ _).
    rewrite (IH (done ++ [c]) c' w1).
    + cbn. unfold with_candidates. cbn. rewrite <- !app_assoc. reflexivity.
    + cbn. rewrite Hq. now rewrite <- app_assoc.
    + cbn. rewrite length_app. cbn. do 3 f_equal. lia.
    + intros pc x Hin. apply Hall. now right.
    + exact Hbad.
Qed.

(** X22: a queued candidate that cannot be constructed blocks the queue.
    When the array holds a candidate [new RTCIceCandidate] refuses (one with
    neither [sdpMid] nor [sdpMLineIndex]) and a description signal arrives
    that the agent accepts, the candidates before it are handed to the
    agent, the error is logged once, and the call ends there: the remote
    description is set, the array is left as it was, the candidates behind
    the refused one are not applied, and an answer is not made.  Nothing is
    in flight afterwards, so the next description signal finds the same
    array and hands the same candidates to the agent again. *)
Theorem refused_candidate_blocks_queue (ag : agent) (m : WebRTCManager)
    (pre : list RTCIceCandidateInit) (bad : RTCIceCandidateInit)
    (post : list RTCIceCandidateInit) (d : SignalData)
    (desc : RTCSessionDescription) :
  description_signal d = Some desc ->
  accepts_remote ag (peerConnection m) desc = true ->
  pendingCandidates m = pre ++ bad :: post ->
  takes_all ag pre ->
  constructible bad = false ->
  run ag (idle m)
    (SignalArrives d :: repeat OperationSettles (S (length pre))) =
    (idle (with_candidates pre (described desc m)), [signal_error]).
Proof.
  intros Hd Hacc Hq Hall Hbad. rewrite run_cons. cbn [step].
  assert (Hs : onSignal (idle m) d =
            (await (SetRemoteDescription desc)
               (StartReplay (description_type d)) (idle m), [])).
  { unfold onSignal, description_signal, description_type in *.
    destruct (sig_type d); try discriminate; now injection Hd as <-. }
  rewrite Hs. cbn [repeat]. rewrite run_cons. cbn [step]. unfold settle.
  cbn. rewrite Hacc. cbn. unfold replay, elements. cbn. rewrite Hq.
  destruct pre as [|c rest].
  - cbn. rewrite Hbad. cbn. rewrite run_nil. unfold idle, with_candidates.
    cbn. now rewrite app_nil_r.
  - cbn [app lookup list_lookup].
    pose proof (Hall (peerConnection m) c (or_introl eq_refl)) as Hc.
    apply andb_true_iff in Hc as [Hc _]. rewrite Hc. cbn [fst snd app].
    match goal with
    | |- context [run ag ?w0 _] => set (w := w0)
    end.
    assert (Hq' : pendingCandidates (manager w) =
                  [] ++ c :: rest ++ bad :: post) by exact Hq.
    pose proof (replay_stops ag (description_type d) bad post rest [] c w
                  Hq' eq_refl Hall Hbad) as Hrun.
    cbn [length repeat] in Hrun |- *. rewrite Hrun.
    subst w. unfold with_candidates, idle. cbn. reflexivity.
Qed.

(** Three candidates are queued, of which the second cannot be constructed;
    the offer arrives twice: the first candidate is handed to the agent
    twice and the third never. *)
Lemma refused_candidate_blocks_queue_witness :
  let m :=
    set_pendingCandidates [host_candidate; bare_candidate; srflx_candidate]
      new_manager in
  let once :=
    SignalArrives offer_signal :: repeat OperationSettles 2 in
  remoteCandidates
    (peerConnection (manager (fst (run willing_agent (idle m)
                                     (once ++ once))))) =
    [host_candidate; host_candidate].
Proof.
  intros m once. rewrite run_app. subst once.
  assert (Hall : takes_all willing_agent [host_candidate])
    by (intros pc c [<-|[]]; reflexivity).
  pose proof (refused_candidate_blocks_queue willing_agent m [host_candidate]
                bare_candidate [srflx_candidate] offer_signal
                {| sd_type := offer; sd_sdp := Some "v=0"%string |}
                eq_refl eq_refl eq_refl Hall eq_refl) as H1.
  cbn [length] in H1. rewrite H1.
  pose proof (refused_candidate_blocks_queue willing_agent
                (with_candidates [host_candidate]
                   (described {| sd_type := offer;
                                 sd_sdp := Some "v=0"%string |} m))
                [host_candidate] bare_candidate [srflx_candidate]
                offer_signal
                {| sd_type := offer; sd_sdp := Some "v=0"%string |}
                eq_refl eq_refl eq_refl Hall eq_refl) as H2.
  cbn [length] in H2. rewrite H2. reflexivity.
Defined.


(** *** Socket connection and rooms *)

(** How a promise of the class settles. *)
Inductive promise (A : Type) : Type :=
  | Resolved (a : A)
  | Rejected (reason : string)
  | Pending.

Arguments Resolved {A} a.
Arguments Rejected {A} reason.
Arguments Pending {A}.

(** What becomes of a connection attempt: the [connect] event arrives, or
    the 15 s timer fires first.  ([connect_error] notifications on the way
    are left out.) *)
Inductive connect_outcome : Type := ConnectOk | ConnectTimeout.

Definition connectSocket (m : WebRTCManager) (o : connect_outcome)
    : WebRTCManager * list event * bool :=
  let attempt :=
    match o with
    | ConnectOk =>
        (set_socket (Some {| connected := true |}) m,
         [SocketConnect; SetTimeout 15000], true)
    | ConnectTimeout =>
        (set_socket (Some {| connected := false |}) m,
         [SocketConnect; SetTimeout 15000;
          ConsoleError "[Socket] Connection timeout"; StatusChange "error"],
         false)
    end in
  match socket m with
  | Some s => if connected s then (m, [], true) else attempt
  | None => attempt
  end.

(** [createRoom]; [response] is the room code of the server's reply, if a
    reply arrives. *)
Definition createRoom (m : WebRTCManager) (o : connect_outcome)
    (response : option string)
    : WebRTCManager * list event * promise string :=
  if truthy (roomCode m) then (m, [], Resolved (roomCode m))
  else
    let '(m1, out1, ok) := connectSocket m o in
    if negb ok then (m1, out1, Rejected "Socket connection timeout")
    else
      let m2 := set_isHost true m1 in
      match response with
      | None => (m2, out1 ++ [SocketEmit EmitCreateRoom], Pending)
      | Some code =>
          (set_roomCode code m2,
           out1 ++ [SocketEmit EmitCreateRoom; RoomCreated code;
                    StatusChange "waiting"],
           Resolved code)
      end.

(** The server's reply to [join-room]: [{ error?: string; success?: boolean }]. *)
Record join_response : Type := {
  jr_error : option string;
  jr_success : option bool
}.

(** What becomes of a join request: the reply arrives before the 10 s
    timer, or the timer fires first (and a reply may still arrive later). *)
Inductive join_outcome : Type :=
  | JoinReplied (r : join_response)
  | JoinTimedOut (late : option join_response).

(** The body of the reply callback, but for [resolve]. *)
Definition onJoinReply (r : join_response) : list event :=
  if truthy_opt (jr_error r) then
    [ConsoleError ("[Room] Join error: " +:+ default "" (jr_error r));
     StatusChange "error"]
  else [StatusChange "connecting"].

Definition joinRoom (m : WebRTCManager) (code : string) (o : connect_outcome)
    (j : join_outcome) : WebRTCManager * list event * promise bool :=
  let '(m1, out1, ok) := connectSocket m o in
  if negb ok then (m1, out1, Rejected "Socket connection timeout")
  else
    let m2 := set_roomCode code (set_isHost false m1) in
    let asked := [SetTimeout 10000; SocketEmit (EmitJoinRoom code)] in
    match j with
    | JoinReplied r =>
        (m2, out1 ++ asked ++ onJoinReply r,
         Resolved (negb (truthy_opt (jr_error r))))
    | JoinTimedOut late =>
        (m2,
         out1 ++ asked
           ++ [ConsoleError "[Room] Join timeout - no response from server";
               StatusChange "error"]
           ++ match late with
              | Some r => onJoinReply r
              | None => []
              end,
         Resolved false)
    end.

(** The statuses handed to [onStatusChange], in order. *)
Fixpoint statuses (out : list event) : list string :=
  match out with
  | [] => []
  | StatusChange s :: rest => s :: statuses rest
  | _ :: rest => statuses rest
  end.

(** What the client put on its socket, in order. *)
Fixpoint emitted (out : list event) : list client_emit :=
  match out with
  | [] => []
  | SocketEmit e :: rest => e :: emitted rest
  | _ :: rest => emitted rest
  end.

(** The two error replies of the server and its success reply. *)
Definition room_not_found : join_response :=
  {| jr_error := Some "Room not found"%string; jr_success := None |}.

Definition room_is_full : join_response :=
  {| jr_error := Some "Room is full"%string; jr_success := None |}.

Definition join_success : join_response :=
  {| jr_error := None; jr_success := Some true |}.

(** The three ways a join fails. *)
Definition join_failures : list join_outcome :=
  [JoinReplied room_not_found; JoinReplied room_is_full; JoinTimedOut None].

Definition joinResult (m : WebRTCManager) (code : string) (j : join_outcome)
    : promise bool :=
  snd (joinRoom m code ConnectOk j).

(** The claim about the result: different failures give different
    results. *)
Definition join_result_distinguishes (m : WebRTCManager) (code : string)
    : Prop :=
  forall j1 j2,
    In j1 join_failures -> In j2 join_failures -> j1 <> j2 ->
    joinResult m code j1 <> joinResult m code j2.

(** C6, as stated, fails: for an unknown room and for a full room the
    promise resolves to the same value. *)
Lemma join_failures_look_alike :
  ~ join_result_distinguishes new_manager "482913".
Proof.
  intros H.
  apply (H (JoinReplied room_not_found) (JoinReplied room_is_full)).
  - left; reflexivity.
  - right; left; reflexivity.
  - discriminate.
  - reflexivity.
Qed.

Lemma statuses_app (a b : list event) :
  statuses (a ++ b) = statuses a ++ statuses b.
Proof.
  induction a as [|e a IH]; simpl; [reflexivity|].
  destruct e; simpl; now rewrite ?IH.
Qed.

Lemma emitted_app (a b : list event) :
  emitted (a ++ b) = emitted a ++ emitted b.
Proof.
  induction a as [|e a IH]; simpl; [reflexivity|].
  destruct e; simpl; now rewrite ?IH.
Qed.

(** When the connection comes up (or is up already), [connectSocket]
    resolves, leaves the socket connected, and reports no status and emits
    nothing. *)
Lemma connectSocket_ok (m : WebRTCManager) :
  exists m1 out1,
    connectSocket m ConnectOk = (m1, out1, true)
    /\ statuses out1 = [] /\ emitted out1 = []
    /\ socket m1 = Some {| connected := true |}
    /\ (m1 = m \/ m1 = set_socket (Some {| connected := true |}) m).
Proof.
  unfold connectSocket. destruct (socket m) as [[[|]]|] eqn:Hs.
  - exists m, []. repeat split; [exact Hs | now left].
  - eexists _, _. repeat split. now right.
  - eexists _, _. repeat split. now right.
Qed.

Lemma onJoinReply_emits_nothing (r : join_response) :
  emitted (onJoinReply r) = [].
Proof. unfold onJoinReply. now destruct (truthy_opt (jr_error r)). Qed.

(** C6 (amended).  Once the socket is connected, [joinRoom] arms a 10 s
    timer, emits [join-room], and its promise settles on the reply or on the
    timer, whichever comes first, to a boolean: [true] exactly when a reply
    without error arrived in time, [false] for every failure.  Room not
    found, room full and timeout all give [false] with status [error]; the
    result does not tell them apart. *)
Theorem joinRoom_resolves_to_boolean (m : WebRTCManager) (code : string)
    (j : join_outcome) :
  let '(m', out, result) := joinRoom m code ConnectOk j in
  (exists b, result = Resolved b
     /\ (b = true <->
         exists r, j = JoinReplied r /\ truthy_opt (jr_error r) = false))
  /\ In (SetTimeout 10000) out
  /\ emitted out = [EmitJoinRoom code]
  /\ roomCode m' = code /\ isHost m' = false
  /\ (In j join_failures ->
      result = Resolved false /\ statuses out = ["error"%string]).
Proof.
  unfold joinRoom.
  destruct (connectSocket_ok m) as (m1 & out1 & -> & Hst & Hem & _ & _).
  cbn [negb]. destruct j as [r|late].
  - split; [|split; [|split; [|split; [|split]]]].
    + exists (negb (truthy_opt (jr_error r))). split; [reflexivity|]. split.
      * intros H. exists r. split; [reflexivity|].
        now destruct (truthy_opt (jr_error r)).
      * intros (r' & E & H). injection E as <-. now rewrite H.
    + apply in_or_app. right. left. reflexivity.
    + rewrite emitted_app, Hem. cbn [app emitted].
      now rewrite onJoinReply_emits_nothing.
    + reflexivity.
    + reflexivity.
    + intros [E|[E|[E|[]]]]; try discriminate E; injection E as <-;
        rewrite statuses_app, Hst; split; reflexivity.
  - split; [|split; [|split; [|split; [|split]]]].
    + exists false. split; [reflexivity|]. split; [discriminate|].
      intros (r & E & _). discriminate E.
    + apply in_or_app. right. left. reflexivity.
    + rewrite emitted_app, Hem. cbn [app emitted].
      destruct late as [r|]; [|reflexivity].
      now rewrite onJoinReply_emits_nothing.
    + reflexivity.
    + reflexivity.
    + intros [E|[E|[E|[]]]]; try discriminate E; injection E as <-.
      rewrite statuses_app, Hst. split; reflexivity.
Qed.

(** When the connection attempt times out instead, [joinRoom] rejects
    before it touches the role or the room code. *)
Lemma joinRoom_rejects_without_socket (m : WebRTCManager) (code : string)
    (j : join_outcome) :
  socket m = None ->
  let '(m', out, result) := joinRoom m code ConnectTimeout j in
  result = Rejected "Socket connection timeout"
  /\ roomCode m' = roomCode m /\ isHost m' = isHost m
  /\ emitted out = [] /\ statuses out = ["error"%string].
Proof.
  intros Hs. unfold joinRoom, connectSocket. rewrite Hs. repeat split.
Qed.

(** *** [createRoom] *)

(** C10.  With a room code already set, [createRoom] returns that code and
    does nothing else: no connection attempt, nothing emitted, no field
    changed.  With no room code set, once the socket connects and the server
    replies with a code, the call has connected the socket, marked the
    manager as host, emitted [create-room] once, stored the code and
    resolved with it; a second call then returns the same code without
    contacting the server. *)
Theorem createRoom_returns_existing_code (m : WebRTCManager) :
  (forall o response,
     roomCode m <> ""%string ->
     createRoom m o response = (m, [], Resolved (roomCode m)))
  /\ (forall code,
       roomCode m = ""%string ->
       let '(m', out, result) := createRoom m ConnectOk (Some code) in
       result = Resolved code
       /\ roomCode m' = code /\ isHost m' = true
       /\ socket m' = Some {| connected := true |}
       /\ emitted out = [EmitCreateRoom]
       /\ (code <> ""%string ->
           forall o response,
             createRoom m' o response = (m', [], Resolved code))).
Proof.
  split.
  - intros o response Hcode. unfold createRoom.
    apply truthy_true in Hcode. now rewrite Hcode.
  - intros code Hcode. unfold createRoom. rewrite Hcode. cbn [truthy].
    destruct (connectSocket_ok m) as (m1 & out1 & -> & Hst & Hem & Hsock & _).
    cbn [negb]. repeat split.
    + exact Hsock.
    + rewrite emitted_app, Hem. reflexivity.
    + intros Hne o response. cbn [roomCode set_roomCode].
      apply truthy_true in Hne. now rewrite Hne.
Qed.

Lemma createRoom_returns_existing_code_witness :
  createRoom (set_roomCode "482913" new_manager) ConnectTimeout None =
    (set_roomCode "482913" new_manager, [], Resolved "482913"%string).
Proof.
  apply (proj1 (createRoom_returns_existing_code
                  (set_roomCode "482913" new_manager))).
  discriminate.
Defined.

(** *** More on the transfer: chunks, interrupted sends, stray frames *)

(** Every chunk cut from the file holds at least one byte and at most
    [chunkSize] bytes. *)
Lemma chunksFrom_sizes (fuel : nat) :
  forall (content : bytes) (offset : Z),
    0 <= offset ->
    Forall (fun c => 0 < byteLength c <= chunkSize)
      (chunksFrom fuel content offset).
Proof.
  pose proof chunkSize_pos as Hcs.
  induction fuel as [|fuel IH]; intros content offset Hoff.
  - constructor.
  - cbn [chunksFrom].
    destruct (Z.leb_spec (byteLength content) offset) as [|Hlt];
      [constructor|].
    constructor; [|apply IH; lia].
    destruct (Z.le_gt_cases (byteLength content) (offset + chunkSize)).
    + rewrite slice_last by lia. unfold byteLength in *.
      rewrite length_drop. lia.
    + rewrite slice_inner by lia. unfold byteLength in *.
      rewrite length_take_le by (rewrite length_drop; lia). lia.
Qed.

(** Their number is the file size divided by [chunkSize], rounded up. *)
Lemma chunksFrom_count (fuel : nat) :
  forall (content : bytes) (offset : Z),
    0 <= offset ->
    byteLength content - offset <= chunkSize * Z.of_nat fuel ->
    length (chunksFrom fuel content offset) =
      Z.to_nat ((byteLength content - offset + chunkSize - 1) / chunkSize).
Proof.
  pose proof chunkSize_pos as Hcs.
  induction fuel as [|fuel IH]; intros content offset Hoff Hfuel.
  - cbn [chunksFrom length].
    pose proof (Z.div_lt_upper_bound
      (byteLength content - offset + chunkSize - 1) chunkSize 1 Hcs). lia.
  - cbn [chunksFrom].
    destruct (Z.leb_spec (byteLength content) offset) as [Hge|Hlt].
    + cbn [length].
      pose proof (Z.div_lt_upper_bound
        (byteLength content - offset + chunkSize - 1) chunkSize 1 Hcs). lia.
    + cbn [length]. rewrite IH by lia.
      replace (byteLength content - offset + chunkSize - 1)
        with (byteLength content - (offset + chunkSize) + chunkSize - 1
              + 1 * chunkSize) by lia.
      rewrite Z.div_add by lia.
      assert (0 <= (byteLength content - (offset + chunkSize) + chunkSize - 1)
                     / chunkSize) by (apply Z.div_pos; lia).
      lia.
Qed.

(** Together they are the content from [offset] on. *)
Lemma chunksFrom_concat (fuel : nat) (content : bytes) (offset : Z) :
  0 <= offset ->
  byteLength content - offset <= chunkSize * Z.of_nat fuel ->
  concat (chunksFrom fuel content offset) = drop (Z.to_nat offset) content.
Proof.
  intros Hoff Hfuel.
  destruct (Z.le_gt_cases (byteLength content) offset) as [Hge|Hlt].
  - rewrite drop_ge by (unfold byteLength in *; lia).
    destruct fuel; [reflexivity|]. cbn [chunksFrom].
    destruct (Z.leb_spec (byteLength content) offset); [reflexivity | lia].
  - destruct (chunksFrom_shape fuel content offset) as (fs & lst & E & Hc & _);
      [lia | lia |].
    now rewrite E.
Qed.

(** X3: the frames of a send.  Over a channel that stays open, [sendFile]
    puts on the channel the metadata frame and then the content cut into
    binary frames in order: the file size divided by 16384, rounded up, in
    number, none empty, none above 16384 bytes. *)
Theorem sendFile_frames (ms : WebRTCManager) (ch : RTCDataChannel)
    (file : File) (metadataLength : Z) (env : transport) :
  dataChannel ms = Some ch -> is_open ch = true -> always_open env ->
  exists chunks,
    framesSent (snd (fst (sendFile ms file metadataLength env))) =
      Text (Metadata (file_name file) (file_size file) (file_type file))
        :: map Binary chunks
    /\ concat chunks = file_content file
    /\ Z.of_nat (length chunks) = (file_size file + chunkSize - 1) / chunkSize
    /\ Forall (fun c => 0 < byteLength c <= chunkSize) chunks.
Proof.
  intros Hdc Hopen Henv. pose proof chunkSize_pos as Hcs.
  exists (chunksFrom (iterations file) (file_content file) 0).
  destruct (iterations_enough file) as [Hit Hfuel].
  assert (Hfuel' : byteLength (file_content file) - 0
                   <= chunkSize * Z.of_nat (iterations file))
    by (unfold file_size, chunkSize in *; lia).
  pose proof (byteLength_nonneg (file_content file)) as Hnn.
  split; [|split; [|split]].
  - unfold sendFile. rewrite Hdc, Hopen. cbn [negb].
    pose proof (sendNextChunk_completes (iterations file) env file 0%nat 0
      (channel_send ch metadataLength) Henv Hopen Hit Hfuel) as Hs.
    destruct (sendNextChunk (iterations file) env file 0 0 _)
      as [[ch' out] res].
    destruct Hs as (_ & _ & Hfr). cbn [fst snd framesSent]. now rewrite Hfr.
  - rewrite chunksFrom_concat by lia. reflexivity.
  - rewrite chunksFrom_count by lia. unfold file_size.
    rewrite Z.sub_0_r. apply Z2Nat.id. apply Z.div_pos; lia.
  - apply chunksFrom_sizes. lia.
Qed.

Lemma sendFile_frames_witness :
  exists chunks,
    framesSent (snd (fst (sendFile connected_manager a_txt 63
                            fast_transport))) =
      Text (Metadata "a.txt" 5 "text/plain") :: map Binary chunks
    /\ concat chunks = five_bytes.
Proof.
  destruct (sendFile_frames connected_manager open_channel a_txt 63
              fast_transport eq_refl eq_refl (fun _ => eq_refl))
    as (chunks & Hf & Hc & _).
  exists chunks. split; [exact Hf | exact Hc].
Defined.

(** Whatever the transport does, the binary frames the closure hands to the
    channel are the first chunks of the rest of the file: all of them when it
    reaches completion, and not all of them when it stops because the channel
    is no longer open. *)
Lemma sendNextChunk_frames (fuel : nat) :
  forall (env : transport) (file : File) (t : nat) (offset : Z)
         (ch : RTCDataChannel),
    (0 < fuel)%nat ->
    file_size file - offset <= chunkSize * (Z.of_nat fuel - 1) ->
    let '(_, out, res) := sendNextChunk fuel env file t offset ch in
    exists unsent,
      framesSent out ++ map Binary unsent =
        map Binary (chunksFrom fuel (file_content file) offset)
      /\ ((res = SendCompleted /\ unsent = [])
          \/ (res = SendAborted /\ unsent <> []
              /\ ~ In (Progress (Num 100) "completed") out
              /\ errorsReported out = [])).
Proof.
  pose proof chunkSize_pos as Hcs.
  induction fuel as [|fuel IH]; intros env file t offset ch Hpos Hfuel.
  - lia.
  - rewrite sendNextChunk_S. cbn [chunksFrom]. fold (file_size file).
    destruct (Z.leb_spec (file_size file) offset) as [Hdone|Hmore].
    { exists []. split; [reflexivity|]. now left. }
    cbv zeta. destruct (negb _).
    { eexists (_ :: _). split; [reflexivity|]. right.
      repeat split; [discriminate | intros []]. }
    assert (Hf : (0 < fuel)%nat) by lia.
    destruct (_ <? highWaterMark).
    + specialize (IH env file (S t) (offset + chunkSize)
        (channel_send (suspend (env t) ch)
           (byteLength (slice (file_content file) offset
                          (offset + chunkSize))))).
      destruct (sendNextChunk fuel env file (S t) _ _) as [[ch3 out] res].
      destruct IH as (unsent & E & H); try lia.
      exists unsent. cbn [framesSent errorsReported map app].
      split; [now rewrite E|].
      destruct H as [H|(Hr & Hu & Hnc & Hne)]; [now left|].
      right. repeat split; try assumption.
      intros [D|[D|Hin]]; try discriminate D. now apply Hnc.
    + specialize (IH env file (S (S t)) (offset + chunkSize)
        (suspend (env (S t))
          (channel_send (suspend (env t) ch)
            (byteLength (slice (file_content file) offset
                           (offset + chunkSize)))))).
      destruct (sendNextChunk fuel env file (S (S t)) _ _) as [[ch3 out] res].
      destruct IH as (unsent & E & H); try lia.
      exists unsent. cbn [framesSent errorsReported map app].
      split; [now rewrite E|].
      destruct H as [H|(Hr & Hu & Hnc & Hne)]; [now left|].
      right. repeat split; try assumption.
      intros [D|[D|[D|Hin]]]; try discriminate D. now apply Hnc.
Qed.

(** A transfer of which the last frames are missing leaves the receiver
    without an artifact. *)
Lemma receive_truncated (m : WebRTCManager) (name : string) (size : Z)
    (mime : string) (fs : list bytes) (lst : bytes)
    (delivered missing : list message) :
  total fs < size ->
  delivered ++ missing =
    Text (Metadata name size mime) :: map Binary (fs ++ [lst]) ->
  missing <> [] ->
  filesReceived (snd (receive m delivered)) = [].
Proof.
  intros Hlt E Hmiss.
  destruct delivered as [|f delivered]; [reflexivity|].
  cbn [app] in E. injection E as -> E.
  assert (Hd : delivered = map Binary (take (length delivered) fs)).
  { assert (Hlen : (length delivered <= length fs)%nat).
    { apply (f_equal (@length _)) in E.
      rewrite !length_app, length_map, length_app in E. cbn [length] in E.
      destruct missing; [congruence|]. cbn [length] in E. lia. }
    apply (f_equal (take (length delivered))) in E.
    rewrite take_app_length in E.
    rewrite firstn_map, take_app_le in E by exact Hlen. exact E. }
  rewrite Hd. cbn [receive]. rewrite handle_metadata.
  pose proof (receive_pending (take (length delivered) fs)
    (set_receivedSize 0
       (set_receiveBuffer [] (set_expected size name mime m)))) as H.
  destruct (receive _ (map Binary _)) as [m' out].
  cbn [snd app filesReceived fst] in *. apply H. cbn.
  assert (total (take (length delivered) fs) <= total fs); [|lia].
  rewrite <- (take_drop (length delivered) fs) at 2.
  unfold total. rewrite concat_app, byteLength_app.
  pose proof (byteLength_nonneg (concat (drop (length delivered) fs))). lia.
Qed.

(** X2: the receiver gets the whole file or nothing.  Whatever the transport
    does while a non-empty file is being sent, and whichever leading part of
    the frames handed to the channel reaches the peer before the channel
    goes down, the receiver hands over exactly the file when the send
    completed and every frame arrived, and nothing at all otherwise: a
    truncated file is never emitted.  A send that stops because the channel
    is no longer open reports neither completion nor an error. *)
Theorem receiver_gets_whole_file_or_nothing (ms : WebRTCManager)
    (ch : RTCDataChannel) (file : File) (metadataLength : Z)
    (env : transport) (mr : WebRTCManager) (delivered lost : list message) :
  dataChannel ms = Some ch -> is_open ch = true -> 0 < file_size file ->
  let '(_, out, res) := sendFile ms file metadataLength env in
  framesSent out = delivered ++ lost ->
  let files := filesReceived (snd (receive mr delivered)) in
  (res = SendCompleted /\ lost = []
   /\ files = [({| blob_data := file_content file;
                   blob_type := file_type file |}, file_name file)])
  \/ ((lost <> []
       \/ (res = SendAborted
           /\ ~ In (Progress (Num 100) "completed") out
           /\ errorsReported out = []))
      /\ files = []).
Proof.
  intros Hdc Hopen Hsize. unfold sendFile. rewrite Hdc, Hopen. cbn [negb].
  destruct (iterations_enough file) as [Hit Hfuel].
  pose proof (sendNextChunk_frames (iterations file) env file 0%nat 0
    (channel_send ch metadataLength) Hit Hfuel) as H.
  destruct (sendNextChunk (iterations file) env file 0 0 _) as [[ch' out] res].
  destruct H as (unsent & Hfr & H). cbn [framesSent]. intros Hd.
  destruct (chunksFrom_shape (iterations file) (file_content file) 0)
    as (fs & lst & E & Hc & Hl & Hg).
  { unfold file_size in Hsize. lia. }
  { unfold file_size, chunkSize in *. lia. }
  rewrite E in Hfr. unfold file_size in *.
  assert (Hall : delivered ++ (lost ++ map Binary unsent) =
                 Text (Metadata (file_name file) (byteLength (file_content file))
                         (file_type file)) :: map Binary (fs ++ [lst])).
  { rewrite app_assoc, <- Hd. cbn [app]. now rewrite Hfr. }
  assert (Hlt : total fs < byteLength (file_content file)) by lia.
  destruct lost as [|l lost].
  - destruct H as [[-> ->]|(-> & Hu & Hnc & Hne)].
    + left. repeat split.
      cbn [app map] in Hall. rewrite app_nil_r in Hall. rewrite Hall.
      destruct (receive_transfer mr (file_name file)
                  (byteLength (file_content file)) (file_type file) fs lst)
        as [Hf _]; [lia | lia |].
      cbv zeta in Hf. rewrite Hf, Hc. reflexivity.
    + right. split.
      * right. repeat split; try assumption.
        cbn [errorsReported]. intros [D|Hin]; [discriminate D|].
        now apply Hnc.
      * apply (receive_truncated mr _ _ _ fs lst _ _
                              Hlt Hall).
        cbn [app]. destruct unsent; [congruence | discriminate].
  - right. split; [left; discriminate|].
    apply (receive_truncated mr _ _ _ fs lst _ _
                          Hlt Hall).
    discriminate.
Qed.

(** A transport that closes the channel during the second suspension. *)
Definition failing_transport : transport :=
  fun t => {| drained := highWaterMark;
              stays_open := (t <? 1)%nat |}.

(** The first chunk of a two-chunk file is handed to the channel, the
    channel closes, and the receiver is left with the metadata and that
    chunk: it hands over nothing. *)
Lemma receiver_gets_whole_file_or_nothing_witness :
  filesReceived
    (snd (receive new_manager
       [Text (Metadata "big.bin" 16385 "application/octet-stream");
        Binary (repeat x00 (Z.to_nat chunkSize))])) = [].
Proof.
  pose proof (receiver_gets_whole_file_or_nothing connected_manager
    open_channel two_chunk_file 83 failing_transport new_manager
    [Text (Metadata "big.bin" 16385 "application/octet-stream");
     Binary (repeat x00 (Z.to_nat chunkSize))] []
    eq_refl eq_refl eq_refl) as H.
  destruct (sendFile connected_manager two_chunk_file 83 failing_transport)
    as [[m out] res] eqn:E.
  assert (Hout : framesSent out =
    [Text (Metadata "big.bin" 16385 "application/octet-stream");
     Binary (repeat x00 (Z.to_nat chunkSize))]).
  { change out with (snd (fst (m, out, res))). rewrite <- E.
    vm_compute. reflexivity. }
  assert (Hres : res = SendAborted).
  { change res with (snd (m, out, res)). rewrite <- E. vm_compute.
    reflexivity. }
  specialize (H Hout). cbv zeta in H.
  destruct H as [(Hc & _)|(_ & Hf)]; [congruence | exact Hf].
Defined.

(** Frames that are neither metadata nor binary data: text that parses to
    something else, text that parses to [null], text that does not parse,
    and data that is neither a string nor an [ArrayBuffer]. *)
Definition is_noise (f : message) : bool :=
  match f with
  | Text JsonOther | Text JsonNull | Text JsonInvalid | OtherData => true
  | Text (Metadata _ _ _) | Binary _ => false
  end.

(** The string frames on which the [try] block throws. *)
Definition is_logged (f : message) : bool :=
  match f with
  | Text JsonNull | Text JsonInvalid => true
  | _ => false
  end.

(** X6: control frames that are not metadata do not disturb a transfer.
    String frames that do not parse, string frames that parse to something
    other than metadata ([null] included), and frames that are neither
    strings nor array buffers leave the receiver's state, the artifacts it
    hands over and the progress it reports exactly as if they had not
    arrived; each string that does not parse or parses to [null] is reported
    once as an error, and nothing else is. *)
Theorem receive_ignores_other_frames (frames : list message) :
  forall m : WebRTCManager,
    let clean := List.filter (fun f => negb (is_noise f)) frames in
    fst (receive m frames) = fst (receive m clean)
    /\ filesReceived (snd (receive m frames)) =
       filesReceived (snd (receive m clean))
    /\ progressValues (snd (receive m frames)) =
       progressValues (snd (receive m clean))
    /\ length (errorsReported (snd (receive m frames))) =
       length (List.filter is_logged frames).
Proof.
  assert (Hother : forall m, handleDataMessage m (Text JsonOther) = (m, []))
    by reflexivity.
  assert (Hdata : forall m, handleDataMessage m OtherData = (m, []))
    by reflexivity.
  assert (Hnull : forall m, handleDataMessage m (Text JsonNull) =
            (m, [ConsoleError "[Transfer] Metadata parse error:"]))
    by reflexivity.
  assert (Hinv : forall m, handleDataMessage m (Text JsonInvalid) =
            (m, [ConsoleError "[Transfer] Metadata parse error:"]))
    by reflexivity.
  assert (Hlogged : forall m f,
            handleDataMessage m f =
              (m, [ConsoleError "[Transfer] Metadata parse error:"]) ->
            is_noise f = true -> is_logged f = true ->
            forall frames,
              (let clean := List.filter (fun f => negb (is_noise f)) frames in
               fst (receive m frames) = fst (receive m clean)
               /\ filesReceived (snd (receive m frames)) =
                  filesReceived (snd (receive m clean))
               /\ progressValues (snd (receive m frames)) =
                  progressValues (snd (receive m clean))
               /\ length (errorsReported (snd (receive m frames))) =
                  length (List.filter is_logged frames)) ->
              (let clean :=
                 List.filter (fun f => negb (is_noise f)) (f :: frames) in
               fst (receive m (f :: frames)) = fst (receive m clean)
               /\ filesReceived (snd (receive m (f :: frames))) =
                  filesReceived (snd (receive m clean))
               /\ progressValues (snd (receive m (f :: frames))) =
                  progressValues (snd (receive m clean))
               /\ length (errorsReported (snd (receive m (f :: frames)))) =
                  length (List.filter is_logged (f :: frames)))).
  { intros m f Hf Hn Hl frames0 IH. cbv zeta in *. cbn [List.filter].
    rewrite Hn, Hl. cbn [negb receive]. rewrite Hf.
    destruct (receive m frames0) as [m1 o1].
    destruct (receive m (List.filter _ frames0)) as [m2 o2].
    cbn [fst snd app filesReceived progressValues errorsReported length] in *.
    destruct IH as (-> & -> & -> & ->). repeat split. }
  induction frames as [|f frames IH]; intros m; [repeat split|].
  destruct f as [[name size mime| | |]|data|].
  - cbv zeta in *. cbn [List.filter is_noise negb is_logged receive].
    rewrite handle_metadata. specialize (IH
      (set_receivedSize 0
         (set_receiveBuffer [] (set_expected size name mime m)))).
    destruct (receive _ frames) as [m1 o1].
    destruct (receive _ (List.filter _ frames)) as [m2 o2].
    cbn [fst snd app filesReceived progressValues errorsReported] in *.
    destruct IH as (-> & -> & -> & ->). repeat split.
  - cbv zeta in *. cbn [List.filter is_noise negb is_logged receive].
    rewrite Hother. specialize (IH m).
    destruct (receive m frames) as [m1 o1].
    destruct (receive m (List.filter _ frames)) as [m2 o2].
    cbn [fst snd app] in *. exact IH.
  - apply Hlogged; [apply Hnull|reflexivity|reflexivity|apply IH].
  - apply Hlogged; [apply Hinv|reflexivity|reflexivity|apply IH].
  - cbv zeta in *. cbn [List.filter is_noise negb is_logged receive].
    assert (Hne : errorsReported (snd (handleDataMessage m (Binary data)))
                  = []).
    { unfold handleDataMessage. cbv zeta. now destruct (_ <=? _). }
    destruct (handleDataMessage m (Binary data)) as [m' o'].
    specialize (IH m').
    destruct (receive m' frames) as [m1 o1].
    destruct (receive m' (List.filter _ frames)) as [m2 o2].
    cbn [fst snd] in *. destruct IH as (-> & Hf & Hp & He).
    rewrite !filesReceived_app, !progressValues_app, !errorsReported_app.
    rewrite Hf, Hp, Hne. cbn [app]. rewrite He. repeat split.
  - cbv zeta in *. cbn [List.filter is_noise negb is_logged receive].
    rewrite Hdata. specialize (IH m).
    destruct (receive m frames) as [m1 o1].
    destruct (receive m (List.filter _ frames)) as [m2 o2].
    cbn [fst snd app] in *. exact IH.
Qed.

(** X7: binary frames outside a transfer.  Once the received byte count has
    reached the expected size (after a completed transfer, or on a new
    object where both are 0) and until the next metadata frame, every binary
    frame is handed over at once as an artifact of its own, under the name
    and type of the last metadata. *)
Theorem stray_frames_are_emitted_one_by_one (fs : list bytes) :
  forall m : WebRTCManager,
    expectedSize m <= receivedSize m ->
    receiveBuffer m = [] ->
    filesReceived (snd (receive m (map Binary fs))) =
      map (fun f => ({| blob_data := f; blob_type := expectedType m |},
                     expectedName m)) fs.
Proof.
  induction fs as [|f fs IH]; intros m Hdone Hbuf; [reflexivity|].
  pose proof (byteLength_nonneg f) as Hf.
  cbn [map receive]. rewrite handle_binary_complete by lia.
  specialize (IH (set_receiveBuffer []
    (set_receivedSize (receivedSize m + byteLength f)
       (set_receiveBuffer (receiveBuffer m ++ [f]) m)))).
  destruct (receive _ (map Binary fs)) as [m' out].
  cbn [snd app filesReceived] in *. rewrite IH by (simpl; lia || reflexivity).
  rewrite Hbuf. cbn [app concat]. rewrite app_nil_r. reflexivity.
Qed.

Lemma stray_frames_are_emitted_one_by_one_witness :
  filesReceived
    (snd (receive (fst (receive new_manager scenario_a_txt))
            (map Binary [five_bytes; eight_bytes]))) =
  [({| blob_data := five_bytes; blob_type := "text/plain" |}, "a.txt"%string);
   ({| blob_data := eight_bytes; blob_type := "text/plain" |}, "a.txt"%string)].
Proof.
  apply (stray_frames_are_emitted_one_by_one [five_bytes; eight_bytes]
           (fst (receive new_manager scenario_a_txt))).
  - vm_compute. discriminate.
  - reflexivity.
Defined.

(** X8: a new metadata frame discards the transfer in progress.  When a
    metadata frame arrives while an earlier transfer is still short of its
    declared size, the bytes buffered so far are dropped: nothing is handed
    over for the earlier transfer, and the artifact of the new transfer holds
    only the frames that came after the new metadata. *)
Theorem new_metadata_discards_partial_transfer (m : WebRTCManager)
    (name1 : string) (size1 : Z) (mime1 : string) (partial : list bytes)
    (name2 : string) (size2 : Z) (mime2 : string) (fs : list bytes)
    (lst : bytes) :
  total partial < size1 ->
  total fs < size2 ->
  size2 <= total fs + byteLength lst ->
  filesReceived
    (snd (receive m
       ((Text (Metadata name1 size1 mime1) :: map Binary partial)
          ++ Text (Metadata name2 size2 mime2) :: map Binary (fs ++ [lst]))))
  = [({| blob_data := concat (fs ++ [lst]); blob_type := mime2 |}, name2)].
Proof.
  intros Hp Hlt Hge. rewrite receive_app.
  change (receive m (Text (Metadata name1 size1 mime1) :: map Binary partial))
    with (let '(a, o) := handleDataMessage m (Text (Metadata name1 size1 mime1))
          in let '(b, o') := receive a (map Binary partial) in (b, o ++ o')).
  rewrite handle_metadata.
  destruct (receive_pending partial
    (set_receivedSize 0
       (set_receiveBuffer [] (set_expected size1 name1 mime1 m))))
    as [_ Hnone]; [simpl; lia|].
  destruct (receive _ (map Binary partial)) as [m1 o1]. cbn [snd] in Hnone.
  pose proof (receive_transfer m1 name2 size2 mime2 fs lst Hlt Hge) as H.
  cbv zeta in H.
  destruct (receive m1 (Text (Metadata name2 size2 mime2) :: _)) as [m2 o2].
  cbn [snd] in *. destruct H as [Hf _].
  rewrite filesReceived_app. cbn [app filesReceived].
  now rewrite Hnone, Hf.
Qed.

Lemma new_metadata_discards_partial_transfer_witness :
  filesReceived
    (snd (receive new_manager
       ((Text (Metadata "b.bin" 100 "application/octet-stream")
           :: map Binary [eight_bytes])
          ++ Text (Metadata "a.txt" 5 "text/plain")
               :: map Binary ([] ++ [five_bytes]))))
  = [({| blob_data := concat ([] ++ [five_bytes]);
         blob_type := "text/plain" |}, "a.txt"%string)].
Proof.
  apply (new_metadata_discards_partial_transfer new_manager "b.bin" 100
           "application/octet-stream" [eight_bytes] "a.txt" 5 "text/plain"
           [] five_bytes); vm_compute; congruence.
Defined.

(** *** The other handler of the relay mode *)

(** The handler of [peer-disconnected]. *)
Definition onPeerDisconnected (m : WebRTCManager)
    : WebRTCManager * list event :=
  (m, [StatusChange "disconnected"]).

(** X9: a join leaves its room code behind.  Whatever the outcome of
    [joinRoom] on a non-empty code, once the socket is connected the manager
    keeps that code with the guest role, and so a later [createRoom] on the
    same manager returns the joined code at once, without asking the server
    for a room. *)
Theorem createRoom_after_joinRoom (m : WebRTCManager) (code : string)
    (j : join_outcome) (o : connect_outcome) (response : option string) :
  code <> ""%string ->
  let '(m', _, _) := joinRoom m code ConnectOk j in
  roomCode m' = code /\ isHost m' = false
  /\ createRoom m' o response = (m', [], Resolved code).
Proof.
  intros Hcode. unfold joinRoom.
  destruct (connectSocket_ok m) as (m1 & out1 & -> & _).
  cbn [negb]. apply truthy_true in Hcode.
  destruct j as [r|late]; (split; [reflexivity|]); (split; [reflexivity|]);
    unfold createRoom; cbn [roomCode set_roomCode]; now rewrite Hcode.
Qed.

Lemma createRoom_after_joinRoom_witness :
  createRoom
    (fst (fst (joinRoom new_manager "000000" ConnectOk
                 (JoinReplied room_not_found))))
    ConnectOk (Some "482913"%string)
  = (fst (fst (joinRoom new_manager "000000" ConnectOk
                 (JoinReplied room_not_found))),
     [], Resolved "000000"%string).
Proof.
  pose proof (createRoom_after_joinRoom new_manager "000000"
    (JoinReplied room_not_found) ConnectOk (Some "482913"%string)
    ltac:(discriminate)) as H.
  destruct (joinRoom new_manager "000000" ConnectOk
              (JoinReplied room_not_found)) as [[m' out] res].
  exact (proj2 (proj2 H)).
Defined.

Lemma sendFile_progress_witness :
  last (progressValues
          (snd (fst (sendFile connected_manager a_txt 63 fast_transport))))
    = Some (Num 100).
Proof.
  pose proof (sendFile_progress connected_manager open_channel a_txt 63
    fast_transport eq_refl eq_refl (fun _ => eq_refl)) as H.
  destruct (sendFile connected_manager a_txt 63 fast_transport)
    as [[m out] res].
  exact (proj2 (proj2 H)).
Defined.

Lemma receive_progress_reaches_100_witness :
  exists p,
    last (progressValues
            (snd (receive new_manager
               (Text (Metadata "a.txt" 5 "text/plain")
                  :: map Binary ([] ++ [five_bytes])))))
      = Some p
    /\ is100 p.
Proof.
  apply (receive_progress_reaches_100 new_manager "a.txt" 5 "text/plain" []
           five_bytes); vm_compute; congruence.
Defined.

(** *** What a side of the relay handshake emits *)

Definition offer_of (sdp : string) : SignalData :=
  {| sig_type := sig_offer; sig_sdp := Some sdp; sig_candidate := None |}.

Definition answer_of (sdp : string) : SignalData :=
  {| sig_type := sig_answer; sig_sdp := Some sdp; sig_candidate := None |}.

(** The [guest-joined] listener left to itself: the data channel is
    created, the offer is made, set as local description and signalled. *)
Lemma guest_joined_runs (ag : agent) (m : WebRTCManager) (sdp : string) :
  cooperative ag -> create_offer ag (peerConnection m) = Some sdp ->
  run ag (idle m) [GuestJoins; OperationSettles; OperationSettles] =
    (idle
       (set_peerConnection
          {| remoteDescription := remoteDescription (peerConnection m);
             localDescription := Some {| sd_type := offer; sd_sdp := Some sdp |};
             remoteCandidates := remoteCandidates (peerConnection m) |}
          (set_dataChannel
             (Some {| readyState := connecting; bufferedAmount := 0 |}) m)),
     [SocketEmit (EmitSignal (roomCode m) (offer_of sdp));
      StatusChange "connecting"]).
Proof.
  intros (_ & Hlocal & _) Hoffer.
  rewrite run_cons. cbn [step]. unfold onGuestJoined. cbn.
  rewrite run_cons. cbn [step]. unfold settle. cbn. rewrite Hoffer. cbn.
  rewrite run_cons. cbn [step]. unfold settle. cbn. rewrite Hlocal. cbn.
  rewrite run_nil. reflexivity.
Qed.

(** The two fields the [icecandidate] handler and the emits read. *)
Definition same_socket (m m' : WebRTCManager) : Prop :=
  socket m' = socket m /\ roomCode m' = roomCode m.

(** A call that will emit nothing: one for an answer or for a candidate. *)
Definition quiet (k : continuation) : Prop :=
  match k with
  | StartReplay answer | NextReplay answer _ _ | CandidateAdded => True
  | _ => False
  end.

(** A call of the [signal] listener. *)
Definition of_signal (k : continuation) : Prop :=
  match k with
  | OfferCreated | OfferSet _ => False
  | _ => True
  end.

Definition is_offer (e : client_emit) : Prop :=
  match e with
  | EmitSignal _ d => sig_type d = sig_offer
  | _ => False
  end.

Lemma onIceCandidate_same (m m' : WebRTCManager)
    (c : option RTCIceCandidateInit) :
  same_socket m m' -> onIceCandidate m' c = onIceCandidate m c.
Proof. intros [Hs Hr]. unfold onIceCandidate. now rewrite Hs, Hr. Qed.

Ltac crush_step :=
  repeat first
    [ progress cbn in *
    | match goal with
      | |- context [match ?x with _ => _ end] => destruct x eqn:?
      | H : Forall _ (_ :: _) |- _ => apply Forall_cons in H as [? ?]
      | H : Forall _ (_ ++ _) |- _ => apply Forall_app in H as [? ?]
      | |- Forall _ (_ ++ _) => apply Forall_app; split
      | |- Forall _ (_ :: _) => apply List.Forall_cons
      | |- Forall _ [] => apply List.Forall_nil
      | |- _ /\ _ => split
      end
    | assumption | reflexivity | congruence | tauto ].

Lemma replay_answer_quiet (m0 : WebRTCManager) (a i : nat) (w : world) :
  same_socket m0 (manager w) ->
  Forall (fun x => quiet (snd x)) (chain w) ->
  same_socket m0 (manager (fst (replay answer a i w)))
  /\ Forall (fun x => quiet (snd x)) (chain (fst (replay answer a i w)))
  /\ emitted (snd (replay answer a i w)) = [].
Proof.
  intros Hsame Hq. unfold replay.
  destruct (elements w a !! i) as [c|].
  - destruct (constructible c); cbn;
      [|split; [exact Hsame|]; split; [exact Hq | reflexivity]].
    split; [exact Hsame|]. split; [|reflexivity].
    apply Forall_app. split; [exact Hq|]. now constructor.
  - cbn. split; [exact Hsame|]. split; [exact Hq | reflexivity].
Qed.

(** While no offer arrives and nobody joins, a side whose calls in flight
    are quiet emits its local candidates and nothing else. *)
Lemma step_quiet (ag : agent) (m0 : WebRTCManager) (w : world) (t : task) :
  same_socket m0 (manager w) ->
  Forall (fun x => quiet (snd x)) (chain w) ->
  t <> GuestJoins ->
  Forall (fun d => sig_type d <> sig_offer) (signals [t]) ->
  same_socket m0 (manager (fst (step ag w t)))
  /\ Forall (fun x => quiet (snd x)) (chain (fst (step ag w t)))
  /\ emitted (snd (step ag w t)) = emitted (announced m0 (gathered [t])).
Proof.
  intros Hsame Hq Ht Hsig. destruct w as [m r ch].
  cbn [manager chain] in Hsame, Hq.
  destruct t as [d| |c|]; [| congruence | |].
  - unfold step, onSignal, await, set_manager, same_socket in *.
    crush_step.
  - cbn. rewrite app_nil_r. rewrite (onIceCandidate_same m0 m c Hsame).
    split; [exact Hsame|]. split; [exact Hq | reflexivity].
  - unfold step, settle. cbn [chain].
    destruct ch as [|[op k] rest];
      [split; [exact Hsame|]; split; [exact Hq | reflexivity]|].
    apply Forall_cons in Hq as [Hk Hq]. cbn [snd] in Hk.
    cbn [manager retired chain].
    destruct (perform ag (peerConnection m) op) as [[pc value]|].
    + destruct k as [[|]|[|] a i| | | | |]; try solve [elim Hk];
        cbn [resume fst snd].
      * now apply replay_answer_quiet.
      * now apply replay_answer_quiet.
      * split; [exact Hsame|]. split; [exact Hq | reflexivity].
    + destruct k as [[|]|[|] a i| | | | |]; try solve [elim Hk];
        (split; [exact Hsame|]; split; [exact Hq | reflexivity]).
Qed.

Lemma only_candidates_emitted (ag : agent) (m0 : WebRTCManager)
    (tasks : list task) :
  forall w : world,
    same_socket m0 (manager w) ->
    Forall (fun x => quiet (snd x)) (chain w) ->
    no_guest_joins tasks ->
    Forall (fun d => sig_type d <> sig_offer) (signals tasks) ->
    emitted (snd (run ag w tasks)) = emitted (announced m0 (gathered tasks)).
Proof.
  induction tasks as [|t tasks IH]; intros w Hsame Hq Hng Hsig;
    [reflexivity|].
  rewrite run_cons. apply Forall_cons in Hng as [Ht Hng].
  rewrite signals_cons in Hsig. apply Forall_app in Hsig as [Hsig1 Hsig].
  destruct (step_quiet ag m0 w t Hsame Hq Ht) as (Hsame1 & Hq1 & He).
  { unfold signals. cbn [flat_map]. now rewrite app_nil_r. }
  destruct (step ag w t) as [w1 o1]. cbn [fst snd] in *.
  specialize (IH w1 Hsame1 Hq1 Hng Hsig).
  destruct (run ag w1 tasks) as [w2 o2]. cbn [snd] in *.
  rewrite emitted_app, He, IH, <- emitted_app, <- announced_app.
  now rewrite <- gathered_app.
Qed.

Lemma replay_emits_nothing (ty : RTCSdpType) (a i : nat) (w : world) :
  Forall (fun x => of_signal (snd x)) (chain w) ->
  Forall (fun x => of_signal (snd x)) (chain (fst (replay ty a i w)))
  /\ emitted (snd (replay ty a i w)) = [].
Proof.
  intros Hq. unfold replay.
  destruct (elements w a !! i) as [c|].
  - destruct (constructible c); cbn; [|now split].
    split; [|reflexivity]. apply Forall_app. split; [exact Hq|].
    now constructor.
  - destruct ty; cbn; [|now split]. split; [|reflexivity].
    apply Forall_app. split; [exact Hq|]. now constructor.
Qed.

Lemma onIceCandidate_no_offer (m : WebRTCManager)
    (c : option RTCIceCandidateInit) :
  Forall (fun e => ~ is_offer e) (emitted (onIceCandidate m c)).
Proof.
  unfold onIceCandidate. destruct c; [|constructor].
  destruct (socket m); [|constructor].
  destruct (truthy (roomCode m)); [|constructor].
  cbn. constructor; [discriminate | constructor].
Qed.

(** A side that nobody joined never emits an offer. *)
Lemma step_emits_no_offer (ag : agent) (w : world) (t : task) :
  Forall (fun x => of_signal (snd x)) (chain w) ->
  t <> GuestJoins ->
  Forall (fun x => of_signal (snd x)) (chain (fst (step ag w t)))
  /\ Forall (fun e => ~ is_offer e) (emitted (snd (step ag w t))).
Proof.
  intros Hq Ht. destruct w as [m r ch]. cbn [chain] in Hq.
  destruct t as [d| |c|]; [| congruence | |].
  - unfold step, onSignal, await, set_manager. crush_step.
  - cbn. split; [exact Hq | apply onIceCandidate_no_offer].
  - unfold step, settle. cbn [chain].
    destruct ch as [|[op k] rest]; [split; [exact Hq | constructor]|].
    apply Forall_cons in Hq as [Hk Hq]. cbn [snd] in Hk.
    cbn [manager retired chain].
    destruct (perform ag (peerConnection m) op) as [[pc value]|].
    + destruct k as [ty|ty a i| | | | |]; try solve [elim Hk];
        cbn [resume fst snd].
      * destruct (replay_emits_nothing ty (length r) 0
                    (set_manager (set_peerConnection pc m)
                       {| manager := m; retired := r; chain := rest |}) Hq)
          as [H1 H2].
        split; [exact H1|]. cbn [retired set_manager] in *. rewrite H2.
        constructor.
      * destruct (replay_emits_nothing ty a i
                    (set_manager (set_peerConnection pc m)
                       {| manager := m; retired := r; chain := rest |}) Hq)
          as [H1 H2].
        split; [exact H1|]. rewrite H2. constructor.
      * cbn. split; [|constructor]. apply Forall_app. split; [exact Hq|].
        now constructor.
      * cbn. split; [exact Hq|]. constructor; [discriminate | constructor].
      * cbn. split; [exact Hq | constructor].
    + destruct k; try solve [elim Hk]; cbn; (split; [exact Hq | constructor]).
Qed.

Lemma no_offer_emitted (ag : agent) (tasks : list task) :
  forall w : world,
    Forall (fun x => of_signal (snd x)) (chain w) ->
    no_guest_joins tasks ->
    Forall (fun e => ~ is_offer e) (emitted (snd (run ag w tasks))).
Proof.
  induction tasks as [|t tasks IH]; intros w Hq Hng; [constructor|].
  rewrite run_cons. apply Forall_cons in Hng as [Ht Hng].
  destruct (step_emits_no_offer ag w t Hq Ht) as [Hq1 He].
  destruct (step ag w t) as [w1 o1]. cbn [fst snd] in *.
  specialize (IH w1 Hq1 Hng).
  destruct (run ag w1 tasks) as [w2 o2]. cbn [snd] in *.
  rewrite emitted_app. apply Forall_app. now split.
Qed.

End WebRTC.

(** ** The signalling server *)

Module Relay.

Import Js.
Import WebRTC.

(** An entry of the room table: [{ host: string; guest?: string }], the
    strings being socket ids. *)
Record Room : Type := {
  host : string;
  guest : option string
}.

(** What a handler does towards the clients, in program order. *)
Inductive server_emit : Type :=
  | ReplyCreated (to : string) (roomCode : string)
  | ReplyJoin (to : string) (r : join_response)
  | SocketJoin (sid : string) (roomCode : string)
  | GuestJoined (to : string) (guestId : string)
  | Signal (to : string) (data : SignalData)
  | PeerDisconnected (to : string).

(** [generateRoomCode]: [draws] are the successive values of the random
    expression; the loop keeps the first one that is not a key of the table
    ([None] when the draws run out before that). *)
Fixpoint generateRoomCode (rooms : gmap string Room) (draws : list string)
    : option string :=
  match draws with
  | [] => None
  | code :: rest =>
      match rooms !! code with
      | Some _ => generateRoomCode rooms rest
      | None => Some code
      end
  end.

(** The handler of [create-room], for the socket [sid]. *)
Definition create_room (sid : string) (draws : list string)
    (rooms : gmap string Room)
    : option (gmap string Room * list server_emit) :=
  match generateRoomCode rooms draws with
  | None => None
  | Some roomCode =>
      Some (<[roomCode := {| host := sid; guest := None |}]> rooms,
            [SocketJoin sid roomCode; ReplyCreated sid roomCode])
  end.

(** The handler of [join-room], for the socket [sid]. *)
Definition join_room (sid : string) (roomCode : string)
    (rooms : gmap string Room) : gmap string Room * list server_emit :=
  match rooms !! roomCode with
  | None => (rooms, [ReplyJoin sid room_not_found])
  | Some room =>
      if truthy_opt (guest room) then (rooms, [ReplyJoin sid room_is_full])
      else
        (<[roomCode := {| host := host room; guest := Some sid |}]> rooms,
         [SocketJoin sid roomCode; GuestJoined (host room) sid;
          ReplyJoin sid join_success])
  end.

(** The handler of [signal], for the socket [sid]. *)
Definition relay_signal (sid : string) (roomCode : string) (data : SignalData)
    (rooms : gmap string Room) : list server_emit :=
  match rooms !! roomCode with
  | None => []
  | Some room =>
      let target :=
        if String.eqb sid (host room) then guest room else Some (host room) in
      match target with
      | Some t => if truthy t then [Signal t data] else []
      | None => []
      end
  end.

(** The replies to join requests among the effects of a handler. *)
Fixpoint joinReplies (out : list server_emit) : list (string * join_response) :=
  match out with
  | [] => []
  | ReplyJoin to r :: rest => (to, r) :: joinReplies rest
  | _ :: rest => joinReplies rest
  end.

(** *** The three outcomes of a join request *)

Lemma join_unknown_room (sid roomCode : string) (rooms : gmap string Room) :
  rooms !! roomCode = None ->
  join_room sid roomCode rooms = (rooms, [ReplyJoin sid room_not_found]).
Proof. intros H. unfold join_room. now rewrite H. Qed.

Lemma join_full_room (sid roomCode : string) (rooms : gmap string Room)
    (room : Room) :
  rooms !! roomCode = Some room -> truthy_opt (guest room) = true ->
  join_room sid roomCode rooms = (rooms, [ReplyJoin sid room_is_full]).
Proof. intros H Hg. unfold join_room. now rewrite H, Hg. Qed.

Lemma join_free_room (sid roomCode : string) (rooms : gmap string Room)
    (room : Room) :
  rooms !! roomCode = Some room -> truthy_opt (guest room) = false ->
  join_room sid roomCode rooms =
    (<[roomCode := {| host := host room; guest := Some sid |}]> rooms,
     [SocketJoin sid roomCode; GuestJoined (host room) sid;
      ReplyJoin sid join_success]).
Proof. intros H Hg. unfold join_room. now rewrite H, Hg. Qed.

(** A join request changes no other room and never the host of a room. *)
Lemma join_keeps_other_rooms (sid roomCode other : string)
    (rooms : gmap string Room) :
  other <> roomCode ->
  fst (join_room sid roomCode rooms) !! other = rooms !! other.
Proof.
  intros Hne. unfold join_room.
  destruct (rooms !! roomCode) as [room|]; [|reflexivity].
  destruct (truthy_opt (guest room)); [reflexivity|].
  cbn [fst]. now rewrite lookup_insert_ne.
Qed.

Lemma join_keeps_host (sid roomCode code : string) (rooms : gmap string Room) :
  host <$> (fst (join_room sid roomCode rooms) !! code) =
  host <$> (rooms !! code).
Proof.
  unfold join_room.
  destruct (rooms !! roomCode) as [room|] eqn:Hr; [|reflexivity].
  destruct (truthy_opt (guest room)); [reflexivity|].
  cbn [fst]. destruct (decide (roomCode = code)) as [<-|Hne].
  - now rewrite lookup_insert_eq, Hr.
  - now rewrite lookup_insert_ne.
Qed.

(** C7.  A join request for a code that is not in the table is answered
    with the error Room not found; for a room that has a guest, with Room is
    full; in both cases the table is unchanged.  Otherwise the caller is
    recorded as the guest of the room (its host kept), the host is sent
    [guest-joined], and the caller is answered with success.  Hence of two
    requests for the same free room the first handled succeeds and the other
    is answered Room is full, and the room keeps its one host and the first
    caller as its one guest. *)
Theorem join_room_outcomes (rooms : gmap string Room) (roomCode : string)
    (sid1 sid2 : string) :
  (rooms !! roomCode = None ->
   join_room sid1 roomCode rooms = (rooms, [ReplyJoin sid1 room_not_found]))
  /\ (forall room,
       rooms !! roomCode = Some room -> truthy_opt (guest room) = true ->
       join_room sid1 roomCode rooms = (rooms, [ReplyJoin sid1 room_is_full]))
  /\ (forall room,
       rooms !! roomCode = Some room -> truthy_opt (guest room) = false ->
       join_room sid1 roomCode rooms =
         (<[roomCode := {| host := host room; guest := Some sid1 |}]> rooms,
          [SocketJoin sid1 roomCode; GuestJoined (host room) sid1;
           ReplyJoin sid1 join_success])
       /\ (sid1 <> ""%string ->
           let '(rooms1, out1) := join_room sid1 roomCode rooms in
           let '(rooms2, out2) := join_room sid2 roomCode rooms1 in
           joinReplies out1 = [(sid1, join_success)]
           /\ joinReplies out2 = [(sid2, room_is_full)]
           /\ rooms2 !! roomCode =
                Some {| host := host room; guest := Some sid1 |})).
Proof.
  split; [apply join_unknown_room|].
  split; [intros room; apply join_full_room|].
  intros room Hroom Hfree.
  split; [now apply join_free_room|].
  intros Hsid. rewrite (join_free_room _ _ _ room Hroom Hfree).
  rewrite (join_full_room sid2 roomCode _
             {| host := host room; guest := Some sid1 |}).
  - repeat split. apply lookup_insert_eq.
  - apply lookup_insert_eq.
  - simpl. now apply truthy_true.
Qed.

(** A table with one room, created by the socket [hostSocket01]. *)
Definition one_room : gmap string Room :=
  {[ "482913"%string := {| host := "hostSocket01"; guest := None |} ]}.

Lemma join_room_outcomes_witness :
  one_room !! "000000"%string = None
  /\ join_room "guestSocket1" "000000" one_room =
       (one_room, [ReplyJoin "guestSocket1" room_not_found]).
Proof.
  assert (H : one_room !! "000000"%string = None) by reflexivity.
  split; [exact H|].
  apply (proj1 (join_room_outcomes one_room "000000" "guestSocket1"
                  "guestSocket2") H).
Defined.

(** The scenario of the specification: a guest asks to join 000000 while the
    table holds no such room.  The server answers Room not found and leaves
    the table as it was; the client's promise resolves to [false] with
    status [error]. *)
Lemma join_unknown_code_end_to_end :
  let '(rooms', out) := join_room "guestSocket1" "000000" one_room in
  rooms' = one_room
  /\ joinReplies out = [("guestSocket1"%string, room_not_found)]
  /\ joinResult new_manager "000000" (JoinReplied room_not_found) =
       Resolved false
  /\ statuses (snd (fst (joinRoom new_manager "000000" ConnectOk
                           (JoinReplied room_not_found)))) = ["error"%string].
Proof. repeat split. Qed.

(** Two guests ask for the same free room: whichever request is handled
    first succeeds, the other is told the room is full. *)
Lemma two_joins_one_success :
  let '(rooms1, out1) := join_room "guestSocket1" "482913" one_room in
  let '(rooms2, out2) := join_room "guestSocket2" "482913" rooms1 in
  joinReplies out1 = [("guestSocket1"%string, join_success)]
  /\ joinReplies out2 = [("guestSocket2"%string, room_is_full)]
  /\ rooms2 !! "482913"%string =
       Some {| host := "hostSocket01"; guest := Some "guestSocket1"%string |}.
Proof.
  rewrite (join_free_room _ _ _ {| host := "hostSocket01"; guest := None |})
    by reflexivity.
  rewrite (join_full_room "guestSocket2" "482913" _
             {| host := "hostSocket01"; guest := Some "guestSocket1"%string |})
    by (try apply lookup_insert_eq; reflexivity).
  repeat split.
Qed.

(** *** Routing of signals *)

(** X10: where a signal goes.  A signal for a code that is not in the table is
    dropped.  Otherwise it is relayed unchanged to one socket of that room:
    to the guest when the sender is the host (dropped while there is no
    guest), and to the host in every other case.  The sender is not checked
    against the room: a socket that is neither its host nor its guest
    reaches the host all the same. *)
Theorem relay_signal_routes (rooms : gmap string Room) (sid roomCode : string)
    (data : SignalData) :
  (rooms !! roomCode = None -> relay_signal sid roomCode data rooms = [])
  /\ (forall room,
       rooms !! roomCode = Some room ->
       (sid = host room ->
        relay_signal sid roomCode data rooms =
          match guest room with
          | Some g => if truthy g then [Signal g data] else []
          | None => []
          end)
       /\ (sid <> host room ->
           relay_signal sid roomCode data rooms =
             if truthy (host room) then [Signal (host room) data] else [])
       /\ (forall e, In e (relay_signal sid roomCode data rooms) ->
           exists to, e = Signal to data
                      /\ (to = host room \/ guest room = Some to))).
Proof.
  split.
  - intros H. unfold relay_signal. now rewrite H.
  - intros room H. unfold relay_signal. rewrite H.
    destruct (String.eqb_spec sid (host room)) as [E|E].
    + split; [reflexivity|]. split; [contradiction|].
      intros e. destruct (guest room) as [g|]; [|intros []].
      destruct (truthy g); [|intros []].
      intros [<-|[]]. exists g. split; [reflexivity | now right].
    + split; [contradiction|]. split; [reflexivity|].
      intros e. destruct (truthy (host room)); [|intros []].
      intros [<-|[]]. exists (host room). split; [reflexivity | now left].
Qed.

(** *** Creating a room *)

Lemma generateRoomCode_spec (rooms : gmap string Room) (draws : list string)
    (code : string) :
  generateRoomCode rooms draws = Some code <->
  exists taken later,
    draws = taken ++ code :: later
    /\ Forall (fun c => rooms !! c <> None) taken
    /\ rooms !! code = None.
Proof.
  induction draws as [|d draws IH]; cbn [generateRoomCode].
  - split; [discriminate|]. intros (taken & later & E & _).
    destruct taken; discriminate E.
  - destruct (rooms !! d) as [r|] eqn:Hd.
    + rewrite IH. split.
      * intros (taken & later & -> & Ht & Hc).
        exists (d :: taken), later. repeat split; [|exact Hc].
        constructor; [congruence | exact Ht].
      * intros (taken & later & E & Ht & Hc).
        destruct taken as [|x taken]; cbn [app] in E; injection E as -> ->.
        -- congruence.
        -- exists taken, later. inversion Ht; subst. now repeat split.
    + split.
      * intros [= <-]. exists [], draws. repeat split; [constructor | exact Hd].
      * intros (taken & later & E & Ht & Hc).
        destruct taken as [|x taken]; cbn [app] in E; injection E as -> ->.
        -- reflexivity.
        -- inversion Ht; subst. congruence.
Qed.

(** X11: a created room is new.  [create-room] takes the first drawn code that
    is not a key of the table, records the caller as its host with no guest,
    and answers with that code; every room that was in the table is still
    there unchanged.  It succeeds as soon as one of the draws is free. *)
Theorem create_room_is_fresh (sid : string) (draws : list string)
    (rooms : gmap string Room) :
  (forall rooms' out,
     create_room sid draws rooms = Some (rooms', out) ->
     exists code taken later,
       draws = taken ++ code :: later
       /\ Forall (fun c => rooms !! c <> None) taken
       /\ rooms !! code = None
       /\ rooms' !! code = Some {| host := sid; guest := None |}
       /\ (forall other room,
             rooms !! other = Some room -> rooms' !! other = Some room)
       /\ out = [SocketJoin sid code; ReplyCreated sid code])
  /\ (forall code, In code draws -> rooms !! code = None ->
        create_room sid draws rooms <> None).
Proof.
  split.
  - intros rooms' out. unfold create_room.
    destruct (generateRoomCode rooms draws) as [code|] eqn:E; [|discriminate].
    intros [= <- <-]. apply generateRoomCode_spec in E
      as (taken & later & -> & Ht & Hc).
    exists code, taken, later. repeat split; try assumption.
    + apply lookup_insert_eq.
    + intros other room Ho. rewrite lookup_insert_ne; [exact Ho | congruence].
  - intros code Hin Hfree. unfold create_room.
    destruct (generateRoomCode rooms draws) eqn:E; [discriminate|].
    exfalso. clear sid. induction draws as [|d draws IH]; [elim Hin|].
    cbn [generateRoomCode] in E. destruct (rooms !! d) eqn:Hd; [|discriminate].
    destruct Hin as [->|Hin]; [congruence | now apply IH].
Qed.

Lemma create_room_is_fresh_witness :
  create_room "hostSocket02" ["482913"%string; "731054"%string] one_room
    <> None.
Proof.
  apply (proj2 (create_room_is_fresh "hostSocket02"
                  ["482913"%string; "731054"%string] one_room)
           "731054"%string).
  - right; left; reflexivity.
  - reflexivity.
Defined.

(** *** What a join never does *)

(** X12: a join request never adds or removes a room, never changes the host
    of a room, never touches a room other than the one it names, and never
    replaces a guest that is already there. *)
Theorem join_room_preserves (sid roomCode : string)
    (rooms : gmap string Room) :
  let rooms' := fst (join_room sid roomCode rooms) in
  dom rooms' = dom rooms
  /\ (forall code, host <$> (rooms' !! code) = host <$> (rooms !! code))
  /\ (forall code, code <> roomCode -> rooms' !! code = rooms !! code)
  /\ (forall code room,
        rooms !! code = Some room -> truthy_opt (guest room) = true ->
        rooms' !! code = Some room).
Proof.
  cbv zeta. unfold join_room.
  destruct (rooms !! roomCode) as [room|] eqn:Hr; [|repeat split; auto].
  destruct (truthy_opt (guest room)) eqn:Hg; [repeat split; auto|].
  cbn [fst]. split; [|split; [|split]].
  - apply dom_insert_lookup_L. now exists room.
  - intros code. destruct (decide (roomCode = code)) as [<-|Hne].
    + now rewrite lookup_insert_eq, Hr.
    + now rewrite lookup_insert_ne.
  - intros code Hne. now rewrite lookup_insert_ne.
  - intros code room' Hc Hg'. destruct (decide (roomCode = code)) as [<-|Hne].
    + congruence.
    + now rewrite lookup_insert_ne.
Qed.

(** *** Disconnection *)

(** The test [room.host === socket.id || room.guest === socket.id]. *)
Definition occupies (sid : string) (room : Room) : bool :=
  String.eqb (host room) sid
  || match guest room with
     | Some g => String.eqb g sid
     | None => false
     end.

(** [room.host === socket.id ? room.guest : room.host]. *)
Definition other_occupant (sid : string) (room : Room) : option string :=
  if String.eqb (host room) sid then guest room else Some (host room).

Definition notice (sid : string) (room : Room) : list server_emit :=
  match other_occupant sid room with
  | Some other => if truthy other then [PeerDisconnected other] else []
  | None => []
  end.

(** The handler of [disconnect], for the socket [sid]: every room the socket
    occupies is deleted and its other occupant notified.  (The notices come
    in the iteration order of the table, which the finite map does not
    keep: the list below has them in the order of the map's keys.) *)
Definition disconnect (sid : string) (rooms : gmap string Room)
    : gmap string Room * list server_emit :=
  (filter (fun kv => occupies sid (snd kv) = false) rooms,
   flat_map (fun kv => notice sid (snd kv))
     (map_to_list (filter (fun kv => occupies sid (snd kv) = true) rooms))).

(** X13: what a disconnection leaves.  After a socket disconnects, the table
    holds exactly the rooms it did not occupy, unchanged, so no room names it
    as host or guest any more; a notice goes to the other occupant of each
    deleted room and to nobody else; and a later join request for a deleted
    room is answered with Room not found. *)
Theorem disconnect_deletes_rooms (sid : string) (rooms : gmap string Room) :
  let '(rooms', out) := disconnect sid rooms in
  (forall code room,
     rooms' !! code = Some room <->
     rooms !! code = Some room /\ occupies sid room = false)
  /\ (forall code room,
        rooms' !! code = Some room ->
        host room <> sid /\ guest room <> Some sid)
  /\ (forall e,
        In e out <->
        exists code room other,
          rooms !! code = Some room /\ occupies sid room = true
          /\ other_occupant sid room = Some other /\ truthy other = true
          /\ e = PeerDisconnected other)
  /\ (forall code room joiner,
        rooms !! code = Some room -> occupies sid room = true ->
        join_room joiner code rooms' =
          (rooms', [ReplyJoin joiner room_not_found])).
Proof.
  unfold disconnect. split; [|split; [|split]].
  - intros code room. rewrite map_lookup_filter_Some. reflexivity.
  - intros code room H. apply map_lookup_filter_Some in H as [_ Ho].
    cbn [snd] in Ho. unfold occupies in Ho.
    apply orb_false_iff in Ho as [Hh Hg]. split.
    + intros E. rewrite E, String.eqb_refl in Hh. discriminate.
    + intros E. rewrite E, String.eqb_refl in Hg. discriminate.
  - intros e. rewrite in_flat_map. split.
    + intros ([code room] & Hin & He).
      apply list_elem_of_In, elem_of_map_to_list,
        map_lookup_filter_Some in Hin as [Hr Ho].
      cbn [snd] in *. unfold notice in He.
      destruct (other_occupant sid room) as [other|] eqn:Eo; [|elim He].
      destruct (truthy other) eqn:Et; [|elim He].
      destruct He as [<-|[]]. now exists code, room, other.
    + intros (code & room & other & Hr & Ho & Eo & Et & ->).
      exists (code, room). split.
      * apply list_elem_of_In, elem_of_map_to_list, map_lookup_filter_Some.
        now split.
      * cbn [snd]. unfold notice. rewrite Eo, Et. now left.
  - intros code room joiner Hr Ho. apply join_unknown_room.
    apply map_lookup_filter_None. right. intros room' Hr' Hf.
    cbn [snd] in Hf. congruence.
Qed.

(** *** The relay handshake, end to end *)

(** What the server delivers, and to whom, for what the socket [sid]
    emits. *)
Definition route (sid : string) (rooms : gmap string Room)
    (es : list client_emit) : list (string * SignalData) :=
  flat_map
    (fun e =>
       match e with
       | EmitSignal roomCode data =>
           flat_map
             (fun x =>
                match x with
                | Signal to d => [(to, d)]
                | _ => []
                end)
             (relay_signal sid roomCode data rooms)
       | _ => []
       end)
    es.

Definition deliver (sid : string) (rooms : gmap string Room)
    (out : list event) : list (string * SignalData) :=
  route sid rooms (emitted out).

(** The candidates among the local candidate events ([null] ends the
    gathering). *)
Definition candidates (g : list (option RTCIceCandidateInit))
    : list RTCIceCandidateInit :=
  flat_map (fun o => match o with Some c => [c] | None => [] end) g.

Lemma candidates_app (a b : list (option RTCIceCandidateInit)) :
  candidates (a ++ b) = candidates a ++ candidates b.
Proof. apply flat_map_app. Qed.

Lemma route_app (sid : string) (rooms : gmap string Room)
    (a b : list client_emit) :
  route sid rooms (a ++ b) = route sid rooms a ++ route sid rooms b.
Proof. apply flat_map_app. Qed.

(** The server does not touch the data it relays. *)
Lemma route_data (sid : string) (rooms : gmap string Room)
    (P : SignalData -> Prop) (es : list client_emit) :
  Forall (fun e => match e with EmitSignal _ d => P d | _ => True end) es ->
  Forall P (map snd (route sid rooms es)).
Proof.
  induction es as [|e es IH]; intros H; [constructor|].
  apply Forall_cons in H as [He H].
  change (e :: es) with ([e] ++ es). rewrite route_app, map_app.
  apply Forall_app. split; [|now apply IH].
  unfold route. cbn [flat_map]. rewrite app_nil_r.
  destruct e as [| |code d]; try constructor. unfold relay_signal.
  destruct (rooms !! code) as [room|]; [|constructor].
  destruct (if String.eqb sid (host room) then guest room
            else Some (host room)) as [t|]; [|constructor].
  destruct (truthy t); [|constructor]. cbn. now repeat constructor.
Qed.

(** What a peer with a socket and a room code announces, as it is routed
    in a room where its signals go to [target]. *)
Lemma route_announced (sid target : string) (rooms : gmap string Room)
    (m : WebRTCManager) (g : list (option RTCIceCandidateInit)) :
  socket m <> None -> roomCode m <> ""%string ->
  (forall d, relay_signal sid (roomCode m) d rooms = [Signal target d]) ->
  route sid rooms (emitted (announced m g)) =
    map (fun c => (target, ice c)) (candidates g).
Proof.
  intros Hs Hc Hrelay. apply truthy_true in Hc.
  induction g as [|o g IH]; [reflexivity|].
  change (o :: g) with ([o] ++ g).
  rewrite announced_app, emitted_app, route_app, candidates_app, map_app, IH.
  f_equal. rewrite announced_one. unfold onIceCandidate.
  destruct o as [c|]; [|reflexivity].
  destruct (socket m); [|congruence]. rewrite Hc.
  unfold route. cbn [emitted flat_map]. rewrite Hrelay. reflexivity.
Qed.

Section Handshake.

Variable rooms : gmap string Room.
Variables code h g : string.

Hypothesis full : rooms !! code = Some {| host := h; guest := Some g |}.
Hypothesis distinct : h <> g.
Hypothesis host_id : h <> ""%string.
Hypothesis guest_id : g <> ""%string.

Lemma relay_from_host (d : SignalData) :
  relay_signal h code d rooms = [Signal g d].
Proof.
  unfold relay_signal. rewrite full. cbn [host guest].
  rewrite String.eqb_refl. apply truthy_true in guest_id.
  now rewrite guest_id.
Qed.

Lemma relay_from_guest (d : SignalData) :
  relay_signal g code d rooms = [Signal h d].
Proof.
  unfold relay_signal. rewrite full. cbn [host guest].
  destruct (String.eqb_spec g h) as [E|_]; [congruence|].
  apply truthy_true in host_id. now rewrite host_id.
Qed.


(** X14: the handshake through the relay, however the tasks interleave.  In
    a room with host [h] and guest [g], the host is told the guest joined and
    makes its offer; after that, local candidates are gathered, signals
    arrive and operations settle on each side in any order, each side
    receiving, in order, exactly what the server delivers of what the other
    side emits; both agents accept what they are given.  The server delivers
    what the host emits to the guest only, and what the guest emits to the
    host only.  Once nothing is in flight on either side, each side's remote
    description is the other side's local description (the offer on the
    guest, the answer on the host), each side has handed its agent every
    candidate the other side gathered, exactly once, and both arrays are
    empty. *)
Theorem relay_handshake (agh agg : agent) (mh mg : WebRTCManager)
    (rest_h tasks_g : list task) (sdp_o sdp_a : string) :
  code <> ""%string ->
  roomCode mh = code -> roomCode mg = code ->
  socket mh <> None -> socket mg <> None ->
  remoteDescription (peerConnection mh) = None ->
  remoteDescription (peerConnection mg) = None ->
  pendingCandidates mh = [] -> pendingCandidates mg = [] ->
  cooperative agh -> cooperative agg ->
  (forall pc, create_offer agh pc = Some sdp_o) ->
  (forall pc, create_answer agg pc = Some sdp_a) ->
  no_guest_joins rest_h -> no_guest_joins tasks_g ->
  constructibles (candidates (gathered rest_h)) ->
  constructibles (candidates (gathered tasks_g)) ->
  let tasks_h :=
    GuestJoins :: OperationSettles :: OperationSettles :: rest_h in
  let '(wh, out_h) := run agh (idle mh) tasks_h in
  let '(wg, out_g) := run agg (idle mg) tasks_g in
  signals tasks_g = map snd (deliver h rooms out_h) ->
  signals rest_h = map snd (deliver g rooms out_g) ->
  chain wh = [] -> chain wg = [] ->
  Forall (fun x => fst x = g) (deliver h rooms out_h)
  /\ Forall (fun x => fst x = h) (deliver g rooms out_g)
  /\ remoteDescription (peerConnection (manager wg)) =
       Some {| sd_type := offer; sd_sdp := Some sdp_o |}
  /\ localDescription (peerConnection (manager wh)) =
       Some {| sd_type := offer; sd_sdp := Some sdp_o |}
  /\ remoteDescription (peerConnection (manager wh)) =
       Some {| sd_type := answer; sd_sdp := Some sdp_a |}
  /\ localDescription (peerConnection (manager wg)) =
       Some {| sd_type := answer; sd_sdp := Some sdp_a |}
  /\ Permutation (remoteCandidates (peerConnection (manager wg)))
       (remoteCandidates (peerConnection mg) ++ candidates (gathered rest_h))
  /\ Permutation (remoteCandidates (peerConnection (manager wh)))
       (remoteCandidates (peerConnection mh) ++ candidates (gathered tasks_g))
  /\ pendingCandidates (manager wg) = []
  /\ pendingCandidates (manager wh) = [].
Proof.
  intros Hcode Hrh Hrg Hsh Hsg Hnh Hng Hph Hpg Hch Hcg Hoffer Hanswer
    Hjh Hjg Hkh Hkg tasks_h.
  (* the host makes its offer *)
  set (mh2 :=
    set_peerConnection
      {| remoteDescription := remoteDescription (peerConnection mh);
         localDescription :=
           Some {| sd_type := offer; sd_sdp := Some sdp_o |};
         remoteCandidates := remoteCandidates (peerConnection mh) |}
      (set_dataChannel
         (Some {| readyState := connecting; bufferedAmount := 0 |}) mh)).
  assert (Hhost : run agh (idle mh) tasks_h =
            (fst (run agh (idle mh2) rest_h),
             [SocketEmit (EmitSignal code (offer_of sdp_o));
              StatusChange "connecting"]
               ++ snd (run agh (idle mh2) rest_h))).
  { subst tasks_h.
    change (GuestJoins :: OperationSettles :: OperationSettles :: rest_h)
      with ([GuestJoins; OperationSettles; OperationSettles] ++ rest_h).
    rewrite run_app, (guest_joined_runs agh mh sdp_o Hch (Hoffer _)).
    fold mh2. rewrite Hrh. now destruct (run agh (idle mh2) rest_h). }
  rewrite Hhost. clear Hhost.
  destruct (run agh (idle mh2) rest_h) as [wh out_h] eqn:Erh.
  destruct (run agg (idle mg) tasks_g) as [wg out_g] eqn:Erg.
  cbn [fst snd]. intros Hsig_g Hsig_h Hidle_h Hidle_g.
  (* the guest emits no offer, so that none reaches the host *)
  assert (Hno : Forall (fun d => sig_type d <> sig_offer) (signals rest_h)).
  { rewrite Hsig_h. unfold deliver. apply route_data.
    pose proof (no_offer_emitted agg tasks_g (idle mg)
                  ltac:(constructor) Hjg) as H.
    rewrite Erg in H. cbn [snd] in H.
    eapply List.Forall_impl; [|exact H].
    intros [| |c d]; cbn; tauto. }
  (* hence the host emits its offer and its candidates only *)
  assert (Hout_h : emitted out_h =
            emitted (announced mh2 (gathered rest_h))).
  { pose proof (only_candidates_emitted agh mh2 rest_h (idle mh2)
                  (conj eq_refl eq_refl) ltac:(constructor) Hjh Hno) as H.
    now rewrite Erh in H. }
  assert (Hto_g : deliver h rooms
            ([SocketEmit (EmitSignal code (offer_of sdp_o));
              StatusChange "connecting"] ++ out_h) =
          (g, offer_of sdp_o)
            :: map (fun c => (g, ice c)) (candidates (gathered rest_h))).
  { unfold deliver. rewrite emitted_app. cbn [emitted app].
    change (EmitSignal code (offer_of sdp_o) :: emitted out_h)
      with ([EmitSignal code (offer_of sdp_o)] ++ emitted out_h).
    rewrite route_app, Hout_h.
    rewrite (route_announced h g rooms mh2); try assumption.
    - unfold route. cbn [flat_map]. now rewrite relay_from_host.
    - cbn. now rewrite Hrh.
    - intros d. cbn. rewrite Hrh. apply relay_from_host. }
  rewrite Hto_g in Hsig_g |- *. cbn [map snd] in Hsig_g.
  rewrite map_map in Hsig_g. cbn [snd] in Hsig_g.
  (* the guest handles the offer and the host's candidates *)
  destruct (description_handled agg mg
              {| sd_type := offer; sd_sdp := Some sdp_o |} sdp_a Hcg
              (fun _ => Hanswer) tasks_g [] (candidates (gathered rest_h))
              (offer_of sdp_o) Hng eq_refl Hsig_g Hjg)
    as (qg & ag' & Hrun_g & (apg & Eg & Hlg) & Hheard_g).
  { rewrite Hpg. exact Hkh. }
  { now rewrite Erg. }
  rewrite Erg in Hrun_g, Hheard_g. cbn [snd] in Hrun_g, Hheard_g.
  injection Hrun_g as ->.
  unfold heard in Hheard_g. cbn [sd_type] in Hheard_g.
  destruct Hheard_g as (g1 & g2 & Eg12 & ->).
  assert (Hto_h : deliver g rooms
            (announced mg g1 ++ answer_emitted mg sdp_a :: announced mg g2) =
          map (fun c => (h, ice c)) (candidates g1)
            ++ (h, answer_of sdp_a)
            :: map (fun c => (h, ice c)) (candidates g2)).
  { unfold deliver. rewrite emitted_app. cbn [emitted answer_emitted].
    change (EmitSignal (roomCode mg) ?d :: ?l)
      with ([EmitSignal (roomCode mg) d] ++ l).
    rewrite !route_app.
    rewrite !(route_announced g h rooms mg); try assumption;
      try (now rewrite Hrg);
      try (intros d; rewrite Hrg; apply relay_from_guest).
    f_equal. unfold route. cbn [flat_map]. rewrite Hrg, relay_from_guest.
    reflexivity. }
  rewrite Hto_h in Hsig_h |- *.
  rewrite map_app in Hsig_h. cbn [map snd] in Hsig_h.
  rewrite !map_map in Hsig_h. cbn [snd] in Hsig_h.
  (* the host handles the answer and the guest's candidates *)
  rewrite Eg12, candidates_app in Hkg.
  destruct (description_handled agh mh2
              {| sd_type := answer; sd_sdp := Some sdp_a |} sdp_a Hch
              ltac:(discriminate) rest_h (candidates g1) (candidates g2)
              (answer_of sdp_a) Hnh eq_refl Hsig_h Hjh)
    as (qh & ah' & Hrun_h & (aph & Eh & Hlh) & _).
  { cbn. rewrite Hph. exact Hkg. }
  { now rewrite Erh. }
  rewrite Erh in Hrun_h. cbn [snd] in Hrun_h. injection Hrun_h as ->.
  rewrite app_nil_r in Eg, Eh. cbn [app] in Eg. rewrite Hpg in Eg.
  cbn [pendingCandidates mh2 set_peerConnection set_dataChannel] in Eh.
  rewrite Hph in Eh. cbn [app] in Eh, Eg.
  repeat split.
  - constructor; [reflexivity|]. apply List.Forall_forall.
    intros x Hx. apply in_map_iff in Hx as (c & <- & _). reflexivity.
  - apply Forall_app. split; [|constructor; [reflexivity|]];
      apply List.Forall_forall; intros x Hx;
      apply in_map_iff in Hx as (c & <- & _); reflexivity.
  - cbn. apply Permutation_app_head. rewrite Eg.
    now apply interleaved_Permutation.
  - cbn. apply Permutation_app_head. rewrite Eg12, candidates_app, Eh.
    now apply interleaved_Permutation.
Qed.

End Handshake.

Definition full_room : gmap string Room :=
  {[ "482913"%string :=
       {| host := "hostSocket01"; guest := Some "guestSocket1"%string |} ]}.

Definition host_manager : WebRTCManager :=
  set_roomCode "482913" (set_socket (Some {| connected := true |}) new_manager).

Definition guest_manager : WebRTCManager :=
  set_roomCode "482913" (set_socket (Some {| connected := true |}) new_manager).

(** The host: a candidate is gathered; a candidate of the guest arrives
    before its answer; the answer is set and the candidate replayed. *)
Definition host_tasks : list task :=
  [CandidateGathered (Some host_candidate);
   SignalArrives (ice srflx_candidate);
   SignalArrives (answer_of "v=0");
   OperationSettles; OperationSettles;
   CandidateGathered None].

(** The guest: the host's candidate arrives while the offer is being set;
    the guest's own candidate is gathered before its answer is made. *)
Definition guest_tasks : list task :=
  [SignalArrives (offer_of "v=0");
   SignalArrives (ice host_candidate);
   CandidateGathered (Some srflx_candidate);
   OperationSettles; OperationSettles; OperationSettles; OperationSettles].

Lemma relay_handshake_witness :
  let wh :=
    fst (run willing_agent (idle host_manager)
           (GuestJoins :: OperationSettles :: OperationSettles
              :: host_tasks)) in
  let wg := fst (run willing_agent (idle guest_manager) guest_tasks) in
  remoteDescription (peerConnection (manager wg)) =
    localDescription (peerConnection (manager wh))
  /\ remoteDescription (peerConnection (manager wh)) =
       localDescription (peerConnection (manager wg))
  /\ Permutation (remoteCandidates (peerConnection (manager wg)))
       [host_candidate]
  /\ Permutation (remoteCandidates (peerConnection (manager wh)))
       [srflx_candidate].
Proof.
  pose proof (relay_handshake full_room "482913" "hostSocket01"
    "guestSocket1" eq_refl ltac:(discriminate) ltac:(discriminate)
    ltac:(discriminate) willing_agent willing_agent
    host_manager guest_manager host_tasks guest_tasks "v=0" "v=0"
    ltac:(discriminate) eq_refl eq_refl ltac:(discriminate)
    ltac:(discriminate) eq_refl eq_refl eq_refl eq_refl
    willing_agent_cooperative willing_agent_cooperative
    (fun _ => eq_refl) (fun _ => eq_refl)) as H.
  cbv zeta in H |- *.
  destruct (run willing_agent (idle host_manager) _) as [wh out_h] eqn:Eh.
  destruct (run willing_agent (idle guest_manager) _) as [wg out_g] eqn:Eg.
  assert (Hout_h : out_h =
            snd (run willing_agent (idle host_manager)
                   (GuestJoins :: OperationSettles :: OperationSettles
                      :: host_tasks))) by now rewrite Eh.
  assert (Hout_g : out_g =
            snd (run willing_agent (idle guest_manager) guest_tasks))
    by now rewrite Eg.
  assert (Hwh : wh =
            fst (run willing_agent (idle host_manager)
                   (GuestJoins :: OperationSettles :: OperationSettles
                      :: host_tasks))) by now rewrite Eh.
  assert (Hwg : wg =
            fst (run willing_agent (idle guest_manager) guest_tasks))
    by now rewrite Eg.
  destruct H as (_ & _ & Hrg & Hlh & Hrh & Hlg & Hcg & Hchh & _).
  - repeat constructor; discriminate.
  - repeat constructor; discriminate.
  - repeat constructor.
  - repeat constructor.
  - rewrite Hout_h. vm_compute. reflexivity.
  - rewrite Hout_g. vm_compute. reflexivity.
  - rewrite Hwh. vm_compute. reflexivity.
  - rewrite Hwg. vm_compute. reflexivity.
  - cbn [fst]. rewrite Hrg, Hlh, Hrh, Hlg. repeat split.
    + exact Hcg.
    + exact Hchh.
Defined.

(** *** The digits of a room code *)

(** [Math.floor(100000 + Math.random() * 900000)], for the value [r] of
    [Math.random()]: the product and the sum are rounded to Numbers. *)
Definition roomNumber (r : Q) : Z :=
  Qfloor (sum (inject_Z 100000) (product r (inject_Z 900000))).

(** [toString()] of an integer from 0 up to 21 digits: its decimal digits,
    without sign or exponent. *)
Fixpoint decimal_loop (fuel : nat) (n : Z) (acc : string) : string :=
  match fuel with
  | O => acc
  | S fuel' =>
      let acc' :=
        String (Ascii.ascii_of_N (Z.to_N (48 + n mod 10))) acc in
      if n / 10 =? 0 then acc' else decimal_loop fuel' (n / 10) acc'
  end.

Definition toString (n : Z) : string := decimal_loop 21 n "".

Definition randomCode (r : Q) : string := toString (roomNumber r).

Definition is_digit (a : Ascii.ascii) : Prop :=
  (48 <= Ascii.N_of_ascii a <= 57)%N.

Section RoomNumber.

Local Open Scope Q_scope.

Lemma roomNumber_range (r : Q) :
  is_number r -> 0 <= r -> r < 1 -> (100000 <= roomNumber r <= 999999)%Z.
Proof.
  intros Hn H0 H1. pose proof (number_below_one r Hn H0 H1) as Hr.
  unfold roomNumber, sum, product.
  set (p := round (r * inject_Z 900000)).
  assert (Hp0 : 0 <= p).
  { rewrite <- round_zero. apply round_mono; [lra|].
    apply Qmult_le_0_compat; [lra | discriminate]. }
  assert (Hp1 : p <= inject_Z 900000 - (1 # 2 ^ 33)).
  { apply Qle_trans
      with (round ((1 - (1 # 2 ^ 53)) * inject_Z 900000)).
    - apply round_mono.
      + apply Qmult_le_0_compat; [lra | discriminate].
      + apply Qmult_le_compat_r; [exact Hr | discriminate].
    - vm_compute. discriminate. }
  set (s := round (inject_Z 100000 + p)).
  assert (Hs0 : inject_Z 100000 <= s).
  { apply Qle_trans with (round (inject_Z 100000 + 0)).
    - vm_compute. discriminate.
    - apply round_mono; [discriminate | lra]. }
  assert (Hs1 : s <= inject_Z 1000000 - (1 # 2 ^ 33)).
  { apply Qle_trans
      with (round (inject_Z 100000 + (inject_Z 900000 - (1 # 2 ^ 33)))).
    - apply round_mono; [|lra].
      apply Qle_trans with (inject_Z 100000 + 0); [discriminate | lra].
    - vm_compute. discriminate. }
  split.
  - rewrite <- (Qfloor_Z 100000). now apply Qfloor_resp_le.
  - assert (Hlt : inject_Z (Qfloor s) < inject_Z 1000000).
    { apply Qle_lt_trans with s; [apply Qfloor_le|].
      apply Qle_lt_trans with (inject_Z 1000000 - (1 # 2 ^ 33));
        [exact Hs1 | reflexivity]. }
    rewrite <- Zlt_Qlt in Hlt. lia.
Qed.

End RoomNumber.

Lemma digit_char (d : Z) :
  0 <= d < 10 -> is_digit (Ascii.ascii_of_N (Z.to_N (48 + d))).
Proof.
  intros Hd. unfold is_digit. rewrite Ascii.N_ascii_embedding; lia.
Qed.

Lemma toString_six_digits (n : Z) :
  100000 <= n <= 999999 ->
  String.length (toString n) = 6%nat
  /\ Forall is_digit (String.list_ascii_of_string (toString n)).
Proof.
  intros Hn. unfold toString.
  set (n1 := n / 10). set (n2 := n1 / 10). set (n3 := n2 / 10).
  set (n4 := n3 / 10). set (n5 := n4 / 10).
  assert (H1 : 10000 <= n1 <= 99999)
    by (subst n1; Z.to_euclidean_division_equations; lia).
  assert (H2 : 1000 <= n2 <= 9999)
    by (subst n2; Z.to_euclidean_division_equations; lia).
  assert (H3 : 100 <= n3 <= 999)
    by (subst n3; Z.to_euclidean_division_equations; lia).
  assert (H4 : 10 <= n4 <= 99)
    by (subst n4; Z.to_euclidean_division_equations; lia).
  assert (H5 : 1 <= n5 <= 9)
    by (subst n5; Z.to_euclidean_division_equations; lia).
  assert (H6 : n5 / 10 = 0)
    by (Z.to_euclidean_division_equations; lia).
  cbn [decimal_loop]. fold n1.
  destruct (Z.eqb_spec n1 0); [lia|]. fold n2.
  destruct (Z.eqb_spec n2 0); [lia|]. fold n3.
  destruct (Z.eqb_spec n3 0); [lia|]. fold n4.
  destruct (Z.eqb_spec n4 0); [lia|]. fold n5.
  destruct (Z.eqb_spec n5 0); [lia|]. rewrite H6. cbn [Z.eqb].
  split; [reflexivity|].
  cbn [String.list_ascii_of_string].
  repeat (constructor; [apply digit_char; apply Z.mod_pos_bound; lia|]).
  constructor.
Qed.

(** X15: room codes have six digits.  Whatever Numbers from 0 up to, but not
    including, 1 [Math.random] returns, the code [generateRoomCode] hands
    back is a string of exactly six decimal digits, standing for a number
    from 100000 to 999999, and it is not a key of the room table. *)
Theorem generateRoomCode_six_digits (rooms : gmap string Room)
    (rs : list Q) (code : string) :
  Forall (fun r => is_number r /\ (0 <= r)%Q /\ (r < 1)%Q) rs ->
  generateRoomCode rooms (map randomCode rs) = Some code ->
  String.length code = 6%nat
  /\ Forall is_digit (String.list_ascii_of_string code)
  /\ (exists r, In r rs /\ code = toString (roomNumber r)
                /\ 100000 <= roomNumber r <= 999999)
  /\ rooms !! code = None.
Proof.
  intros Hrs Hgen. apply generateRoomCode_spec in Hgen
    as (taken & later & E & _ & Hfree).
  assert (Hin : In code (map randomCode rs))
    by (rewrite E; apply in_or_app; right; now left).
  apply in_map_iff in Hin as (r & <- & Hr).
  destruct (proj1 (List.Forall_forall _ rs) Hrs r Hr) as (Hn & H0 & H1).
  pose proof (roomNumber_range r Hn H0 H1) as Hrange.
  destruct (toString_six_digits _ Hrange) as [Hlen Hdig].
  repeat split; try assumption.
  exists r. repeat split; try assumption; apply Hrange.
Qed.

(** The Number nearest to one third, [0.3333333333333333]. *)
Definition one_third : Q := 6004799503160661 # 18014398509481984.

(** With that value the product rounds up to 300000 and the code is
    "400000"; in exact arithmetic the floor would be 399999. *)
Lemma generateRoomCode_six_digits_witness :
  String.length (randomCode one_third) = 6%nat
  /\ generateRoomCode one_room (map randomCode [one_third]) =
       Some "400000"%string
  /\ Qfloor (100000 + one_third * 900000) = 399999.
Proof.
  assert (Hgen : generateRoomCode one_room (map randomCode [one_third]) =
                   Some (randomCode one_third)) by (vm_compute; reflexivity).
  split; [|split; [vm_compute; reflexivity | reflexivity]].
  assert (Hrs : Forall (fun r => is_number r /\ (0 <= r)%Q /\ (r < 1)%Q)
                  [one_third]).
  { constructor; [|constructor]. split; [|split].
    - vm_compute. reflexivity.
    - discriminate.
    - reflexivity. }
  apply (generateRoomCode_six_digits one_room [one_third] _ Hrs Hgen).
Defined.

End Relay.

(** ** The offline token: [compressSDP] and [decompressSDP] *)

Module Offline.

(** A JavaScript string, as its UTF-16 code units. *)
Definition jsstring : Type := list Z.

Definition code_unit (c : Z) : Prop := 0 <= c < 65536.

Definition is_string (s : jsstring) : Prop := Forall code_unit s.

(** The code units of an ASCII literal. *)
Definition units (s : string) : jsstring :=
  map (fun a => Z.of_N (Ascii.N_of_ascii a)) (String.list_ascii_of_string s).

(** The argument of [compressSDP] and the result of [decompressSDP]:
    [{ type: string; sdp: string }]. *)
Record descriptor : Type := {
  d_type : jsstring;
  d_sdp : jsstring
}.

(** *** [JSON.stringify] on a descriptor *)

Definition is_high (c : Z) : bool := (55296 <=? c) && (c <=? 56319).

Definition is_low (c : Z) : bool := (56320 <=? c) && (c <=? 57343).

(** Lower-case hexadecimal digit. *)
Definition hexdigit (n : Z) : Z := if n <? 10 then 48 + n else 87 + n.

(** [\uXXXX]. *)
Definition unicode_escape (c : Z) : jsstring :=
  [92; 117; hexdigit (c / 4096); hexdigit (c / 256 mod 16);
   hexdigit (c / 16 mod 16); hexdigit (c mod 16)].

(** The escape of one code unit that is not a surrogate. *)
Definition quote_unit (c : Z) : jsstring :=
  if c =? 8 then [92; 98]
  else if c =? 9 then [92; 116]
  else if c =? 10 then [92; 110]
  else if c =? 12 then [92; 102]
  else if c =? 13 then [92; 114]
  else if c =? 34 then [92; 34]
  else if c =? 92 then [92; 92]
  else if c <? 32 then unicode_escape c
  else [c].

(** The body of a quoted string, as specified since ECMAScript 2019: the
    string is read by code points, a surrogate pair is copied, a lone
    surrogate is escaped. *)
Fixpoint quote_units (s : jsstring) : jsstring :=
  match s with
  | [] => []
  | c :: r =>
      if is_high c then
        match r with
        | d :: r' =>
            if is_low d then c :: d :: quote_units r'
            else unicode_escape c ++ quote_units r
        | [] => unicode_escape c
        end
      else if is_low c then unicode_escape c ++ quote_units r
      else quote_unit c ++ quote_units r
  end.

Definition quote (s : jsstring) : jsstring := 34 :: quote_units s ++ [34].

(** [JSON.stringify({ type, sdp })]: the own properties in insertion order,
    no white space. *)
Definition JSON_stringify (d : descriptor) : jsstring :=
  [123] ++ quote (units "type") ++ [58] ++ quote (d_type d) ++ [44]
    ++ quote (units "sdp") ++ [58] ++ quote (d_sdp d) ++ [125].

(** *** [JSON.parse], on objects whose members are strings *)

Definition hexvalue (c : Z) : option Z :=
  if (48 <=? c) && (c <=? 57) then Some (c - 48)
  else if (97 <=? c) && (c <=? 102) then Some (c - 87)
  else if (65 <=? c) && (c <=? 70) then Some (c - 55)
  else None.

Definition hex4 (a b c d : Z) : option Z :=
  match hexvalue a, hexvalue b, hexvalue c, hexvalue d with
  | Some x, Some y, Some z, Some w => Some (((x * 16 + y) * 16 + z) * 16 + w)
  | _, _, _, _ => None
  end.

(** The character a single-letter escape stands for. *)
Definition unescape (e : Z) : option Z :=
  if e =? 34 then Some 34
  else if e =? 92 then Some 92
  else if e =? 47 then Some 47
  else if e =? 98 then Some 8
  else if e =? 102 then Some 12
  else if e =? 110 then Some 10
  else if e =? 114 then Some 13
  else if e =? 116 then Some 9
  else None.

Definition prepend (c : Z) (r : option (jsstring * jsstring))
    : option (jsstring * jsstring) :=
  match r with
  | Some (s, rest) => Some (c :: s, rest)
  | None => None
  end.

(** A string literal after its opening quote: its value and the text after
    the closing quote. *)
Fixpoint parse_units (s : jsstring) : option (jsstring * jsstring) :=
  match s with
  | [] => None
  | c :: r =>
      if c =? 34 then Some ([], r)
      else if c =? 92 then
        match r with
        | [] => None
        | e :: r' =>
            if e =? 117 then
              match r' with
              | h1 :: h2 :: h3 :: h4 :: r'' =>
                  match hex4 h1 h2 h3 h4 with
                  | Some v => prepend v (parse_units r'')
                  | None => None
                  end
              | _ => None
              end
            else
              match unescape e with
              | Some v => prepend v (parse_units r')
              | None => None
              end
        end
      else if c <? 32 then None
      else prepend c (parse_units r)
  end.

(** The members of an object after the opening brace, each a string key
    and a string value, up to the closing brace. *)
Fixpoint parse_members (fuel : nat) (s : jsstring)
    : option (list (jsstring * jsstring) * jsstring) :=
  match fuel with
  | O => None
  | S fuel' =>
      match s with
      | q :: r =>
          if q =? 34 then
            match parse_units r with
            | Some (key, colon :: q' :: r1) =>
                if (colon =? 58) && (q' =? 34) then
                  match parse_units r1 with
                  | Some (value, sep :: r2) =>
                      if sep =? 125 then Some ([(key, value)], r2)
                      else if sep =? 44 then
                        match parse_members fuel' r2 with
                        | Some (ms, rest) => Some ((key, value) :: ms, rest)
                        | None => None
                        end
                      else None
                  | _ => None
                  end
                else None
            | _ => None
            end
          else None
      | [] => None
      end
  end.

(** The value of a property of the parsed object: the last member with
    that key. *)
Fixpoint property (key : jsstring) (ms : list (jsstring * jsstring))
    : option jsstring :=
  match ms with
  | [] => None
  | (k, v) :: rest =>
      match property key rest with
      | Some v' => Some v'
      | None => if decide (k = key) then Some v else None
      end
  end.

(** [JSON.parse] of the text of an object with string members, read as a
    descriptor.  Texts outside this fragment (other value types, white
    space) and objects without both properties give [None]. *)
Definition JSON_parse (s : jsstring) : option descriptor :=
  match s with
  | b :: r =>
      if b =? 123 then
        match parse_members (length r) r with
        | Some (ms, []) =>
            match property (units "type") ms, property (units "sdp") ms with
            | Some t, Some sdp => Some {| d_type := t; d_sdp := sdp |}
            | _, _ => None
            end
        | _ => None
        end
      else None
  | [] => None
  end.

(** *** [btoa] and [atob] *)

Definition b64char (i : Z) : Z :=
  if i <? 26 then 65 + i
  else if i <? 52 then 71 + i
  else if i <? 62 then i - 4
  else if i =? 62 then 43
  else 47.

Definition b64index (c : Z) : option Z :=
  if (65 <=? c) && (c <=? 90) then Some (c - 65)
  else if (97 <=? c) && (c <=? 122) then Some (c - 71)
  else if (48 <=? c) && (c <=? 57) then Some (c + 4)
  else if c =? 43 then Some 62
  else if c =? 47 then Some 63
  else None.

(** The 6-bit groups of a byte string, the last one padded with zero
    bits. *)
Fixpoint sextets (l : list Z) : list Z :=
  match l with
  | a :: b :: c :: r =>
      a / 4 :: a mod 4 * 16 + b / 16 :: b mod 16 * 4 + c / 64 :: c mod 64
        :: sextets r
  | [a; b] => [a / 4; a mod 4 * 16 + b / 16; b mod 16 * 4]
  | [a] => [a / 4; a mod 4 * 16]
  | [] => []
  end.

Definition padding (l : list Z) : jsstring :=
  match (length l mod 3)%nat with
  | 1%nat => [61; 61]
  | 2%nat => [61]
  | _ => []
  end.

(** [btoa]: throws when a code unit is above 255. *)
Definition btoa (s : jsstring) : option jsstring :=
  if forallb (fun c => (0 <=? c) && (c <=? 255)) s then
    Some (map b64char (sextets s) ++ padding s)
  else None.

Definition is_space (c : Z) : bool :=
  (c =? 9) || (c =? 10) || (c =? 12) || (c =? 13) || (c =? 32).

(** One or two [=] at the end of a text whose length is a multiple of 4
    are removed. *)
Definition strip_padding (s : jsstring) : jsstring :=
  if (length s mod 4 =? 0)%nat then
    match rev s with
    | c1 :: r1 =>
        if c1 =? 61 then
          match r1 with
          | c2 :: r2 => if c2 =? 61 then rev r2 else rev r1
          | [] => rev r1
          end
        else s
    | [] => s
    end
  else s.

(** The bytes of a sequence of 6-bit groups; the bits left over at the end
    are dropped. *)
Fixpoint octets (l : list Z) : list Z :=
  match l with
  | w :: x :: y :: z :: r =>
      w * 4 + x / 16 :: x mod 16 * 16 + y / 4 :: y mod 4 * 64 + z :: octets r
  | [w; x; y] => [w * 4 + x / 16; x mod 16 * 16 + y / 4]
  | [w; x] => [w * 4 + x / 16]
  | _ => []
  end.

Fixpoint indices (s : jsstring) : option (list Z) :=
  match s with
  | [] => Some []
  | c :: r =>
      match b64index c, indices r with
      | Some i, Some l => Some (i :: l)
      | _, _ => None
      end
  end.

(** [atob]: white space is skipped, padding removed, and the rest must be
    base64 characters whose number is not 1 modulo 4. *)
Definition atob (s : jsstring) : option jsstring :=
  let s1 := List.filter (fun c => negb (is_space c)) s in
  let s2 := strip_padding s1 in
  if (length s2 mod 4 =? 1)%nat then None
  else
    match indices s2 with
    | Some l => Some (octets l)
    | None => None
    end.

(** [String.fromCharCode(c1, ..., cn)] on byte values. *)
Definition fromCharCode (b : list byte) : jsstring :=
  map (fun x => Z.of_N (Byte.to_N x)) b.

(** [String.fromCharCode.apply(null, Array.from(bytes))]: every element of
    the array becomes an argument of one call.  An engine accepts only so
    many arguments (the number is the engine's, not the language's) and
    throws a [RangeError] above it. *)
Definition fromCharCodes (argumentLimit : nat) (b : list byte)
    : option jsstring :=
  if (length b <=? argumentLimit)%nat then Some (fromCharCode b) else None.

(** [new Uint8Array(numbers)]: each number modulo 256. *)
Definition toUint8Array (l : list Z) : list byte :=
  map (fun c => default x00 (Byte.of_N (Z.to_N (c mod 256)))) l.

(** *** The two methods *)

Section Codec.

(** [pako.deflate(string)] and [pako.inflate(bytes, { to: 'string' })].
    The library encodes the string as UTF-8 before compressing, so what it
    promises is the round trip on well-formed UTF-16 strings. *)
Variable argumentLimit : nat.
Variable deflate : jsstring -> list byte.
Variable inflate : list byte -> option jsstring.

Definition compressSDP (data : descriptor) : option jsstring :=
  let json := JSON_stringify data in
  let compressed := deflate json in
  match fromCharCodes argumentLimit compressed with
  | None => None
  | Some binary => btoa binary
  end.

(** The descriptor deflates to an array the engine accepts as the arguments
    of one call. *)
Definition fits (data : descriptor) : Prop :=
  (length (deflate (JSON_stringify data)) <= argumentLimit)%nat.

Definition decompressSDP (base64 : jsstring) : option descriptor :=
  match atob base64 with
  | None => None
  | Some bin =>
      let charData := bin in
      let binData := toUint8Array charData in
      match inflate binData with
      | None => None
      | Some decompressed => JSON_parse decompressed
      end
  end.

End Codec.

(** No surrogate stands alone. *)
Fixpoint well_formed (s : jsstring) : bool :=
  match s with
  | [] => true
  | c :: r =>
      if is_high c then
        match r with
        | d :: r' => is_low d && well_formed r'
        | [] => false
        end
      else if is_low c then false
      else well_formed r
  end.

(** *** Base64 round trip *)

Definition octet (c : Z) : Prop := 0 <= c <= 255.

Definition sextet (i : Z) : Prop := 0 <= i < 64.

(** Induction on lists three elements at a time. *)
Lemma list_ind3 {A : Type} (P : list A -> Prop) :
  P [] -> (forall a, P [a]) -> (forall a b, P [a; b]) ->
  (forall a b c r, P r -> P (a :: b :: c :: r)) ->
  forall l, P l.
Proof.
  intros H0 H1 H2 H3 l.
  assert (H : P l /\ (forall a, P (a :: l)) /\ (forall a b, P (a :: b :: l))).
  { induction l as [|x l (IH0 & IH1 & IH2)].
    - repeat split; auto.
    - repeat split; auto. }
  apply H.
Qed.

Lemma b64index_b64char (i : Z) : sextet i -> b64index (b64char i) = Some i.
Proof.
  unfold sextet, b64index, b64char. intros Hi.
  repeat match goal with
         | |- context [?a <? ?b] => destruct (Z.ltb_spec a b)
         | |- context [?a =? ?b] => destruct (Z.eqb_spec a b)
         | |- context [?a <=? ?b] => destruct (Z.leb_spec a b)
         | |- _ => progress cbn [andb]
         end; try lia; f_equal; lia.
Qed.

Lemma b64char_plain (i : Z) :
  sextet i -> is_space (b64char i) = false /\ b64char i <> 61.
Proof.
  unfold sextet, is_space, b64char. intros Hi.
  repeat match goal with
         | |- context [?a <? ?b] => destruct (Z.ltb_spec a b)
         | |- context [?a =? ?b] => destruct (Z.eqb_spec a b)
         | |- _ => progress cbn [orb]
         end; try lia; split; try reflexivity; lia.
Qed.

Lemma sextets_range (l : list Z) : Forall octet l -> Forall sextet (sextets l).
Proof.
  unfold octet, sextet. induction l using list_ind3; intros Hl;
    repeat match goal with
           | H : Forall _ (_ :: _) |- _ => inversion H; clear H; subst
           end;
    cbn [sextets]; repeat constructor; auto;
    Z.to_euclidean_division_equations; lia.
Qed.

Lemma octets_sextets (l : list Z) : Forall octet l -> octets (sextets l) = l.
Proof.
  unfold octet. induction l using list_ind3; intros Hl;
    repeat match goal with
           | H : Forall _ (_ :: _) |- _ => inversion H; clear H; subst
           end;
    cbn [sextets octets]; try reflexivity.
  - f_equal. Z.to_euclidean_division_equations. lia.
  - f_equal; [|f_equal]; Z.to_euclidean_division_equations; lia.
  - rewrite IHl by assumption.
    f_equal; [|f_equal; [|f_equal]]; Z.to_euclidean_division_equations; lia.
Qed.

Lemma sextets_length (l : list Z) :
  (length (sextets l) mod 4 <> 1
   /\ (length (sextets l) + length (padding l)) mod 4 = 0)%nat.
Proof.
  induction l using list_ind3; try (split; [discriminate | reflexivity]).
  destruct IHl as [H1 H0]. cbn [sextets length].
  assert (E : padding (a :: b :: c :: l) = padding l).
  { unfold padding. cbn [length].
    replace (S (S (S (length l)))) with (length l + 1 * 3)%nat by lia.
    now rewrite Nat.Div0.mod_add. }
  rewrite E. split.
  - replace (S (S (S (S (length (sextets l))))))
      with (length (sextets l) + 1 * 4)%nat by lia.
    now rewrite Nat.Div0.mod_add.
  - replace (S (S (S (S (length (sextets l))))) + length (padding l))%nat
      with (length (sextets l) + length (padding l) + 1 * 4)%nat by lia.
    now rewrite Nat.Div0.mod_add.
Qed.

Lemma indices_b64char (l : list Z) :
  Forall sextet l -> indices (map b64char l) = Some l.
Proof.
  induction 1 as [|i l Hi _ IH]; [reflexivity|].
  cbn [map indices]. now rewrite b64index_b64char, IH.
Qed.

Lemma filter_plain (l : list Z) (pad : jsstring) :
  Forall sextet l -> Forall (fun c => c = 61) pad ->
  List.filter (fun c => negb (is_space c)) (map b64char l ++ pad) =
    map b64char l ++ pad.
Proof.
  intros Hl Hp. induction Hl as [|i l Hi _ IH].
  - simpl. induction Hp as [|c pad -> _ IH]; [reflexivity|].
    simpl. now rewrite IH.
  - cbn [map app List.filter].
    destruct (b64char_plain i Hi) as [-> _]. cbn [negb]. now rewrite IH.
Qed.

(** Removing the padding of an encoding leaves its characters. *)
Lemma strip_padding_core (core pad : jsstring) :
  Forall (fun c => c <> 61) core ->
  (length (core ++ pad) mod 4 = 0)%nat ->
  pad = [] \/ pad = [61] \/ pad = [61; 61] ->
  strip_padding (core ++ pad) = core.
Proof.
  intros Hcore Hlen Hpad. unfold strip_padding. rewrite Hlen. cbn [Nat.eqb].
  rewrite rev_app_distr.
  assert (Hrev : match rev core with
                 | [] => core = []
                 | x :: t => x <> 61 /\ rev (x :: t) = core
                 end).
  { destruct (rev core) as [|x t] eqn:E.
    - apply (f_equal (@rev Z)) in E. now rewrite rev_involutive in E.
    - split.
      + apply (proj1 (List.Forall_forall _ core) Hcore). apply in_rev.
        rewrite E. now left.
      + rewrite <- E. apply rev_involutive. }
  destruct Hpad as [-> | [-> | ->]]; cbn [rev app].
  - rewrite app_nil_r. destruct (rev core) as [|x t]; [reflexivity|].
    destruct Hrev as [Hx _]. destruct (Z.eqb_spec x 61); [contradiction|].
    reflexivity.
  - cbn [Z.eqb Pos.eqb]. destruct (rev core) as [|x t]; [now subst|].
    destruct Hrev as [Hx Ht]. destruct (Z.eqb_spec x 61); [contradiction|].
    exact Ht.
  - cbn [Z.eqb Pos.eqb]. destruct (rev core) as [|x t]; [now subst|].
    now destruct Hrev as [_ Ht].
Qed.

Lemma padding_cases (l : list Z) :
  padding l = [] \/ padding l = [61] \/ padding l = [61; 61].
Proof.
  unfold padding. destruct (length l mod 3)%nat as [|[|[|n]]]; auto.
Qed.

Lemma btoa_total (s : jsstring) :
  Forall octet s -> btoa s = Some (map b64char (sextets s) ++ padding s).
Proof.
  intros Hs. unfold btoa.
  assert (forallb (fun c => (0 <=? c) && (c <=? 255)) s = true) as ->;
    [|reflexivity].
  apply forallb_forall. intros c Hc.
  apply (proj1 (List.Forall_forall _ s) Hs) in Hc. unfold octet in Hc.
  apply andb_true_iff. split; apply Z.leb_le; lia.
Qed.

(** [atob(btoa(s))] is [s] for every string of code units below 256. *)
Lemma atob_btoa (s : jsstring) :
  Forall octet s ->
  exists t, btoa s = Some t /\ atob t = Some s.
Proof.
  intros Hs. exists (map b64char (sextets s) ++ padding s).
  split; [now apply btoa_total|].
  pose proof (sextets_range s Hs) as Hsx.
  destruct (sextets_length s) as [Hne1 Hmul4].
  unfold atob. cbv zeta.
  rewrite filter_plain.
  - rewrite strip_padding_core.
    + rewrite length_map.
      destruct (Nat.eqb_spec (length (sextets s) mod 4) 1); [contradiction|].
      rewrite indices_b64char by exact Hsx.
      now rewrite octets_sextets.
    + apply List.Forall_forall. intros c Hc. apply in_map_iff in Hc as (i & <- & Hi).
      apply (proj1 (List.Forall_forall _ _) Hsx) in Hi.
      now apply b64char_plain.
    + now rewrite length_app, length_map.
    + apply padding_cases.
  - exact Hsx.
  - destruct (padding_cases s) as [-> | [-> | ->]]; repeat constructor.
Qed.

Lemma fromCharCode_octets (b : list byte) : Forall octet (fromCharCode b).
Proof.
  unfold fromCharCode, octet. apply List.Forall_forall. intros c Hc.
  apply in_map_iff in Hc as (x & <- & _).
  pose proof (Byte.to_N_bounded x). lia.
Qed.

Lemma toUint8Array_fromCharCode (b : list byte) :
  toUint8Array (fromCharCode b) = b.
Proof.
  unfold toUint8Array, fromCharCode. rewrite map_map.
  rewrite <- (map_id b) at 2. apply map_ext. intros x.
  pose proof (Byte.to_N_bounded x).
  rewrite Z.mod_small by lia. rewrite N2Z.id, Byte.of_to_N. reflexivity.
Qed.

(** *** JSON round trip *)

Ltac decide_tests :=
  repeat match goal with
         | |- context [?a <? ?b] => destruct (Z.ltb_spec a b)
         | |- context [?a =? ?b] => destruct (Z.eqb_spec a b)
         | |- context [?a <=? ?b] => destruct (Z.leb_spec a b)
         | |- _ => progress cbn [andb orb negb]
         end.

Lemma hexvalue_hexdigit (n : Z) :
  0 <= n < 16 -> hexvalue (hexdigit n) = Some n.
Proof.
  unfold hexvalue, hexdigit. intros Hn.
  decide_tests; try lia; f_equal; lia.
Qed.

Lemma hex4_escape (c : Z) :
  code_unit c ->
  hex4 (hexdigit (c / 4096)) (hexdigit (c / 256 mod 16))
       (hexdigit (c / 16 mod 16)) (hexdigit (c mod 16)) = Some c.
Proof.
  unfold code_unit, hex4. intros Hc.
  rewrite !hexvalue_hexdigit by (Z.to_euclidean_division_equations; lia).
  f_equal. Z.to_euclidean_division_equations. lia.
Qed.

Lemma hexdigit_range (n : Z) : 0 <= n < 16 -> 48 <= hexdigit n <= 102.
Proof. unfold hexdigit. intros Hn. decide_tests; lia. Qed.

(** A code unit that stands for itself in a string literal. *)
Lemma parse_raw (c : Z) (tail : jsstring) :
  32 <= c -> c <> 34 -> c <> 92 ->
  parse_units (c :: tail) = prepend c (parse_units tail).
Proof.
  intros H32 H34 H92. cbn [parse_units]. decide_tests; try lia. reflexivity.
Qed.

Lemma parse_unicode_escape (c : Z) (tail : jsstring) :
  code_unit c ->
  parse_units (unicode_escape c ++ tail) = prepend c (parse_units tail).
Proof.
  intros Hc. unfold unicode_escape. cbn [app parse_units].
  cbn [Z.eqb Pos.eqb]. now rewrite hex4_escape.
Qed.

Lemma parse_quote_unit (c : Z) (tail : jsstring) :
  code_unit c ->
  parse_units (quote_unit c ++ tail) = prepend c (parse_units tail).
Proof.
  intros Hc. unfold quote_unit.
  destruct (Z.eqb_spec c 8) as [->|]; [reflexivity|].
  destruct (Z.eqb_spec c 9) as [->|]; [reflexivity|].
  destruct (Z.eqb_spec c 10) as [->|]; [reflexivity|].
  destruct (Z.eqb_spec c 12) as [->|]; [reflexivity|].
  destruct (Z.eqb_spec c 13) as [->|]; [reflexivity|].
  destruct (Z.eqb_spec c 34) as [->|]; [reflexivity|].
  destruct (Z.eqb_spec c 92) as [->|]; [reflexivity|].
  destruct (Z.ltb_spec c 32).
  - now apply parse_unicode_escape.
  - now apply parse_raw.
Qed.

(** The three shapes [quote_units] distinguishes. *)
Lemma quote_units_pair (c d : Z) (r : jsstring) :
  is_high c = true -> is_low d = true ->
  quote_units (c :: d :: r) = c :: d :: quote_units r.
Proof. intros Hc Hd. cbn [quote_units]. now rewrite Hc, Hd. Qed.

Definition starts_low (r : jsstring) : bool :=
  match r with
  | d :: _ => is_low d
  | [] => false
  end.

Lemma quote_units_lone_high (c : Z) (r : jsstring) :
  is_high c = true -> starts_low r = false ->
  quote_units (c :: r) = unicode_escape c ++ quote_units r.
Proof.
  intros Hc Hr. cbn [quote_units]. rewrite Hc.
  destruct r as [|d r]; [now rewrite app_nil_r|].
  cbn [starts_low] in Hr. now rewrite Hr.
Qed.

Lemma quote_units_other (c : Z) (r : jsstring) :
  is_high c = false ->
  quote_units (c :: r) =
    (if is_low c then unicode_escape c else quote_unit c) ++ quote_units r.
Proof. intros Hc. cbn [quote_units]. rewrite Hc. now destruct (is_low c). Qed.

(** Induction along the cases of [quote_units]. *)
Lemma quote_units_ind (P : jsstring -> Prop) :
  P [] ->
  (forall c d r, is_high c = true -> is_low d = true -> P r ->
                 P (c :: d :: r)) ->
  (forall c r, is_high c = true -> starts_low r = false -> P r ->
               P (c :: r)) ->
  (forall c r, is_high c = false -> P r -> P (c :: r)) ->
  forall s, P s.
Proof.
  intros H0 Hpair Hlone Hother s.
  assert (H : P s /\ forall a, P (a :: s)).
  { induction s as [|x s [IH0 IH1]].
    - split; [exact H0|]. intros a. destruct (is_high a) eqn:Ha.
      + now apply Hlone.
      + now apply Hother.
    - split; [apply IH1|]. intros a. destruct (is_high a) eqn:Ha.
      + destruct (is_low x) eqn:Hx.
        * now apply Hpair.
        * apply Hlone; auto.
      + apply Hother; auto. }
  apply H.
Qed.

Lemma surrogate_raw (c : Z) :
  is_high c = true \/ is_low c = true -> 32 <= c /\ c <> 34 /\ c <> 92.
Proof.
  unfold is_high, is_low. intros [H|H];
    apply andb_true_iff in H as [H1 H2];
    apply Z.leb_le in H1; apply Z.leb_le in H2; lia.
Qed.

(** Parsing the body of a quoted string gives the string back. *)
Lemma parse_quote_units (s : jsstring) :
  is_string s ->
  forall rest, parse_units (quote_units s ++ 34 :: rest) = Some (s, rest).
Proof.
  unfold is_string.
  induction s as [|c d r Hc Hd IH|c r Hc Hr IH|c r Hc IH] using quote_units_ind;
    intros Hs rest.
  - reflexivity.
  - inversion Hs as [|? ? Huc Hs']; subst.
    inversion Hs' as [|? ? Hud Hs'']; subst.
    rewrite quote_units_pair by assumption. cbn [app].
    destruct (surrogate_raw c (or_introl Hc)) as (? & ? & ?).
    destruct (surrogate_raw d (or_intror Hd)) as (? & ? & ?).
    rewrite !parse_raw by assumption. now rewrite IH.
  - inversion Hs as [|? ? Huc Hs']; subst.
    rewrite quote_units_lone_high by assumption. rewrite <- app_assoc.
    rewrite parse_unicode_escape by assumption. now rewrite IH.
  - inversion Hs as [|? ? Huc Hs']; subst.
    rewrite quote_units_other by assumption. rewrite <- app_assoc.
    destruct (is_low c).
    + rewrite parse_unicode_escape by assumption. now rewrite IH.
    + rewrite parse_quote_unit by assumption. now rewrite IH.
Qed.

(** *** The quoted text is a well-formed string *)

(** A code unit that is not a surrogate. *)
Definition plain (c : Z) : Prop :=
  0 <= c < 65536 /\ ~ 55296 <= c <= 57343.

Lemma plain_not_surrogate (c : Z) :
  plain c -> is_high c = false /\ is_low c = false.
Proof.
  unfold plain, is_high, is_low. intros Hc.
  split; decide_tests; try reflexivity; lia.
Qed.

Lemma well_formed_plain (p : jsstring) (rest : jsstring) :
  Forall plain p -> well_formed (p ++ rest) = well_formed rest.
Proof.
  induction 1 as [|c p Hc _ IH]; [reflexivity|].
  cbn [app well_formed].
  destruct (plain_not_surrogate c Hc) as [-> ->]. exact IH.
Qed.

Lemma unicode_escape_plain (c : Z) :
  code_unit c -> Forall plain (unicode_escape c).
Proof.
  unfold code_unit, plain, unicode_escape. intros Hc.
  repeat constructor; try lia;
    match goal with
    | |- context [hexdigit ?n] =>
        pose proof (hexdigit_range n
          ltac:(Z.to_euclidean_division_equations; lia)); lia
    end.
Qed.

Lemma quote_unit_plain (c : Z) :
  code_unit c -> is_high c = false -> is_low c = false ->
  Forall plain (quote_unit c).
Proof.
  intros Hc Hh Hl. unfold quote_unit.
  decide_tests; try (repeat constructor; unfold plain; lia).
  - now apply unicode_escape_plain.
  - constructor; [|constructor]. unfold plain, code_unit, is_high, is_low in *.
    apply andb_false_iff in Hh, Hl.
    rewrite !Z.leb_gt in Hh, Hl. lia.
Qed.

Lemma well_formed_quote_units (s : jsstring) :
  is_string s ->
  forall rest, well_formed (quote_units s ++ rest) = well_formed rest.
Proof.
  unfold is_string.
  induction s as [|c d r Hc Hd IH|c r Hc Hr IH|c r Hc IH] using quote_units_ind;
    intros Hs rest.
  - reflexivity.
  - inversion Hs as [|? ? Huc Hs']; subst.
    inversion Hs' as [|? ? Hud Hs'']; subst.
    rewrite quote_units_pair by assumption. cbn [app well_formed].
    rewrite Hc, Hd. cbn [andb]. now apply IH.
  - inversion Hs as [|? ? Huc Hs']; subst.
    rewrite quote_units_lone_high by assumption. rewrite <- app_assoc.
    rewrite well_formed_plain by now apply unicode_escape_plain.
    now apply IH.
  - inversion Hs as [|? ? Huc Hs']; subst.
    rewrite quote_units_other by assumption. rewrite <- app_assoc.
    destruct (is_low c) eqn:Hl.
    + rewrite well_formed_plain by now apply unicode_escape_plain.
      now apply IH.
    + rewrite well_formed_plain by now apply quote_unit_plain.
      now apply IH.
Qed.

Lemma plain_code_unit (c : Z) : plain c -> code_unit c.
Proof. unfold plain, code_unit. lia. Qed.

Lemma is_string_quote_units (s : jsstring) :
  is_string s -> is_string (quote_units s).
Proof.
  unfold is_string.
  induction s as [|c d r Hc Hd IH|c r Hc Hr IH|c r Hc IH] using quote_units_ind;
    intros Hs.
  - constructor.
  - inversion Hs as [|? ? Huc Hs']; subst.
    inversion Hs' as [|? ? Hud Hs'']; subst.
    rewrite quote_units_pair by assumption.
    constructor; [assumption|]. constructor; [assumption|]. now apply IH.
  - inversion Hs as [|? ? Huc Hs']; subst.
    rewrite quote_units_lone_high by assumption.
    apply Forall_app. split; [|now apply IH].
    apply (List.Forall_impl _ plain_code_unit).
    now apply unicode_escape_plain.
  - inversion Hs as [|? ? Huc Hs']; subst.
    rewrite quote_units_other by assumption.
    apply Forall_app. split; [|now apply IH].
    destruct (is_low c) eqn:Hl.
    + apply (List.Forall_impl _ plain_code_unit).
      now apply unicode_escape_plain.
    + apply (List.Forall_impl _ plain_code_unit).
      now apply quote_unit_plain.
Qed.

(** The text [JSON.stringify] produces, laid out as the parser meets it. *)
Lemma JSON_stringify_text (d : descriptor) :
  JSON_stringify d =
    123 :: 34 :: quote_units (units "type") ++ 34 :: 58 :: 34
      :: quote_units (d_type d) ++ 34 :: 44 :: 34
      :: quote_units (units "sdp") ++ 34 :: 58 :: 34
      :: quote_units (d_sdp d) ++ 34 :: 125 :: [].
Proof.
  unfold JSON_stringify, quote. cbn [app]. f_equal. f_equal.
  repeat (rewrite <- app_assoc; cbn [app]). reflexivity.
Qed.

Lemma is_string_units (s : string) : is_string (units s).
Proof.
  unfold is_string, units. apply List.Forall_forall. intros c Hc.
  apply in_map_iff in Hc as (a & <- & _).
  pose proof (Ascii.N_ascii_bounded a). unfold code_unit. lia.
Qed.

Lemma parse_two_members (fuel : nat) (k1 v1 k2 v2 : jsstring) :
  is_string k1 -> is_string v1 -> is_string k2 -> is_string v2 ->
  parse_members (S (S fuel))
    (34 :: quote_units k1 ++ 34 :: 58 :: 34
        :: quote_units v1 ++ 34 :: 44 :: 34
        :: quote_units k2 ++ 34 :: 58 :: 34
        :: quote_units v2 ++ 34 :: 125 :: []) =
  Some ([(k1, v1); (k2, v2)], []).
Proof.
  intros Hk1 Hv1 Hk2 Hv2.
  cbn [parse_members]. cbn [Z.eqb Pos.eqb].
  rewrite (parse_quote_units k1 Hk1). cbn [Z.eqb Pos.eqb andb].
  rewrite (parse_quote_units v1 Hv1). cbn [Z.eqb Pos.eqb].
  destruct fuel; cbn [parse_members]; cbn [Z.eqb Pos.eqb];
    rewrite (parse_quote_units k2 Hk2); cbn [Z.eqb Pos.eqb andb];
    rewrite (parse_quote_units v2 Hv2); cbn [Z.eqb Pos.eqb]; reflexivity.
Qed.

(** [JSON.parse(JSON.stringify(d))] is [d]. *)
Lemma JSON_parse_stringify (d : descriptor) :
  is_string (d_type d) -> is_string (d_sdp d) ->
  JSON_parse (JSON_stringify d) = Some d.
Proof.
  intros Ht Hs. rewrite JSON_stringify_text. unfold JSON_parse.
  cbn [Z.eqb Pos.eqb].
  match goal with
  | |- context [parse_members (length ?r) ?r] =>
      assert (Hlen : exists n, length r = S (S n))
  end.
  { cbn [length]. rewrite length_app. cbn [length].
    eexists. rewrite Nat.add_succ_r. reflexivity. }
  destruct Hlen as [n ->].
  rewrite parse_two_members; auto using is_string_units.
  cbn [property].
  destruct (decide (units "sdp" = units "type")) as [E|_];
    [vm_compute in E; discriminate E|].
  destruct (decide (units "type" = units "type")) as [_|E];
    [|now elim E].
  destruct (decide (units "sdp" = units "sdp")) as [_|E];
    [|now elim E].
  destruct (decide (units "type" = units "sdp")) as [E|_];
    [vm_compute in E; discriminate E|].
  now destruct d.
Qed.

Lemma well_formed_stringify (d : descriptor) :
  is_string (d_type d) -> is_string (d_sdp d) ->
  is_string (JSON_stringify d) /\ well_formed (JSON_stringify d) = true.
Proof.
  intros Ht Hs. rewrite JSON_stringify_text.
  assert (Hc : forall c, 0 <= c < 128 -> code_unit c)
    by (unfold code_unit; lia).
  assert (Hp : forall c rest, 0 <= c < 128 ->
            well_formed (c :: rest) = well_formed rest).
  { intros c rest H. apply (well_formed_plain [c]).
    constructor; [unfold plain; lia | constructor]. }
  split.
  - unfold is_string.
    repeat first
      [ apply List.Forall_nil
      | apply List.Forall_cons; [apply Hc; lia|]
      | apply Forall_app; split;
        [apply is_string_quote_units; auto using is_string_units|] ].
  - repeat first
      [ rewrite Hp by lia
      | rewrite well_formed_quote_units by auto using is_string_units ].
    reflexivity.
Qed.

Lemma fromCharCodes_fits (limit : nat) (deflate : jsstring -> list byte)
    (d : descriptor) :
  fits limit deflate d ->
  fromCharCodes limit (deflate (JSON_stringify d)) =
    Some (fromCharCode (deflate (JSON_stringify d))).
Proof.
  unfold fits, fromCharCodes. intros H.
  now destruct (Nat.leb_spec (length (deflate (JSON_stringify d))) limit);
    [|lia].
Qed.


(** The round trip of a descriptor that fits: [compressSDP] produces a token
    and [decompressSDP] of that token is the descriptor, given that
    inflating what pako deflated gives the string back (which pako promises
    for well-formed strings, the only ones it is given here). *)
Lemma compress_then_decompress (limit : nat)
    (deflate : jsstring -> list byte)
    (inflate : list byte -> option jsstring) (d : descriptor) :
  (forall s, is_string s -> well_formed s = true ->
             inflate (deflate s) = Some s) ->
  is_string (d_type d) -> is_string (d_sdp d) ->
  fits limit deflate d ->
  exists token,
    compressSDP limit deflate d = Some token
    /\ decompressSDP inflate token = Some d.
Proof.
  intros Hpako Ht Hs Hfit. unfold compressSDP, decompressSDP. cbv zeta.
  rewrite (fromCharCodes_fits limit deflate d Hfit).
  destruct (atob_btoa (fromCharCode (deflate (JSON_stringify d)))
              (fromCharCode_octets _)) as (token & Hb & Ha).
  exists token. split; [exact Hb|].
  rewrite Ha, toUint8Array_fromCharCode.
  destruct (well_formed_stringify d Ht Hs) as [Hstr Hwf].
  rewrite (Hpako _ Hstr Hwf). now apply JSON_parse_stringify.
Qed.


(** A stand-in for pako that satisfies its contract: two bytes per code
    unit, high byte first. *)
Definition two_bytes (s : jsstring) : list byte :=
  toUint8Array (flat_map (fun c => [c / 256; c]) s).

Fixpoint from_two_bytes (b : list byte) : option jsstring :=
  match b with
  | [] => Some []
  | h :: l :: r =>
      match from_two_bytes r with
      | Some s => Some (Z.of_N (Byte.to_N h) * 256 + Z.of_N (Byte.to_N l) :: s)
      | None => None
      end
  | _ => None
  end.

Lemma byte_value (n : Z) :
  Z.of_N (Byte.to_N (default x00 (Byte.of_N (Z.to_N (n mod 256))))) =
  n mod 256.
Proof.
  pose proof (Z.mod_pos_bound n 256 eq_refl) as Hn.
  destruct (Byte.of_N (Z.to_N (n mod 256))) as [b|] eqn:E.
  - apply Byte.to_of_N in E. simpl. rewrite E. lia.
  - apply Byte.of_N_None_iff in E. lia.
Qed.

Lemma from_two_bytes_two_bytes (s : jsstring) :
  is_string s -> from_two_bytes (two_bytes s) = Some s.
Proof.
  unfold is_string, two_bytes, toUint8Array.
  induction 1 as [|c s Hc _ IH]; [reflexivity|].
  cbn [flat_map app map from_two_bytes]. rewrite IH.
  rewrite !byte_value. unfold code_unit in Hc. do 2 f_equal.
  Z.to_euclidean_division_equations. lia.
Qed.

(** An offer as [createOffer] hands it to [compressSDP]. *)
Definition sample_offer : descriptor :=
  {| d_type := units "offer";
     d_sdp := units "v=0" ++ [13; 10] ++ units "a=ice-ufrag:x" ++ [13; 10] |}.

(** An engine that accepts 65536 arguments in a call. *)
Definition small_engine : nat := Z.to_nat 65536.



(** *** What a token looks like, and which tokens are refused *)


Lemma in_strip_padding (c : Z) (s : jsstring) :
  In c s -> c <> 61 -> In c (strip_padding s).
Proof.
  intros Hin Hc. unfold strip_padding.
  destruct (_ =? 0)%nat; [|exact Hin].
  pose proof (proj1 (in_rev s c) Hin) as Hr.
  destruct (rev s) as [|c1 r1] eqn:E; [elim Hr|].
  destruct (Z.eqb_spec c1 61) as [->|_]; [|exact Hin].
  destruct Hr as [E'|Hr]; [congruence|].
  destruct r1 as [|c2 r2]; [elim Hr|].
  destruct (Z.eqb_spec c2 61) as [->|_].
  - destruct Hr as [E'|Hr]; [congruence|]. apply -> in_rev. exact Hr.
  - apply -> in_rev. exact Hr.
Qed.

Lemma indices_bad_char (c : Z) (s : jsstring) :
  In c s -> b64index c = None -> indices s = None.
Proof.
  intros Hin Hc. induction s as [|x s IH]; [elim Hin|].
  cbn [indices]. destruct Hin as [->|Hin].
  - now rewrite Hc.
  - rewrite (IH Hin). now destruct (b64index x).
Qed.

Section Tokens.

Variable argumentLimit : nat.
Variable deflate : jsstring -> list byte.
Variable inflate : list byte -> option jsstring.


(** [atob] throws on a character that is neither of the base64 alphabet,
    nor white space, nor the padding character. *)
Lemma atob_foreign_character (base64 : jsstring) (c : Z) :
  In c base64 -> b64index c = None -> is_space c = false -> c <> 61 ->
  atob base64 = None.
Proof.
  intros Hin Hidx Hsp Hpad. unfold atob. cbv zeta.
  assert (H1 : In c (List.filter (fun x => negb (is_space x)) base64))
    by (apply filter_In; split; [exact Hin | now rewrite Hsp]).
  apply (in_strip_padding _ _ H1) in Hpad.
  rewrite (indices_bad_char c _ Hpad Hidx).
  now destruct (_ =? 1)%nat.
Qed.

End Tokens.

(** *** The offline exchange: [createOffer], [handleOffer], [handleAnswer] *)

(** The peer connection as the offline methods drive it, with its
    descriptions as the records the codec handles. *)
Record peer : Type := {
  local_description : option descriptor;
  remote_description : option descriptor;
  has_channel : bool
}.

Definition new_peer : peer :=
  {| local_description := None; remote_description := None;
     has_channel := false |}.

(** The connectivity agent of a peer in the offline exchange: the SDP of the
    offer and of the answer it creates ([None]: the promise rejects), the
    remote descriptions it accepts, and the SDP its local description shows
    once [waitForIceGathering] has returned (gathering complete, or the 3 s
    timer). *)
Record offline_agent : Type := {
  make_offer : peer -> option jsstring;
  make_answer : peer -> option jsstring;
  accepts : peer -> descriptor -> bool;
  gathered : jsstring -> jsstring
}.

Definition set_local (d : descriptor) (p : peer) : peer :=
  {| local_description := Some d; remote_description := remote_description p;
     has_channel := has_channel p |}.

Definition set_remote (d : descriptor) (p : peer) : peer :=
  {| local_description := local_description p; remote_description := Some d;
     has_channel := has_channel p |}.

Section Exchange.

Variable argumentLimit : nat.
Variable deflate : jsstring -> list byte.
Variable inflate : list byte -> option jsstring.

(** Each method returns the peer it leaves and what its promise resolves
    to ([None]: it rejects). *)
Definition createOffer (ag : offline_agent) (p : peer)
    : peer * option jsstring :=
  let p1 := {| local_description := local_description p;
               remote_description := remote_description p;
               has_channel := true |} in
  match make_offer ag p1 with
  | None => (p1, None)
  | Some sdp =>
      let sdp' := gathered ag sdp in
      (set_local {| d_type := units "offer"; d_sdp := sdp' |} p1,
       compressSDP argumentLimit deflate
         {| d_type := units "offer"; d_sdp := sdp' |})
  end.

Definition handleOffer (ag : offline_agent) (p : peer)
    (compressedOffer : jsstring) : peer * option jsstring :=
  match decompressSDP inflate compressedOffer with
  | None => (p, None)
  | Some data =>
      let remote := {| d_type := units "offer"; d_sdp := d_sdp data |} in
      if accepts ag p remote then
        let p1 := set_remote remote p in
        match make_answer ag p1 with
        | None => (p1, None)
        | Some sdp =>
            let sdp' := gathered ag sdp in
            (set_local {| d_type := units "answer"; d_sdp := sdp' |} p1,
             compressSDP argumentLimit deflate
               {| d_type := units "answer"; d_sdp := sdp' |})
        end
      else (p, None)
  end.

Definition handleAnswer (ag : offline_agent) (p : peer)
    (compressedAnswer : jsstring) : peer * bool :=
  match decompressSDP inflate compressedAnswer with
  | None => (p, false)
  | Some data =>
      let remote := {| d_type := units "answer"; d_sdp := d_sdp data |} in
      if accepts ag p remote then (set_remote remote p, true) else (p, false)
  end.

Hypothesis pako_round_trip :
  forall s, is_string s -> well_formed s = true ->
            inflate (deflate s) = Some s.

(** An agent whose descriptions are strings, which creates offers and
    answers and accepts what it is given. *)
Definition obliging (ag : offline_agent) : Prop :=
  (forall p, make_offer ag p <> None)
  /\ (forall p, make_answer ag p <> None)
  /\ (forall p d, accepts ag p d = true)
  /\ (forall s, is_string (gathered ag s)).

(** An agent whose descriptions, once deflated, fit the engine's argument
    limit. *)
Definition concise (ag : offline_agent) : Prop :=
  (forall p sdp,
     make_offer ag p = Some sdp ->
     fits argumentLimit deflate
       {| d_type := units "offer"; d_sdp := gathered ag sdp |})
  /\ (forall p sdp,
        make_answer ag p = Some sdp ->
        fits argumentLimit deflate
          {| d_type := units "answer"; d_sdp := gathered ag sdp |}).

(** X18: the offline handshake.  The token [createOffer] returns on the host,
    given to [handleOffer] on the guest, and the token that returns, given
    to [handleAnswer] on the host, leave each side with a remote description
    equal to the other side's local description, the offer on the guest and
    the answer on the host, with a data channel created on the host only,
    for descriptions that fit the engine's argument limit. *)
Theorem offline_handshake (agh agg : offline_agent) (host0 guest0 : peer) :
  obliging agh -> obliging agg -> concise agh -> concise agg ->
  exists offerToken answerToken host1 guest1 host2,
    createOffer agh host0 = (host1, Some offerToken)
    /\ handleOffer agg guest0 offerToken = (guest1, Some answerToken)
    /\ handleAnswer agh host1 answerToken = (host2, true)
    /\ remote_description guest1 = local_description host2
    /\ remote_description host2 = local_description guest1
    /\ (exists sdp, local_description host2 =
                      Some {| d_type := units "offer"; d_sdp := sdp |})
    /\ (exists sdp, local_description guest1 =
                      Some {| d_type := units "answer"; d_sdp := sdp |})
    /\ has_channel host2 = true
    /\ has_channel guest1 = has_channel guest0.
Proof.
  intros (Hoh & _ & Hach & Hgh) (_ & Hag & Hacg & Hgg) [Hfh _] [_ Hfg].
  set (h0 := {| local_description := local_description host0;
                remote_description := remote_description host0;
                has_channel := true |}).
  destruct (make_offer agh h0) as [sdp_o|] eqn:Eo;
    [|exfalso; eapply Hoh; exact Eo].
  set (off := {| d_type := units "offer"; d_sdp := gathered agh sdp_o |}).
  destruct (compress_then_decompress argumentLimit deflate inflate off
              pako_round_trip (is_string_units _) (Hgh _) (Hfh _ _ Eo))
    as (offerToken & Hc1 & Hd1).
  set (g0 := set_remote off guest0).
  destruct (make_answer agg g0) as [sdp_a|] eqn:Ea;
    [|exfalso; eapply Hag; exact Ea].
  set (ans := {| d_type := units "answer"; d_sdp := gathered agg sdp_a |}).
  destruct (compress_then_decompress argumentLimit deflate inflate ans
              pako_round_trip (is_string_units _) (Hgg _) (Hfg _ _ Ea))
    as (answerToken & Hc2 & Hd2).
  exists offerToken, answerToken, (set_local off h0), (set_local ans g0),
    (set_remote ans (set_local off h0)).
  split; [|split; [|split]].
  - unfold createOffer. fold h0. rewrite Eo. cbv zeta. fold off.
    now rewrite Hc1.
  - unfold handleOffer. rewrite Hd1. cbv zeta. rewrite Hacg.
    cbn [d_sdp off]. fold off. fold g0. rewrite Ea. fold ans.
    now rewrite Hc2.
  - unfold handleAnswer. rewrite Hd2. cbv zeta. rewrite Hach.
    reflexivity.
  - repeat split; eexists; reflexivity.
Qed.

(** X19: the type carried by a token is not looked at.  [handleOffer] sets the
    remote description to an offer and [handleAnswer] to an answer with the
    SDP of the token, whatever type the token's descriptor has: an answer
    token given to [handleOffer] is applied as an offer.  (The token is that
    of a descriptor that fits the engine's argument limit.) *)
Theorem token_type_is_ignored (ag : offline_agent) (p : peer)
    (d : descriptor) :
  obliging ag -> is_string (d_type d) -> is_string (d_sdp d) ->
  fits argumentLimit deflate d ->
  exists token,
    compressSDP argumentLimit deflate d = Some token
    /\ remote_description (fst (handleOffer ag p token)) =
         Some {| d_type := units "offer"; d_sdp := d_sdp d |}
    /\ handleAnswer ag p token =
         (set_remote {| d_type := units "answer"; d_sdp := d_sdp d |} p, true).
Proof.
  intros (_ & Han & Hacc & Hg) Ht Hs Hfit.
  destruct (compress_then_decompress argumentLimit deflate inflate d
              pako_round_trip Ht Hs Hfit)
    as (token & Hc & Hd).
  exists token. split; [exact Hc|]. unfold handleOffer, handleAnswer.
  rewrite Hd. cbv zeta. rewrite !Hacc. split; [|reflexivity].
  now destruct (make_answer ag _).
Qed.

(** X17: a token with a foreign character is refused.  When the text given to
    [handleOffer] or [handleAnswer] holds a character that is neither of the
    base64 alphabet, nor white space, nor the padding character, decoding
    fails ([atob] throws) before pako or [JSON.parse] see anything, the
    method rejects, and the peer is left as it was: no remote description is
    set and no answer is made. *)
Theorem foreign_character_is_refused (ag : offline_agent) (p : peer)
    (token : jsstring) (c : Z) :
  In c token -> b64index c = None -> is_space c = false -> c <> 61 ->
  decompressSDP inflate token = None
  /\ handleOffer ag p token = (p, None)
  /\ handleAnswer ag p token = (p, false).
Proof.
  intros Hin Hidx Hsp Hpad.
  pose proof (atob_foreign_character token c Hin Hidx Hsp Hpad) as Ha.
  assert (Hd : decompressSDP inflate token = None)
    by (unfold decompressSDP; now rewrite Ha).
  unfold handleOffer, handleAnswer. now rewrite Hd.
Qed.

End Exchange.

(** An agent for the examples: fixed SDPs, everything accepted, gathering
    leaves the SDP as it is when it is a string. *)
Definition sample_agent : offline_agent :=
  {| make_offer := fun _ => Some (d_sdp sample_offer);
     make_answer := fun _ => Some (units "v=0");
     accepts := fun _ _ => true;
     gathered := fun s => List.filter (fun c => (0 <=? c) && (c <? 65536)) s |}.

Lemma sample_agent_obliging : obliging sample_agent.
Proof.
  repeat split; try discriminate.
  intros s. unfold is_string. cbn [gathered sample_agent].
  apply List.Forall_forall. intros c Hc. apply filter_In in Hc as [_ Hc].
  apply andb_true_iff in Hc as [H0 H1].
  apply Z.leb_le in H0. apply Z.ltb_lt in H1. unfold code_unit. lia.
Qed.

Lemma pako_stand_in :
  forall s, is_string s -> well_formed s = true ->
            from_two_bytes (two_bytes s) = Some s.
Proof. intros s Hs _. now apply from_two_bytes_two_bytes. Qed.

Lemma sample_agent_concise : concise small_engine two_bytes sample_agent.
Proof.
  split; intros p sdp E; injection E as <-; unfold fits;
    apply Nat.leb_le; vm_compute; reflexivity.
Qed.

Lemma offline_handshake_witness :
  exists offerToken answerToken host1 guest1 host2,
    createOffer small_engine two_bytes sample_agent new_peer
      = (host1, Some offerToken)
    /\ handleOffer small_engine two_bytes from_two_bytes sample_agent
         new_peer offerToken = (guest1, Some answerToken)
    /\ handleAnswer from_two_bytes sample_agent host1 answerToken
         = (host2, true)
    /\ remote_description guest1 = local_description host2
    /\ remote_description host2 = local_description guest1.
Proof.
  destruct (offline_handshake small_engine two_bytes from_two_bytes
              pako_stand_in sample_agent sample_agent new_peer new_peer
              sample_agent_obliging sample_agent_obliging
              sample_agent_concise sample_agent_concise)
    as (t1 & t2 & h1 & g1 & h2 & H1 & H2 & H3 & H4 & H5 & _).
  now exists t1, t2, h1, g1, h2.
Defined.

Lemma token_type_is_ignored_witness :
  exists token,
    compressSDP small_engine two_bytes
      {| d_type := units "answer"; d_sdp := units "v=0" |} = Some token
    /\ remote_description
         (fst (handleOffer small_engine two_bytes from_two_bytes sample_agent
                 new_peer token)) =
       Some {| d_type := units "offer"; d_sdp := units "v=0" |}.
Proof.
  destruct (token_type_is_ignored small_engine two_bytes from_two_bytes
              pako_stand_in sample_agent new_peer
              {| d_type := units "answer"; d_sdp := units "v=0" |}
              sample_agent_obliging (is_string_units _) (is_string_units _))
    as (token & Hc & Ho & _).
  { unfold fits. apply Nat.leb_le. vm_compute. reflexivity. }
  now exists token.
Defined.

Lemma foreign_character_is_refused_witness :
  handleOffer small_engine two_bytes from_two_bytes sample_agent new_peer
    (units "AHsA!gB0") = (new_peer, None).
Proof.
  apply (foreign_character_is_refused small_engine two_bytes from_two_bytes
           sample_agent new_peer (units "AHsA!gB0") 33).
  - vm_compute. tauto.
  - reflexivity.
  - reflexivity.
  - discriminate.
Defined.

End Offline.
